(** * cursor-flow: the execution and interpretation core

    A shallow embedding of the parts of [cursor-agent-task.js],
    [cursor-tasks.js] and [call-llm.js] that carry the algorithms: the stream
    filter that turns cumulative assistant events into a transcript, the
    semantic judge's parsing and its call to call-llm, the retry/resume loop,
    and the task queue with its validation, status update, resets and run.

    JavaScript strings are sequences of UTF-16 code units, so they are lists of
    [N] here; [js] writes an ASCII literal. *)

From Stdlib Require Import ZArith NArith Lia Ascii String.
From stdpp Require Import base decidable option list numbers gmap.

Set Warnings "-register-all".
Local Open Scope N_scope.

(** ** JavaScript strings *)
Module JsString.

Abbreviation jsstring := (list N).

(** An ASCII literal as code units. *)
Definition js (s : string) : jsstring :=
  (fun a => N_of_ascii a) <$> list_ascii_of_string s.

(** A literal in which the apostrophe stands for the double quote, to write
    JSON text. *)
Definition jsq (s : string) : jsstring :=
  (fun c => if c =? 39 then 34 else c) <$> js s.

(** Truthiness of a string value: only the empty string is falsy. *)
Definition truthy (s : jsstring) : bool :=
  match s with [] => false | _ :: _ => true end.

(** Truthiness of a value that is a string, [null] or [undefined]. *)
Definition truthy_opt (o : option jsstring) : bool :=
  match o with Some s => truthy s | None => false end.

Definition streq (a b : jsstring) : bool := bool_decide (a = b).

(** [s.startsWith(p)]. *)
Fixpoint startsWith (s p : jsstring) {struct p} : bool :=
  match p, s with
  | [], _ => true
  | _ :: _, [] => false
  | c :: p', d :: s' => (c =? d) && startsWith s' p'
  end.

(** [s.slice(n)] and [s.substring(n)] for [0 <= n]. *)
Definition slice (s : jsstring) (n : nat) : jsstring := drop n s.

(** [s.substring(0, n)]. *)
Definition substring0 (s : jsstring) (n : nat) : jsstring := take n s.

Arguments slice : simpl never.
Arguments substring0 : simpl never.

(** WhiteSpace and LineTerminator code units, as [String.prototype.trim]
    strips them. *)
Definition isWhiteSpace (c : N) : bool :=
  (c =? 9) || (c =? 10) || (c =? 11) || (c =? 12) || (c =? 13) || (c =? 32)
  || (c =? 160) || (c =? 5760) || ((8192 <=? c) && (c <=? 8202))
  || (c =? 8232) || (c =? 8233) || (c =? 8239) || (c =? 8287)
  || (c =? 12288) || (c =? 65279).

Fixpoint trimStart (s : jsstring) : jsstring :=
  match s with
  | [] => []
  | c :: r => if isWhiteSpace c then trimStart r else s
  end.

Definition trimEnd (s : jsstring) : jsstring := reverse (trimStart (reverse s)).

Definition trim (s : jsstring) : jsstring := trimEnd (trimStart s).

(** [s.includes(p)] *)
Fixpoint includes (s p : jsstring) : bool :=
  startsWith s p
  || match s with [] => false | _ :: r => includes r p end.

(** [text.split(/\r?\n/)]; [cur] holds the current line, last unit first. *)
Fixpoint splitLines (text cur : jsstring) : list jsstring :=
  match text with
  | [] => [reverse cur]
  | 13 :: 10 :: r => reverse cur :: splitLines r []
  | 10 :: r => reverse cur :: splitLines r []
  | c :: r => splitLines r (c :: cur)
  end.

(** The literal ["null"]. *)
Definition str_null : jsstring := [110; 117; 108; 108].

End JsString.
Export JsString.

(** ** The stream filter: [pipeThroughAssistantFilter]

    The handlers of the filter work on parsed objects: a [Decoded] holds what
    [extractSessionId], [extractUserText] and [extractAssistantText] return on
    one object ([Framing] below reads them from the bytes of the stream).
    Terminal rendering (box prefixes, labels, line wrapping) is presentation: it
    consumes the fragment that the filter decided to show and never feeds back
    into [lastUserOutput], [lastAssistantOutput], [knownUserPrompts] or
    [sessionId], so an output records the fragment handed to the renderer. *)
Module StreamFilter.

Record Decoded := {
  d_sessionId : option jsstring;   (* extractSessionId: null or a string *)
  d_userText : option jsstring;    (* extractUserText: null or a string *)
  d_assistantText : jsstring       (* extractAssistantText: a string *)
}.

Inductive Output :=
| OnSessionId (sid : jsstring)     (* callback onSessionId *)
| OnText (text : jsstring)         (* callback onText *)
| OnEnd                            (* callback onEnd *)
| ShowUser (fragment : jsstring)   (* user text handed to the renderer *)
| ShowAssistant (fragment : jsstring)
| ShowResidual (text : jsstring).  (* text printed from the final partial line *)

Record State := {
  lastUserOutput : jsstring;
  lastAssistantOutput : jsstring;
  sessionId : option jsstring;
  knownUserPrompts : list jsstring   (* a Set, in insertion order *)
}.

Definition init : State :=
  {| lastUserOutput := []; lastAssistantOutput := []; sessionId := None;
     knownUserPrompts := [] |}.

(** [text && text !== "null" && text.length > 0] *)
Definition textGuard (text : jsstring) : bool :=
  truthy text && negb (streq text str_null) && (0 <? length text)%nat.

(** [Set.prototype.add] on an insertion-ordered set. *)
Definition set_add (x : jsstring) (s : list jsstring) : list jsstring :=
  if bool_decide (x ∈ s) then s else s ++ [x].

(** The session id update shared by the data and end handlers. *)
Definition stepSessionId (cur extracted : option jsstring)
  : option jsstring * list Output :=
  match extracted with
  | Some e =>
      if truthy e && (negb (truthy_opt cur) || negb (bool_decide (Some e = cur)))
      then (Some e, [OnSessionId e])
      else (cur, [])
  | None => (cur, [])
  end.

(** The two-branch diff of cumulative text against the recorded text; the
    result is the fragment shown (if any) and the new record. *)
Definition diffUser (last text : jsstring) : option jsstring * jsstring :=
  if startsWith text last then
    let newPart := slice text (length last) in
    if (0 <? length newPart)%nat then (Some newPart, text) else (None, last)
  else if negb (streq text last) then (Some text, text)
  else (None, last).

Definition diffAssistant (last text : jsstring) : option jsstring * jsstring :=
  if startsWith text last then
    let newPart := slice text (length last) in
    if (0 <? length newPart)%nat then (Some newPart, text) else (None, last)
  else if negb (streq text last) then (Some text, text)
  else (None, last).

(** The text an optional fragment stands for. *)
Definition emitted (fragment : option jsstring) : jsstring := default [] fragment.

(** The loop over [knownUserPrompts] that strips a leading known prompt. *)
Fixpoint stripKnownPrompts (known : list jsstring) (assistantText : jsstring)
  : jsstring :=
  match known with
  | [] => assistantText
  | userPrompt :: rest =>
      if truthy userPrompt && startsWith (trim assistantText) (trim userPrompt)
      then
        let stripped :=
          trim (slice (trim assistantText) (length (trim userPrompt))) in
        if truthy stripped then stripKnownPrompts rest stripped else []
      else stripKnownPrompts rest assistantText
  end.

Definition filterKnownPrompts (known : list jsstring) (assistantText : jsstring)
  : jsstring :=
  if textGuard assistantText then stripKnownPrompts known assistantText
  else assistantText.

(** The user part of the data handler. *)
Definition userStage (st : State) (userText : option jsstring)
  : State * list Output :=
  match userText with
  | Some u =>
      if textGuard u then
        let known := set_add (trim u) (knownUserPrompts st) in
        let '(frag, last) := diffUser (lastUserOutput st) u in
        ({| lastUserOutput := last;
            lastAssistantOutput := lastAssistantOutput st;
            sessionId := sessionId st;
            knownUserPrompts := known |},
         match frag with Some f => [ShowUser f] | None => [] end)
      else (st, [])
  | None => (st, [])
  end.

(** The assistant part of the data handler after the echo filter: guard, then
    diff against the record. *)
Definition diffStage (st : State) (text : jsstring) : State * list Output :=
  if textGuard text then
    let '(frag, last) := diffAssistant (lastAssistantOutput st) text in
    ({| lastUserOutput := lastUserOutput st;
        lastAssistantOutput := last;
        sessionId := sessionId st;
        knownUserPrompts := knownUserPrompts st |},
     match frag with Some f => [ShowAssistant f] | None => [] end)
  else (st, []).

(** The assistant part of the data handler: filter, guard, diff. *)
Definition assistantStage (st : State) (assistantText : jsstring)
  : State * list Output :=
  diffStage st (filterKnownPrompts (knownUserPrompts st) assistantText).

(** One parsed object in the data handler. *)
Definition handleObject (st : State) (d : Decoded) : State * list Output :=
  let '(sid, o1) := stepSessionId (sessionId st) (d_sessionId d) in
  let st1 := {| lastUserOutput := lastUserOutput st;
                lastAssistantOutput := lastAssistantOutput st;
                sessionId := sid;
                knownUserPrompts := knownUserPrompts st |} in
  let '(st2, o2) := userStage st1 (d_userText d) in
  let '(st3, o3) := assistantStage st2 (d_assistantText d) in
  (st3, o1 ++ o2 ++ o3).

Fixpoint feed (st : State) (ds : list Decoded) : State * list Output :=
  match ds with
  | [] => (st, [])
  | d :: rest =>
      let '(st1, o1) := handleObject st d in
      let '(st2, o2) := feed st1 rest in
      (st2, o1 ++ o2)
  end.

(** One object of the final partial line in the end handler: its assistant
    text is printed but not recorded. *)
Definition handleResidual (sid : option jsstring) (d : Decoded)
  : option jsstring * list Output :=
  let extracted := d_assistantText d in
  let '(sid1, o1) := stepSessionId sid (d_sessionId d) in
  (sid1, o1 ++ (if textGuard extracted then [ShowResidual extracted] else [])).

Fixpoint feedResidual (sid : option jsstring) (ds : list Decoded)
  : option jsstring * list Output :=
  match ds with
  | [] => (sid, [])
  | d :: rest =>
      let '(sid1, o1) := handleResidual sid d in
      let '(sid2, o2) := feedResidual sid1 rest in
      (sid2, o1 ++ o2)
  end.

(** The end handler. *)
Definition finish (st : State) (residual : list Decoded) : list Output :=
  let '(sid, o) := feedResidual (sessionId st) residual in
  o
  ++ (if truthy (lastAssistantOutput st) then [OnText (lastAssistantOutput st)] else [])
  ++ (match sid with
      | Some s => if truthy s then [OnSessionId s] else []
      | None => []
      end)
  ++ [OnEnd].

(** A whole stream: the objects of the complete lines, then the end event with
    the objects of the final partial line. *)
Definition run (ds residual : list Decoded) : list Output :=
  let '(st, o) := feed init ds in o ++ finish st residual.

(** The text callbacks of [runCursorAgentInitial] and [runCursorAgentResume]:
    [stdout = extractedText], starting from the empty string. *)
Definition collectText (outs : list Output) : jsstring :=
  fold_left (fun acc o => match o with OnText t => t | _ => acc end) outs [].

Definition textCallbacks (outs : list Output) : list jsstring :=
  omap (fun o => match o with OnText t => Some t | _ => None end) outs.

(** Texts handed one after the other to the assistant part of the handler after
    the echo filter (guard, then diff), and the assistant fragments among the
    outputs. *)
Fixpoint diffAll (st : State) (texts : list jsstring) : State * list Output :=
  match texts with
  | [] => (st, [])
  | t :: rest =>
      let '(st1, o1) := diffStage st t in
      let '(st2, o2) := diffAll st1 rest in
      (st2, o1 ++ o2)
  end.

Definition shownAssistant (outs : list Output) : list jsstring :=
  omap (fun o => match o with ShowAssistant f => Some f | _ => None end) outs.

(** [part] is a contiguous part of [text]. *)
Definition partOf (part text : jsstring) : Prop :=
  exists before after, text = before ++ part ++ after.

(** Each text extends the one before it. *)
Fixpoint extending (prev : jsstring) (texts : list jsstring) : Prop :=
  match texts with
  | [] => True
  | t :: rest => prev `prefix_of` t /\ extending t rest
  end.

End StreamFilter.
Export StreamFilter.

(** ** JSON values and [JSON.parse] *)
Module Json.

(** A number literal, kept exact: [(-1)^neg * mant * 10^exp10]. *)
Record number := { neg : bool; mant : N; exp10 : Z }.

Inductive value :=
| JNull
| JBool (b : bool)
| JNum (n : number)
| JStr (s : jsstring)
| JArr (items : list value)
| JObj (members : list (jsstring * value)).

(** The Number value of a literal is [+0] or [-0] when the literal is zero or
    rounds to zero, that is when it is at most [2^-1075] in magnitude. *)
Definition num_is_zero (n : number) : bool :=
  (mant n =? 0)
  || ((exp10 n <? 0)%Z
      && (Z.of_N (mant n) * 2 ^ 1075 <=? 10 ^ (- exp10 n))%Z).

(** ToBoolean on a parsed value. *)
Definition truthyValue (v : value) : bool :=
  match v with
  | JNull => false
  | JBool b => b
  | JNum n => negb (num_is_zero n)
  | JStr s => truthy s
  | JArr _ | JObj _ => true
  end.

(** ToBoolean on a property read, where [None] is [undefined]. *)
Definition truthyProp (o : option value) : bool :=
  match o with Some v => truthyValue v | None => false end.

Fixpoint lookupMember (k : jsstring) (members : list (jsstring * value))
  : option value :=
  match members with
  | [] => None
  | (k', v) :: rest => if streq k k' then Some v else lookupMember k rest
  end.

(** [CreateDataProperty]: an existing key keeps its place, a new key goes last. *)
Fixpoint setMember (k : jsstring) (v : value) (members : list (jsstring * value))
  : list (jsstring * value) :=
  match members with
  | [] => [(k, v)]
  | (k', v') :: rest =>
      if streq k k' then (k, v) :: rest else (k', v') :: setMember k v rest
  end.

(** [delete obj[k]]: no member with that key remains. *)
Definition deleteMember (k : jsstring) (members : list (jsstring * value))
  : list (jsstring * value) :=
  filter (fun kv => streq k kv.1 = false) members.

(** [v.k] for a value that is not [null] and a key that no prototype defines
    ([None] is [undefined]): only an object's own members answer. *)
Definition getProp (v : value) (k : jsstring) : option value :=
  match v with
  | JObj members => lookupMember k members
  | _ => None
  end.

(** *** The parser *)

Definition isJsonWs (c : N) : bool :=
  (c =? 32) || (c =? 9) || (c =? 10) || (c =? 13).

Fixpoint skipWs (s : jsstring) : jsstring :=
  match s with
  | [] => []
  | c :: r => if isJsonWs c then skipWs r else s
  end.

Definition isDigit (c : N) : bool := (48 <=? c) && (c <=? 57).

Definition hexVal (c : N) : option N :=
  if isDigit c then Some (c - 48)
  else if (97 <=? c) && (c <=? 102) then Some (c - 87)
  else if (65 <=? c) && (c <=? 70) then Some (c - 55)
  else None.

(** The characters of a string literal after its opening quote; [acc] holds
    the decoded code units, last first. *)
Fixpoint parseStringBody (s acc : jsstring) : option (jsstring * jsstring) :=
  match s with
  | [] => None
  | c :: r =>
      if c =? 34 then Some (reverse acc, r)
      else if c =? 92 then
        match r with
        | [] => None
        | e :: r' =>
            if e =? 34 then parseStringBody r' (34 :: acc)
            else if e =? 92 then parseStringBody r' (92 :: acc)
            else if e =? 47 then parseStringBody r' (47 :: acc)
            else if e =? 98 then parseStringBody r' (8 :: acc)
            else if e =? 102 then parseStringBody r' (12 :: acc)
            else if e =? 110 then parseStringBody r' (10 :: acc)
            else if e =? 114 then parseStringBody r' (13 :: acc)
            else if e =? 116 then parseStringBody r' (9 :: acc)
            else if e =? 117 then
              match r' with
              | h1 :: h2 :: h3 :: h4 :: r'' =>
                  match hexVal h1, hexVal h2, hexVal h3, hexVal h4 with
                  | Some a, Some b, Some c', Some d =>
                      parseStringBody r'' (((a * 16 + b) * 16 + c') * 16 + d :: acc)
                  | _, _, _, _ => None
                  end
              | _ => None
              end
            else None
        end
      else if c <? 32 then None
      else parseStringBody r (c :: acc)
  end.

(** A run of decimal digits: its value after [acc], how many there are, and
    the rest of the input. *)
Fixpoint takeDigits (s : jsstring) (acc : N) (count : nat) : N * nat * jsstring :=
  match s with
  | c :: r => if isDigit c then takeDigits r (acc * 10 + (c - 48)) (S count)
              else (acc, count, s)
  | [] => (acc, count, [])
  end.

(** A number literal: an optional minus, then either a single 0 or a run of
    digits not starting with 0, then an optional fraction (a dot and at least
    one digit), then an optional exponent (e or E, an optional sign and at
    least one digit). *)
Definition parseNumber (s : jsstring) : option (number * jsstring) :=
  let '(sign, s1) := match s with 45 :: r => (true, r) | _ => (false, s) end in
  let intPart :=
    match s1 with
    | c :: r =>
        if c =? 48 then Some (0, r)
        else if isDigit c then
          let '(n, _, rest) := takeDigits s1 0 0 in Some (n, rest)
        else None
    | [] => None
    end in
  match intPart with
  | None => None
  | Some (i, s2) =>
      let fracPart :=
        match s2 with
        | 46 :: r =>
            let '(n, count, rest) := takeDigits r i 0 in
            if (0 <? count)%nat then Some (n, count, rest) else None
        | _ => Some (i, O, s2)
        end in
      match fracPart with
      | None => None
      | Some (m, fcount, s3) =>
          let expDigits (negative : bool) (r : jsstring) :=
            let '(n, count, rest) := takeDigits r 0 0 in
            if (0 <? count)%nat
            then Some ((if negative then - Z.of_N n else Z.of_N n)%Z, rest)
            else None in
          let expPart :=
            match s3 with
            | c :: r =>
                if (c =? 101) || (c =? 69) then
                  match r with
                  | 43 :: r' => expDigits false r'
                  | 45 :: r' => expDigits true r'
                  | _ => expDigits false r
                  end
                else Some (0%Z, s3)
            | [] => Some (0%Z, s3)
            end in
          match expPart with
          | None => None
          | Some (e, s4) =>
              Some ({| neg := sign; mant := m; exp10 := (e - Z.of_nat fcount)%Z |}, s4)
          end
      end
  end.

Definition lit_true : jsstring := [116; 114; 117; 101].
Definition lit_false : jsstring := [102; 97; 108; 115; 101].

(** A value, the elements of an array after its first, and the members of an
    object after its first; each call on a nested part spends one unit of fuel,
    and no more calls nest than the input has characters. *)
Fixpoint parseValue (fuel : nat) (s : jsstring) : option (value * jsstring) :=
  match fuel with
  | O => None
  | S f =>
      match skipWs s with
      | [] => None
      | c :: r =>
          if c =? 123 then
            match skipWs r with
            | 125 :: r' => Some (JObj [], r')
            | _ => parseMembers f r []
            end
          else if c =? 91 then
            match skipWs r with
            | 93 :: r' => Some (JArr [], r')
            | _ => parseElements f r []
            end
          else if c =? 34 then
            match parseStringBody r [] with
            | Some (str, rest) => Some (JStr str, rest)
            | None => None
            end
          else if startsWith (c :: r) lit_true then Some (JBool true, drop 4 (c :: r))
          else if startsWith (c :: r) lit_false then Some (JBool false, drop 5 (c :: r))
          else if startsWith (c :: r) str_null then Some (JNull, drop 4 (c :: r))
          else
            match parseNumber (c :: r) with
            | Some (n, rest) => Some (JNum n, rest)
            | None => None
            end
      end
  end
with parseElements (fuel : nat) (s : jsstring) (acc : list value)
  : option (value * jsstring) :=
  match fuel with
  | O => None
  | S f =>
      match parseValue f s with
      | None => None
      | Some (v, rest) =>
          match skipWs rest with
          | 44 :: r => parseElements f r (v :: acc)
          | 93 :: r => Some (JArr (reverse (v :: acc)), r)
          | _ => None
          end
      end
  end
with parseMembers (fuel : nat) (s : jsstring) (acc : list (jsstring * value))
  : option (value * jsstring) :=
  match fuel with
  | O => None
  | S f =>
      match skipWs s with
      | 34 :: r =>
          match parseStringBody r [] with
          | None => None
          | Some (k, rest) =>
              match skipWs rest with
              | 58 :: r1 =>
                  match parseValue f r1 with
                  | None => None
                  | Some (v, rest1) =>
                      match skipWs rest1 with
                      | 44 :: r2 => parseMembers f r2 (setMember k v acc)
                      | 125 :: r2 => Some (JObj (setMember k v acc), r2)
                      | _ => None
                      end
                  end
              | _ => None
              end
          end
      | _ => None
      end
  end.

(** [JSON.parse(text)]: [None] when it throws a SyntaxError. *)
Definition JSON_parse (text : jsstring) : option value :=
  match parseValue (S (length text)) text with
  | Some (v, rest) => match skipWs rest with [] => Some v | _ :: _ => None end
  | None => None
  end.

End Json.
Export Json.

(** ** From the bytes of the stream to parsed objects

    The data handler of [pipeThroughAssistantFilter] buffers partial lines,
    takes the JSON text out of every complete line and parses it; the three
    extraction functions then read the parsed object. A chunk is the text the
    stream hands over, already decoded from UTF-8. *)
Module Framing.
Import StreamFilter.

(** ["session_id"] *)
Definition key_session_id : jsstring :=
  [115; 101; 115; 115; 105; 111; 110; 95; 105; 100].

(** ["type"] *)
Definition key_type : jsstring :=
  [116; 121; 112; 101].

(** ["message"] *)
Definition key_message : jsstring :=
  [109; 101; 115; 115; 97; 103; 101].

(** ["role"] *)
Definition key_role : jsstring :=
  [114; 111; 108; 101].

(** ["content"] *)
Definition key_content : jsstring :=
  [99; 111; 110; 116; 101; 110; 116].

(** ["text"] *)
Definition key_text : jsstring :=
  [116; 101; 120; 116].

(** ["data"] *)
Definition key_data : jsstring :=
  [100; 97; 116; 97].

(** ["choices"] *)
Definition key_choices : jsstring :=
  [99; 104; 111; 105; 99; 101; 115].

(** ["delta"] *)
Definition key_delta : jsstring :=
  [100; 101; 108; 116; 97].

(** ["partial"] *)
Definition key_partial : jsstring :=
  [112; 97; 114; 116; 105; 97; 108].

(** ["token"] *)
Definition key_token : jsstring :=
  [116; 111; 107; 101; 110].

(** ["user"] *)
Definition str_user : jsstring :=
  [117; 115; 101; 114].

(** ["system"] *)
Definition str_system : jsstring :=
  [115; 121; 115; 116; 101; 109].

(** ["assistant"] *)
Definition str_assistant : jsstring :=
  [97; 115; 115; 105; 115; 116; 97; 110; 116].

(** ["token"] *)
Definition str_token : jsstring :=
  [116; 111; 107; 101; 110].

(** ["data:"] *)
Definition str_data_colon : jsstring :=
  [100; 97; 116; 97; 58].

(** [typeof v === "object"] for a value that is not [null]. *)
Definition isObjectLike (v : value) : bool :=
  match v with JObj _ | JArr _ => true | _ => false end.

(** [v.k === s] *)
Definition propIs (v : value) (k s : jsstring) : bool :=
  match getProp v k with
  | Some (JStr x) => streq x s
  | _ => false
  end.

(** [v.k] when it is a non-empty string. *)
Definition stringProp (v : value) (k : jsstring) : option jsstring :=
  match getProp v k with
  | Some (JStr s) => if truthy s then Some s else None
  | _ => None
  end.

(** [v.k] when it is truthy. *)
Definition truthyMember (v : value) (k : jsstring) : option value :=
  match getProp v k with
  | Some x => if truthyValue x then Some x else None
  | None => None
  end.

(** [extractSessionId(jsonObj)] *)
Definition extractSessionId (jsonObj : value) : option jsstring :=
  if isObjectLike jsonObj then stringProp jsonObj key_session_id else None.

Definition push (parts : list jsstring) (o : option jsstring) : list jsstring :=
  match o with Some s => parts ++ [s] | None => parts end.

(** A push guarded by the [seen] set, which holds exactly the parts so far. *)
Definition pushNew (parts : list jsstring) (o : option jsstring) : list jsstring :=
  match o with
  | Some s => if bool_decide (s ∈ parts) then parts else parts ++ [s]
  | None => parts
  end.

(** The [text] and [content] of the items of a content array. *)
Definition itemParts (pushWith : list jsstring -> option jsstring -> list jsstring)
    (parts : list jsstring) (items : list value) : list jsstring :=
  fold_left
    (fun acc item =>
       if isObjectLike item
       then pushWith (pushWith acc (stringProp item key_text))
              (stringProp item key_content)
       else acc)
    items parts.

(** [extractUserText(jsonObj)]: [None] is [null]. *)
Definition extractUserText (jsonObj : value) : option jsstring :=
  if negb (isObjectLike jsonObj) then None
  else if propIs jsonObj key_type str_user then
    let message := truthyMember jsonObj key_message in
    let parts1 :=
      match message with
      | Some m =>
          match truthyMember m key_content with
          | Some (JArr items) => itemParts push [] items
          | _ => []
          end
      | None => []
      end in
    let parts2 :=
      match message with
      | Some m => push parts1 (stringProp m key_content)
      | None => parts1
      end in
    let parts3 := push parts2 (stringProp jsonObj key_content) in
    match parts3 with
    | [] => None
    | _ :: _ => Some (concat parts3)
    end
  else None.

(** [extractAssistantText(jsonObj)] *)
Definition extractAssistantText (jsonObj : value) : jsstring :=
  if negb (isObjectLike jsonObj) then []
  else if propIs jsonObj key_type str_user || propIs jsonObj key_type str_system
  then []
  else
    let message := truthyMember jsonObj key_message in
    let fromUser :=
      match message with Some m => propIs m key_role str_user | None => false end in
    if fromUser then []
    else
      let assistantMessage :=
        match message with
        | Some m => if propIs m key_role str_assistant then Some m else None
        | None => None
        end in
      let data := truthyMember jsonObj key_data in
      (* message.content[].text and .content *)
      let p1 :=
        match assistantMessage with
        | Some m =>
            match truthyMember m key_content with
            | Some (JArr items) => itemParts pushNew [] items
            | _ => []
            end
        | None => []
        end in
      (* message.content as a string *)
      let p2 :=
        match assistantMessage with
        | Some m => pushNew p1 (stringProp m key_content)
        | None => p1
        end in
      (* type assistant or token: content, text, data.content *)
      let p3 :=
        if propIs jsonObj key_type str_assistant || propIs jsonObj key_type str_token
        then
          pushNew
            (pushNew (pushNew p2 (stringProp jsonObj key_content))
               (stringProp jsonObj key_text))
            (match data with Some d => stringProp d key_content | None => None end)
        else p2 in
      (* any other type with a content *)
      let p4 := pushNew p3 (stringProp jsonObj key_content) in
      (* choices[].delta.content *)
      let p5 :=
        match getProp jsonObj key_choices with
        | Some (JArr choices) =>
            fold_left
              (fun acc choice =>
                 if truthyValue choice then
                   match truthyMember choice key_delta with
                   | Some d => pushNew acc (stringProp d key_content)
                   | None => acc
                   end
                 else acc)
              choices p4
        | _ => p4
        end in
      (* delta.content *)
      let p6 :=
        match truthyMember jsonObj key_delta with
        | Some d => pushNew p5 (stringProp d key_content)
        | None => p5
        end in
      (* role assistant with a content *)
      let p7 :=
        if propIs jsonObj key_role str_assistant
        then pushNew p6 (stringProp jsonObj key_content) else p6 in
      (* data.partial.content *)
      let p8 :=
        match data with
        | Some d =>
            match truthyMember d key_partial with
            | Some p => pushNew p7 (stringProp p key_content)
            | None => p7
            end
        | None => p7
        end in
      (* partial, token, text *)
      let p9 := pushNew p8 (stringProp jsonObj key_partial) in
      let p10 := pushNew p9 (stringProp jsonObj key_token) in
      let p11 := pushNew p10 (stringProp jsonObj key_text) in
      concat p11.

(** What the handlers read from one parsed object. *)
Definition decodeObject (obj : value) : Decoded :=
  {| d_sessionId := extractSessionId obj;
     d_userText := extractUserText obj;
     d_assistantText := extractAssistantText obj |}.

(** [line.slice(i)] for the first [i] where the line has a brace or bracket. *)
Fixpoint fromFirstBracket (line : jsstring) : jsstring :=
  match line with
  | [] => []
  | c :: r => if (c =? 123) || (c =? 91) then line else fromFirstBracket r
  end.

(** The JSON text of a line: after [data:] in an event frame, or the trimmed
    line when it starts with a brace or bracket; empty otherwise. *)
Definition jsonOfLine (line : jsstring) : jsstring :=
  if startsWith line str_data_colon && (includes line [123] || includes line [91])
  then fromFirstBracket line
  else if startsWith (trim line) [123] || startsWith (trim line) [91]
  then trim line
  else [].

(** The object of a line, when the line is not blank, holds JSON text and that
    text parses. *)
Definition decodeLine (line : jsstring) : option Decoded :=
  if truthy (trim line) then
    let jsonStr := jsonOfLine line in
    if truthy jsonStr then decodeObject <$> JSON_parse jsonStr else None
  else None.

(** The complete lines of the buffer once a chunk is added, and the partial
    line that stays in the buffer. *)
Definition takeLines (rawBuffer chunk : jsstring) : list jsstring * jsstring :=
  let lines := splitLines (rawBuffer ++ chunk) [] in
  (removelast lines, List.last lines []).

(** The filter with its line buffer. *)
Record LineFilter := { f_state : State; f_rawBuffer : jsstring }.

Definition newFilter : LineFilter := {| f_state := init; f_rawBuffer := [] |}.

(** The data handler. *)
Definition onData (f : LineFilter) (chunk : jsstring) : LineFilter * list Output :=
  let '(lines, rest) := takeLines (f_rawBuffer f) chunk in
  let '(st, outs) := feed (f_state f) (omap decodeLine lines) in
  ({| f_state := st; f_rawBuffer := rest |}, outs).

(** The objects of what is left in the buffer at the end of the stream. *)
Definition residualObjects (rawBuffer : jsstring) : list Decoded :=
  if truthy (trim rawBuffer) then omap decodeLine (splitLines rawBuffer [])
  else [].

(** The end handler. *)
Definition onEnd (f : LineFilter) : list Output :=
  finish (f_state f) (residualObjects (f_rawBuffer f)).

(** The complete lines that a run of chunks gives the data handler, and the
    partial line in the buffer after them. *)
Fixpoint completeLines (rawBuffer : jsstring) (chunks : list jsstring)
  : list jsstring :=
  match chunks with
  | [] => []
  | chunk :: rest =>
      (takeLines rawBuffer chunk).1
      ++ completeLines (takeLines rawBuffer chunk).2 rest
  end.

Fixpoint lastBuffer (rawBuffer : jsstring) (chunks : list jsstring) : jsstring :=
  match chunks with
  | [] => rawBuffer
  | chunk :: rest => lastBuffer (takeLines rawBuffer chunk).2 rest
  end.

(** The data handler over the chunks of a stream. *)
Fixpoint onChunks (f : LineFilter) (chunks : list jsstring) : LineFilter * list Output :=
  match chunks with
  | [] => (f, [])
  | chunk :: rest =>
      let '(f1, o1) := onData f chunk in
      let '(f2, o2) := onChunks f1 rest in
      (f2, o1 ++ o2)
  end.

(** [pipeThroughAssistantFilter] on a stream that delivers [chunks] and ends. *)
Definition pipeThroughAssistantFilter (chunks : list jsstring) : list Output :=
  let '(f, outs) := onChunks newFilter chunks in outs ++ onEnd f.

End Framing.

(** ** The semantic judge: [parseLLMResult] and [interpretSemanticsViaLLM] *)
Module Judge.

(** ["done"] *)
Definition str_done : jsstring :=
  [100; 111; 110; 101].

(** ["resume"] *)
Definition str_resume : jsstring :=
  [114; 101; 115; 117; 109; 101].

(** ["auto"] *)
Definition str_auto : jsstring :=
  [97; 117; 116; 111].

(** ["result"] *)
Definition str_result : jsstring :=
  [114; 101; 115; 117; 108; 116].

(** ["reasons"] *)
Definition str_reasons : jsstring :=
  [114; 101; 97; 115; 111; 110; 115].

(** ["length"] *)
Definition str_length : jsstring :=
  [108; 101; 110; 103; 116; 104].

(** ["JSON解析失败: "] *)
Definition str_parse_failed : jsstring :=
  [74; 83; 79; 78; 35299; 26512; 22833; 36133; 58; 32].

(** ["无效的结果值: "] *)
Definition str_invalid_result : jsstring :=
  [26080; 25928; 30340; 32467; 26524; 20540; 58; 32].

(** ["语义判定调用失败，默认需要继续执行"] *)
Definition str_judge_call_failed : jsstring :=
  [35821; 20041; 21028; 23450; 35843; 29992; 22833; 36133; 65292; 40664; 35748; 38656; 35201; 32487; 32493; 25191; 34892].

(** ["退出码: "] *)
Definition str_exit_code : jsstring :=
  [36864; 20986; 30721; 58; 32].

(** ["错误: "] *)
Definition str_error_colon : jsstring :=
  [38169; 35823; 58; 32].

(** ["无错误输出"] *)
Definition str_no_error_output : jsstring :=
  [26080; 38169; 35823; 36755; 20986].

(** ["判定调用失败: "] *)
Definition str_judge_threw : jsstring :=
  [21028; 23450; 35843; 29992; 22833; 36133; 58; 32].

(** ["undefined"] *)
Definition str_undefined : jsstring :=
  [117; 110; 100; 101; 102; 105; 110; 101; 100].

(** ["true"] *)
Definition str_true : jsstring :=
  [116; 114; 117; 101].

(** ["false"] *)
Definition str_false : jsstring :=
  [102; 97; 108; 115; 101].

(** ["toString"] *)
Definition str_toString : jsstring :=
  [116; 111; 83; 116; 114; 105; 110; 103].

(** ["[object Object]"] *)
Definition str_object : jsstring :=
  [91; 111; 98; 106; 101; 99; 116; 32; 79; 98; 106; 101; 99; 116; 93].

(** A settled promise. *)
Inductive Settled (A : Type) :=
| Resolved (a : A)
| Rejected (message : jsstring).
Arguments Resolved {A} a.
Arguments Rejected {A} message.

(** Where the modelled code can raise a TypeError. *)
Inductive TypeErrorSite :=
| ReadResultOfNull                 (* [json.result] on [null] *)
| NoPrimitiveValue                 (* an object that cannot be made a string *)
| ReasonsSliceNotFunction          (* [parsed.reasons.slice(0, 3)] on an object *)
| ReasonsMisuse (reasons : value). (* [reasons[0].substring] or [...reasons] *)

(** What the JavaScript engine decides: the text of the errors it raises, how
    it prints a number, whether two number literals denote the same Number
    value, and whether the Number value of a string is above zero. *)
Record Engine := {
  syntaxErrorMessage : jsstring -> jsstring;
  typeErrorMessage : TypeErrorSite -> jsstring;
  numberToString : number -> jsstring;
  sameNumber : number -> number -> bool;
  stringAboveZero : jsstring -> bool
}.

Inductive Verdict := Done | Resume | Auto.

Definition verdictToken (v : Verdict) : jsstring :=
  match v with Done => str_done | Resume => str_resume | Auto => str_auto end.

(** [{ result, reasons }]; [reasons] is whatever value the judge sent. *)
Record SemanticsResult := { result : Verdict; reasons : value }.

(** An integer written in decimal, as a template literal prints it. *)
Fixpoint decimalDigits (fuel : nat) (n : N) (acc : jsstring) : jsstring :=
  match fuel with
  | O => acc
  | S f =>
      let acc' := (48 + n mod 10) :: acc in
      if n / 10 =? 0 then acc' else decimalDigits f (n / 10) acc'
  end.

Definition decimalN (n : N) : jsstring :=
  decimalDigits (S (N.to_nat (N.log2 n))) n [].

Definition decimalZ (z : Z) : jsstring :=
  if (z <? 0)%Z then 45 :: decimalN (Z.abs_N z) else decimalN (Z.to_N z).

Fixpoint joinWith (sep : jsstring) (parts : list jsstring) : jsstring :=
  match parts with
  | [] => []
  | [p] => p
  | p :: rest => p ++ sep ++ joinWith sep rest
  end.

Section WithEngine.
Variable E : Engine.

(** ToString on a parsed value, [None] when it raises a TypeError: an object
    of a parsed text has the string form of [Object.prototype] unless it has a
    member named [toString], which is never a function; an array joins the
    string forms of its items. *)
Fixpoint toDisplay (v : value) : option jsstring :=
  match v with
  | JNull => Some str_null
  | JBool b => Some (if b then str_true else str_false)
  | JNum n => Some (numberToString E n)
  | JStr s => Some s
  | JArr items =>
      joinWith [44]
        <$> foldr
              (fun x acc =>
                 match (match x with JNull => Some [] | _ => toDisplay x end), acc with
                 | Some s, Some l => Some (s :: l)
                 | _, _ => None
                 end)
              (Some []) items
  | JObj members =>
      match lookupMember str_toString members with
      | Some _ => None
      | None => Some str_object
      end
  end.

(** ToString on a property read. *)
Definition displayProp (o : option value) : option jsstring :=
  match o with Some v => toDisplay v | None => Some str_undefined end.

(** [v > 0] on a property read, [None] when the comparison raises a
    TypeError. *)
Definition greaterThanZero (o : option value) : option bool :=
  match o with
  | None | Some JNull => Some false
  | Some (JBool b) => Some b
  | Some (JNum n) => Some (negb (neg n) && negb (num_is_zero n))
  | Some (JStr s) => Some (stringAboveZero E s)
  | Some (JArr items) => stringAboveZero E <$> toDisplay (JArr items)
  | Some (JObj members) => (fun _ => false) <$> toDisplay (JObj members)
  end.

(** [json.result] when it is one of the three tokens. *)
Definition verdictOf (json : value) : option Verdict :=
  match getProp json str_result with
  | Some (JStr s) =>
      if streq s str_done then Some Done
      else if streq s str_resume then Some Resume
      else if streq s str_auto then Some Auto
      else None
  | _ => None
  end.

Definition parseFailure (message : jsstring) : SemanticsResult :=
  {| result := Resume; reasons := JArr [JStr (str_parse_failed ++ message)] |}.

Definition parseLLMResult (stdout : jsstring) : SemanticsResult :=
  match JSON_parse (trim stdout) with
  | None => parseFailure (syntaxErrorMessage E (trim stdout))
  | Some JNull => parseFailure (typeErrorMessage E ReadResultOfNull)
  | Some json =>
      match verdictOf json with
      | Some verdict =>
          {| result := verdict;
             reasons :=
               match getProp json str_reasons with
               | Some r => if truthyValue r then r else JArr [JStr (verdictToken verdict)]
               | None => JArr [JStr (verdictToken verdict)]
               end |}
      | None =>
          match displayProp (getProp json str_result) with
          | Some shown => parseFailure (str_invalid_result ++ shown)
          | None => parseFailure (typeErrorMessage E NoPrimitiveValue)
          end
      end
  end.

(** The resolved value of [runCallLLMOnce]; [stdout] and [stderr] are already
    trimmed there. *)
Record CallResult := {
  llm_exitCode : Z;
  llm_stdout : jsstring;
  llm_stderr : jsstring;
  llm_durationMs : Z
}.

(** The arguments handed to call-llm. *)
Definition judgeArgs (judgePrompt judgeModel executionSummary : jsstring)
  : list jsstring :=
  [js "-m"; judgeModel; js "-f"; js "json";
   js "-c"; substring0 executionSummary 5000; js "-p"; judgePrompt].

(** The TypeError that logging the first three reasons raises, if any: on an
    object, when [reasons.length > 0] cannot be decided or holds (an object has
    no [slice] method); on an array, when one of the three has no string
    form. *)
Definition reasonsLoggingThrows (r : value) : option TypeErrorSite :=
  match r with
  | JObj members =>
      match greaterThanZero (lookupMember str_length members) with
      | None => Some NoPrimitiveValue
      | Some true => Some ReasonsSliceNotFunction
      | Some false => None
      end
  | JArr items =>
      if forallb (fun x => bool_decide (is_Some (toDisplay x))) (take 3 items)
      then None else Some NoPrimitiveValue
  | _ => None
  end.

(** The body of [interpretSemanticsViaLLM] once the call has settled. *)
Definition interpretOutcome (outcome : Settled CallResult) : SemanticsResult :=
  match outcome with
  | Rejected message =>
      {| result := Resume; reasons := JArr [JStr (str_judge_threw ++ message)] |}
  | Resolved r =>
      if negb (llm_exitCode r =? 0)%Z || truthy (llm_stderr r) then
        {| result := Resume;
           reasons :=
             JArr [JStr str_judge_call_failed;
                   JStr (str_exit_code ++ decimalZ (llm_exitCode r));
                   JStr (if truthy (llm_stderr r)
                         then str_error_colon ++ substring0 (llm_stderr r) 200
                         else str_no_error_output)] |}
      else
        let parsed := parseLLMResult (llm_stdout r) in
        match reasonsLoggingThrows (reasons parsed) with
        | Some site =>
            {| result := Resume;
               reasons := JArr [JStr (str_judge_threw ++ typeErrorMessage E site)] |}
        | None => parsed
        end
  end.

(** [interpretSemanticsViaLLM(judgeModel, executionSummary)], given the prompt
    constant and how the call to call-llm (60 seconds) settles. *)
Definition interpretSemanticsViaLLM
    (judgePrompt : jsstring)
    (runCallLLMOnce : list jsstring -> Z -> Settled CallResult)
    (judgeModel executionSummary : jsstring) : SemanticsResult :=
  interpretOutcome
    (runCallLLMOnce (judgeArgs judgePrompt judgeModel executionSummary) 60%Z).

End WithEngine.

(** The judge call failed: it rejected (timeout, spawn error), exited non-zero
    or wrote to its error stream. *)
Definition callFailed (outcome : Settled CallResult) : Prop :=
  match outcome with
  | Rejected _ => True
  | Resolved r => llm_exitCode r <> 0%Z \/ llm_stderr r <> []
  end.

(** The response is empty, is not JSON, or carries none of the three tokens. *)
Definition responseUnusable (stdout : jsstring) : Prop :=
  trim stdout = []
  \/ JSON_parse (trim stdout) = None
  \/ exists json, JSON_parse (trim stdout) = Some json /\ verdictOf json = None.

(** The first reason is one of the three failure notes. *)
Definition notesFailure (r : SemanticsResult) : Prop :=
  exists m rest,
    reasons r = JArr (JStr m :: rest)
    /\ (str_parse_failed `prefix_of` m
        \/ m = str_judge_call_failed
        \/ str_judge_threw `prefix_of` m).

End Judge.

(** ** The agent invoker: [runCursorAgentInitial] and [runCursorAgentResume] *)
Module Invoker.
Import StreamFilter.
Import Framing.
Import Judge.

(** ["执行超时(超过 "] *)
Definition str_timeout_prefix : jsstring :=
  [25191; 34892; 36229; 26102; 40; 36229; 36807; 32].

(** [" 分钟)"] *)
Definition str_timeout_suffix : jsstring :=
  [32; 20998; 38047; 41].

(** ["-p"] *)
Definition arg_p : jsstring :=
  [45; 112].

(** ["--model"] *)
Definition arg_model : jsstring :=
  [45; 45; 109; 111; 100; 101; 108].

(** ["--force"] *)
Definition arg_force : jsstring :=
  [45; 45; 102; 111; 114; 99; 101].

(** ["--print"] *)
Definition arg_print : jsstring :=
  [45; 45; 112; 114; 105; 110; 116].

(** ["--stream-partial-output"] *)
Definition arg_stream_partial : jsstring :=
  [45; 45; 115; 116; 114; 101; 97; 109; 45; 112; 97; 114; 116; 105; 97; 108; 45; 111; 117; 116; 112; 117; 116].

(** ["--output-format"] *)
Definition arg_output_format : jsstring :=
  [45; 45; 111; 117; 116; 112; 117; 116; 45; 102; 111; 114; 109; 97; 116].

(** ["--output-format="] *)
Definition arg_output_format_eq : jsstring :=
  [45; 45; 111; 117; 116; 112; 117; 116; 45; 102; 111; 114; 109; 97; 116; 61].

(** ["stream-json"] *)
Definition arg_stream_json : jsstring :=
  [115; 116; 114; 101; 97; 109; 45; 106; 115; 111; 110].

(** ["--resume="] *)
Definition arg_resume_eq : jsstring :=
  [45; 45; 114; 101; 115; 117; 109; 101; 61].

(** The resolved value of an invocation. *)
Record AgentRunResult := {
  exitCode : Z;
  stdout : jsstring;
  stderr : jsstring;
  durationMs : Z;
  sessionId : option jsstring
}.

(** The session id found in one chunk of raw output (the non-streaming
    handler): the last line that parses to an object carrying one wins. *)
Definition rawSessionId (chunk : jsstring) (current : option jsstring)
  : option jsstring :=
  fold_left
    (fun cur line =>
       if truthy (trim line)
          && (startsWith (trim line) [123] || includes line key_session_id)
       then
         match JSON_parse (trim line) with
         | Some obj =>
             match extractSessionId obj with
             | Some sid => Some sid
             | None => cur
             end
         | None => cur
         end
       else cur)
    (splitLines chunk []) current.

(** What the child process does before the invocation settles: a chunk on its
    output stream, the end of that stream, a chunk on its error stream. *)
Inductive StreamEvent :=
| StdoutData (chunk : jsstring)
| StdoutEnd
| StderrData (text : jsstring).

(** What settles the invocation: the timer, the child's close event (with its
    exit code, [None] when a signal ended it) or its error event. *)
Inductive Ending :=
| TimerExpired
| Closed (code : option Z) (elapsedMs : Z)
| Failed (message : jsstring).

Record Behaviour := { b_events : list StreamEvent; b_ending : Ending }.

Inductive Signal := SIGTERM.

(** The variables of one invocation. *)
Record Child := {
  c_stdout : jsstring;
  c_stderr : jsstring;
  c_sessionId : option jsstring;
  c_filter : LineFilter
}.

(** The text and session-id callbacks handed to the stream filter. *)
Definition applyCallback (c : Child) (o : Output) : Child :=
  match o with
  | OnText t =>
      {| c_stdout := t; c_stderr := c_stderr c;
         c_sessionId := c_sessionId c; c_filter := c_filter c |}
  | OnSessionId s =>
      {| c_stdout := c_stdout c; c_stderr := c_stderr c;
         c_sessionId := Some s; c_filter := c_filter c |}
  | _ => c
  end.

Definition withFilter (c : Child) (st : LineFilter) : Child :=
  {| c_stdout := c_stdout c; c_stderr := c_stderr c;
     c_sessionId := c_sessionId c; c_filter := st |}.

(** The handlers of the child's streams: with [streamPartial] the output goes
    through the stream filter, otherwise it is collected as it comes. *)
Definition onEvent (streamPartial : bool) (c : Child) (ev : StreamEvent) : Child :=
  match ev with
  | StdoutData chunk =>
      if streamPartial then
        let '(f, outs) := onData (c_filter c) chunk in
        fold_left applyCallback outs (withFilter c f)
      else
        {| c_stdout := c_stdout c ++ chunk; c_stderr := c_stderr c;
           c_sessionId := rawSessionId chunk (c_sessionId c);
           c_filter := c_filter c |}
  | StdoutEnd =>
      if streamPartial then fold_left applyCallback (onEnd (c_filter c)) c
      else c
  | StderrData text =>
      {| c_stdout := c_stdout c; c_stderr := c_stderr c ++ text;
         c_sessionId := c_sessionId c; c_filter := c_filter c |}
  end.

Definition timeoutMessage (timeoutMinutes : Z) : jsstring :=
  str_timeout_prefix ++ decimalZ timeoutMinutes ++ str_timeout_suffix.

(** How the promise settles, and the signals sent to the child. [initialSid] is
    [null] for a first run and the session id passed in for a resume. *)
Definition settle (streamPartial : bool) (timeoutMinutes : Z)
    (initialSid : option jsstring) (b : Behaviour)
  : Settled AgentRunResult * list Signal :=
  let c := fold_left (onEvent streamPartial) (b_events b)
             {| c_stdout := []; c_stderr := []; c_sessionId := initialSid;
                c_filter := newFilter |} in
  match b_ending b with
  | TimerExpired => (Rejected (timeoutMessage timeoutMinutes), [SIGTERM])
  | Closed code elapsedMs =>
      (Resolved {| exitCode := default 0%Z code;
                   stdout := trim (c_stdout c);
                   stderr := trim (c_stderr c);
                   durationMs := elapsedMs;
                   sessionId := c_sessionId c |}, [])
  | Failed message => (Rejected message, [])
  end.

(** The prompt goes through the input stream when it has a line break or is
    longer than 50000 units. *)
Definition needsStdinMode (prompt : jsstring) : bool :=
  includes prompt [10] || includes prompt [13]
  || (50000 <? N.of_nat (length prompt)).

(** [positionalArgs.some(...)]: an output format is already given. *)
Fixpoint hasOutputFormat (previous : option jsstring) (args : list jsstring) : bool :=
  match args with
  | [] => false
  | arg :: rest =>
      streq arg arg_output_format
      || startsWith arg arg_output_format_eq
      || match previous with
         | Some p => streq p arg_output_format
         | None => false
         end
      || hasOutputFormat (Some arg) rest
  end.

(** The argument vector of a first run. *)
Definition initialArgs (streamPartial : bool) (prompt model : jsstring)
    (positionalArgs : list jsstring) : list jsstring :=
  [arg_p; arg_model; model; arg_force; arg_print]
  ++ (if streamPartial then [arg_stream_partial] else [])
  ++ (if needsStdinMode prompt then [] else [prompt])
  ++ (if hasOutputFormat None positionalArgs then []
      else [arg_output_format; arg_stream_json])
  ++ positionalArgs.

(** What a first run writes to the child's input stream before closing it. *)
Definition initialStdin (prompt : jsstring) : jsstring :=
  if needsStdinMode prompt then prompt ++ [10] else [].

(** The argument vector of a resume; its input stream is not used. *)
Definition resumeArgs (model sessionId prompt : jsstring) : list jsstring :=
  [arg_model; model; arg_resume_eq ++ sessionId; arg_print;
   arg_output_format; arg_stream_json; arg_force; prompt].

End Invoker.

(** ** The retry/resume controller: [executeTaskWithRetry]

    The run is modelled with the telemetry sink switched off ([echoConfig] is
    [null], the default), where every [pushLogToTaskEcho] returns at once. The
    agent and the judge are the environment: [invoke n call] is how the
    invocation of attempt [n] settles and [judge n model summary] is what
    [interpretSemanticsViaLLM] returns on attempt [n]. The trace lists the calls
    made to them, in order. *)
Module Controller.
Import Judge.
Import Invoker.

(** ["按你的建议执行"] *)
Definition str_apply_suggestion : jsstring :=
  [25353; 20320; 30340; 24314; 35758; 25191; 34892].

(** ["请继续"] *)
Definition str_please_continue : jsstring :=
  [35831; 32487; 32493].

(** ["未找到 session_id，无法继续执行"] *)
Definition str_no_session : jsstring :=
  [26410; 25214; 21040; 32; 115; 101; 115; 115; 105; 111; 110; 95; 105; 100; 65292; 26080; 27861; 32487; 32493; 25191; 34892].

(** ["运行时错误: 退出码 "] *)
Definition str_runtime_error_prefix : jsstring :=
  [36816; 34892; 26102; 38169; 35823; 58; 32; 36864; 20986; 30721; 32].

(** ["\n\n标准输出:\n"] *)
Definition str_stdout_header : jsstring :=
  [10; 10; 26631; 20934; 36755; 20986; 58; 10].

(** ["运行时错误"] *)
Definition concl_runtime_error : jsstring :=
  [36816; 34892; 26102; 38169; 35823].

(** ["已完成"] *)
Definition concl_done : jsstring :=
  [24050; 23436; 25104].

(** ["建议继续"] *)
Definition concl_auto : jsstring :=
  [24314; 35758; 32487; 32493].

(** ["需要继续"] *)
Definition concl_resume : jsstring :=
  [38656; 35201; 32487; 32493].

(** ["执行出错"] *)
Definition concl_threw : jsstring :=
  [25191; 34892; 20986; 38169].

(** ["判定结果: "] *)
Definition str_verdict_prefix : jsstring :=
  [21028; 23450; 32467; 26524; 58; 32].

(** ["..."] *)
Definition str_ellipsis : jsstring :=
  [46; 46; 46].

Inductive AgentCall :=
| CallInitial (prompt model : jsstring) (positionalArgs : list jsstring)
    (timeoutMinutes : Z)
| CallResume (model sessionId prompt : jsstring) (timeoutMinutes : Z).

Inductive TraceEvent :=
| Invoked (attempt : nat) (call : AgentCall)
| Judged (attempt : nat) (judgeModel executionSummary : jsstring).

Definition attemptOf (ev : TraceEvent) : nat :=
  match ev with Invoked n _ => n | Judged n _ _ => n end.

(** An entry of [executions]; [e_sessionId] is [None] for [null] or absent. *)
Record Execution := {
  index : nat;
  e_durationMs : Z;
  conclusion : jsstring;
  e_sessionId : option jsstring;
  notes : list value
}.

Inductive FinalStatus := StatusDone | StatusPartial | StatusError.

Record Report := {
  success : bool;
  attempts : nat;
  finalStatus : FinalStatus;
  executions : list Execution;
  errorMessage : option jsstring
}.

(** The variables of the loop. *)
Record Loop := {
  l_attempts : nat;
  l_needsContinue : bool;
  l_finalStatus : FinalStatus;
  l_errorMessage : option jsstring;
  l_lastSemanticsResult : option SemanticsResult;
  l_sessionId : option jsstring;
  l_executions : list Execution;
  l_trace : list TraceEvent
}.

Definition start : Loop :=
  {| l_attempts := 0; l_needsContinue := true; l_finalStatus := StatusDone;
     l_errorMessage := None; l_lastSemanticsResult := None; l_sessionId := None;
     l_executions := []; l_trace := [] |}.

(** [a || b] on strings that may be [null]. *)
Definition orElse (a b : option jsstring) : option jsstring :=
  if truthy_opt a then a else if truthy_opt b then b else None.

(** The short instruction of a resume, from the previous verdict. *)
Definition resumePrompt (last : option SemanticsResult) : jsstring :=
  match last with
  | Some r => match result r with Auto => str_apply_suggestion | _ => str_please_continue end
  | None => str_please_continue
  end.

Definition conclusionOf (v : Verdict) : jsstring :=
  match v with Done => concl_done | Auto => concl_auto | Resume => concl_resume end.

(** [s.substring(0, n) + (s.length > n ? "..." : "")] *)
Definition clip (s : jsstring) (n : nat) : jsstring :=
  substring0 s n ++ (if (n <? length s)%nat then str_ellipsis else []).

Arguments clip : simpl never.

(** The code points of a string, as spreading it yields them. *)
Fixpoint codePoints (s : jsstring) : list jsstring :=
  match s with
  | [] => []
  | hi :: rest =>
      match rest with
      | lo :: rest' =>
          if (55296 <=? hi) && (hi <=? 56319) && (56320 <=? lo) && (lo <=? 57343)
          then [hi; lo] :: codePoints rest'
          else [hi] :: codePoints rest
      | [] => [[hi]]
      end
  end.

Definition isString (o : option value) : bool :=
  match o with Some (JStr _) => true | _ => false end.

(** Whether computing the reason text raises a TypeError: [reasons] is truthy
    and either [reasons.length > 0] cannot be decided, or it holds and
    [reasons[0]] has no [substring] method. *)
Definition reasonTextThrows (E : Engine) (reasons : value) : bool :=
  match reasons with
  | JArr (first :: _) => negb (isString (Some first))
  | JObj members =>
      match greaterThanZero E (lookupMember str_length members) with
      | None => true
      | Some above => above && negb (isString (lookupMember [48] members))
      end
  | _ => false
  end.

(** What [...reasons] contributes to the notes, or [None] when [reasons] is not
    iterable and the spread raises a TypeError. *)
Definition reasonsNotes (reasons : value) : option (list value) :=
  match reasons with
  | JArr items => Some items
  | JStr s => Some (JStr <$> codePoints s)
  | _ => None
  end.

(** The text of the runtime error. *)
Definition fullError (r : AgentRunResult) : jsstring :=
  str_runtime_error_prefix ++ decimalZ (exitCode r) ++ [10]
  ++ (if truthy (stderr r) then stderr r else str_no_error_output)
  ++ str_stdout_header ++ stdout r.

Section Run.
Variable E : Engine.
Variable invoke : nat -> AgentCall -> Settled AgentRunResult.
Variable judge : nat -> jsstring -> jsstring -> SemanticsResult.
Variables prompt model judgeModel : jsstring.
Variable retry : nat.
Variable timeoutMinutes : Z.
Variable positionalArgs : list jsstring.

(** The [catch] block: record the exception and leave the loop. *)
Definition caught (st : Loop) (message : jsstring) : Loop :=
  {| l_attempts := l_attempts st;
     l_needsContinue := l_needsContinue st;
     l_finalStatus := StatusError;
     l_errorMessage := Some message;
     l_lastSemanticsResult := l_lastSemanticsResult st;
     l_sessionId := l_sessionId st;
     l_executions :=
       l_executions st
       ++ [{| index := l_attempts st; e_durationMs := 0;
              conclusion := concl_threw; e_sessionId := None;
              notes := [JStr (clip message 500)] |}];
     l_trace := l_trace st |}.

(** The call of this attempt, or [None] when a resume has no session id. *)
Definition nextCall (st : Loop) : option AgentCall :=
  if (l_attempts st =? 1)%nat then
    Some (CallInitial prompt model positionalArgs timeoutMinutes)
  else
    match l_sessionId st with
    | Some sid =>
        if truthy sid then
          Some (CallResume model sid (resumePrompt (l_lastSemanticsResult st))
                  timeoutMinutes)
        else None
    | None => None
    end.

(** The session id kept after an invocation resolved. *)
Definition nextSessionId (st : Loop) (r : AgentRunResult) : option jsstring :=
  if (l_attempts st =? 1)%nat then
    if truthy_opt (sessionId r) then sessionId r else l_sessionId st
  else
    if truthy_opt (sessionId r) && negb (bool_decide (sessionId r = l_sessionId st))
    then sessionId r else l_sessionId st.

(** The part of the loop body after the invocation resolved with [r]. *)
Definition afterInvocation (st : Loop) (r : AgentRunResult) : Loop * bool :=
  let sid := nextSessionId st r in
  if negb (exitCode r =? 0)%Z || truthy (stderr r) then
    ({| l_attempts := l_attempts st;
        l_needsContinue := l_needsContinue st;
        l_finalStatus := StatusError;
        l_errorMessage := Some (substring0 (fullError r) 200);
        l_lastSemanticsResult := l_lastSemanticsResult st;
        l_sessionId := sid;
        l_executions :=
          l_executions st
          ++ [{| index := l_attempts st; e_durationMs := durationMs r;
                 conclusion := concl_runtime_error; e_sessionId := None;
                 notes := [JStr (clip (fullError r) 500)] |}];
        l_trace := l_trace st |}, false)
  else
    let executionSummary := substring0 (stdout r) 5000 in
    let semanticsResult := judge (l_attempts st) judgeModel executionSummary in
    let trace :=
      l_trace st ++ [Judged (l_attempts st) judgeModel executionSummary] in
    let judged (last : option SemanticsResult) :=
      {| l_attempts := l_attempts st;
         l_needsContinue := l_needsContinue st;
         l_finalStatus := l_finalStatus st;
         l_errorMessage := l_errorMessage st;
         l_lastSemanticsResult := last;
         l_sessionId := sid;
         l_executions := l_executions st;
         l_trace := trace |} in
    if reasonTextThrows E (reasons semanticsResult) then
      (caught (judged (l_lastSemanticsResult st))
         (typeErrorMessage E (ReasonsMisuse (reasons semanticsResult))), false)
    else
    match reasonsNotes (reasons semanticsResult) with
    | None =>
        (caught (judged (Some semanticsResult))
           (typeErrorMessage E (ReasonsMisuse (reasons semanticsResult))), false)
    | Some spread =>
        let executed :=
          l_executions st
          ++ [{| index := l_attempts st; e_durationMs := durationMs r;
                 conclusion := conclusionOf (result semanticsResult);
                 e_sessionId := orElse (sessionId r) sid;
                 notes :=
                   [JStr (str_verdict_prefix
                          ++ verdictToken (result semanticsResult))]
                   ++ spread
                   ++ [JStr (substring0 (stdout r) 200 ++ str_ellipsis)] |}] in
        match result semanticsResult with
        | Done =>
            ({| l_attempts := l_attempts st;
                l_needsContinue := false;
                l_finalStatus := StatusDone;
                l_errorMessage := l_errorMessage st;
                l_lastSemanticsResult := Some semanticsResult;
                l_sessionId := sid;
                l_executions := executed;
                l_trace := trace |}, false)
        | _ =>
            ({| l_attempts := l_attempts st;
                l_needsContinue := true;
                l_finalStatus := l_finalStatus st;
                l_errorMessage := l_errorMessage st;
                l_lastSemanticsResult := Some semanticsResult;
                l_sessionId := sid;
                l_executions := executed;
                l_trace := trace |}, true)
        end
    end.

(** One pass through the loop body; the flag tells whether the loop goes on
    ([false] after a [break]). *)
Definition iteration (st0 : Loop) : Loop * bool :=
  let st :=
    {| l_attempts := S (l_attempts st0);
       l_needsContinue := l_needsContinue st0;
       l_finalStatus := l_finalStatus st0;
       l_errorMessage := l_errorMessage st0;
       l_lastSemanticsResult := l_lastSemanticsResult st0;
       l_sessionId := l_sessionId st0;
       l_executions := l_executions st0;
       l_trace := l_trace st0 |} in
  match nextCall st with
  | None =>
      ({| l_attempts := l_attempts st;
          l_needsContinue := l_needsContinue st;
          l_finalStatus := StatusError;
          l_errorMessage := Some str_no_session;
          l_lastSemanticsResult := l_lastSemanticsResult st;
          l_sessionId := l_sessionId st;
          l_executions := l_executions st;
          l_trace := l_trace st |}, false)
  | Some call =>
      let st1 :=
        {| l_attempts := l_attempts st;
           l_needsContinue := l_needsContinue st;
           l_finalStatus := l_finalStatus st;
           l_errorMessage := l_errorMessage st;
           l_lastSemanticsResult := l_lastSemanticsResult st;
           l_sessionId := l_sessionId st;
           l_executions := l_executions st;
           l_trace := l_trace st ++ [Invoked (l_attempts st) call] |} in
      match invoke (l_attempts st) call with
      | Rejected message => (caught st1 message, false)
      | Resolved r => afterInvocation st1 r
      end
  end.

(** [while (needsContinue && attempts < retry)]; each pass raises [attempts],
    so [retry] passes are all the loop can make. *)
Fixpoint loop (fuel : nat) (st : Loop) : Loop :=
  match fuel with
  | O => st
  | S fuel' =>
      if l_needsContinue st && (l_attempts st <? retry)%nat then
        let '(st1, again) := iteration st in
        if again then loop fuel' st1 else st1
      else st
  end.

(** The loop, then the check for the retry ceiling. *)
Definition runLoop : Loop :=
  let st := loop retry start in
  if l_needsContinue st && (retry <=? l_attempts st)%nat then
    {| l_attempts := l_attempts st;
       l_needsContinue := l_needsContinue st;
       l_finalStatus := StatusPartial;
       l_errorMessage := l_errorMessage st;
       l_lastSemanticsResult := l_lastSemanticsResult st;
       l_sessionId := l_sessionId st;
       l_executions := l_executions st;
       l_trace := l_trace st |}
  else st.

Definition executeTaskWithRetry : Report :=
  let st := runLoop in
  {| success := match l_finalStatus st with StatusDone => true | _ => false end;
     attempts := l_attempts st;
     finalStatus := l_finalStatus st;
     executions := l_executions st;
     errorMessage := l_errorMessage st |}.

(** The calls made to the agent and to the judge during the run. *)
Definition trace : list TraceEvent := l_trace runLoop.

End Run.

(** The loop run against child processes: [behaviour n call] is what the child
    of attempt [n] does, and the invoker settles it. *)
Definition invokeProcess (streamPartial : bool)
    (behaviour : nat -> AgentCall -> Behaviour)
    (n : nat) (call : AgentCall) : Settled AgentRunResult :=
  match call with
  | CallInitial _ _ _ timeoutMinutes =>
      (settle streamPartial timeoutMinutes None (behaviour n call)).1
  | CallResume _ sid _ timeoutMinutes =>
      (settle streamPartial timeoutMinutes (Some sid) (behaviour n call)).1
  end.

(** The signals the child of attempt [n] receives. *)
Definition signalsSent (streamPartial : bool)
    (behaviour : nat -> AgentCall -> Behaviour)
    (n : nat) (call : AgentCall) : list Signal :=
  match call with
  | CallInitial _ _ _ timeoutMinutes =>
      (settle streamPartial timeoutMinutes None (behaviour n call)).2
  | CallResume _ sid _ timeoutMinutes =>
      (settle streamPartial timeoutMinutes (Some sid) (behaviour n call)).2
  end.

(** The argument vector the agent process of a call is spawned with. *)
Definition argv (streamPartial : bool) (call : AgentCall) : list jsstring :=
  match call with
  | CallInitial prompt model positionalArgs _ =>
      initialArgs streamPartial prompt model positionalArgs
  | CallResume model sid prompt _ => resumeArgs model sid prompt
  end.

End Controller.

(** ** The task queue: [validate_config], [update_task_status] and the start
    of [run_all_tasks] *)
Module TaskQueue.
Import Judge.

(** ["tasks"] *)
Definition key_tasks : jsstring :=
  [116; 97; 115; 107; 115].

(** ["name"] *)
Definition key_name : jsstring :=
  [110; 97; 109; 101].

(** ["id"] *)
Definition key_id : jsstring :=
  [105; 100].

(** ["prompt"] *)
Definition key_prompt : jsstring :=
  [112; 114; 111; 109; 112; 116].

(** ["spec_file"] *)
Definition key_spec_file : jsstring :=
  [115; 112; 101; 99; 95; 102; 105; 108; 101].

(** ["prompts"] *)
Definition key_prompts : jsstring :=
  [112; 114; 111; 109; 112; 116; 115].

(** ["status"] *)
Definition key_status : jsstring :=
  [115; 116; 97; 116; 117; 115].

(** ["error_message"] *)
Definition key_error_message : jsstring :=
  [101; 114; 114; 111; 114; 95; 109; 101; 115; 115; 97; 103; 101].

(** ["report"] *)
Definition key_report : jsstring :=
  [114; 101; 112; 111; 114; 116].

(** ["pending"] *)
Definition status_pending : jsstring :=
  [112; 101; 110; 100; 105; 110; 103].

(** ["error"] *)
Definition status_error : jsstring :=
  [101; 114; 114; 111; 114].

(** ["done"] *)
Definition status_done : jsstring :=
  [100; 111; 110; 101].

(** What [validate_config] throws: an error of its own, or a TypeError of the
    engine (the first two). *)
Inductive ValidationError :=
| NullRead                             (* the file or a task is [null] *)
| NoStringForm                         (* an id or a quoted name has no string form *)
| TasksMissing
| NameMissing
| NameRepeated (name : value)
| IdMissing (name : value)
| IdEmpty (name : value)
| IdTooLong (name : value)
| IdRepeated (taskId : jsstring) (name : value)
| PromptAndSpecMissing (name : value)
| SpecFileMalformed (name : value)
| SpecFileEmpty (name : value).

Section WithEngine.
Variable E : Engine.

(** Membership in a [Set] for values read from different places of a parsed
    file: primitives compare by value, and two arrays or objects are never the
    same reference. *)
Definition sameValueZero (a b : value) : bool :=
  match a, b with
  | JNull, JNull => true
  | JBool x, JBool y => bool_decide (x = y)
  | JNum x, JNum y => sameNumber E x y
  | JStr x, JStr y => streq x y
  | _, _ => false
  end.

Definition hasValue (s : list value) (v : value) : bool :=
  existsb (sameValueZero v) s.

(** [String(task.id).trim()], [None] when the id has no string form. *)
Definition normalizedId (id : value) : option jsstring := trim <$> toDisplay E id.

(** An error whose message quotes the task name: building the message raises
    a TypeError instead when the name has no string form. *)
Definition quoting (name : value) (e : ValidationError) : ValidationError :=
  match toDisplay E name with
  | Some _ => e
  | None => NoStringForm
  end.

Definition hasPrompt (task : value) : bool :=
  match getProp task key_prompt with
  | Some (JStr s) => truthy s && (0 <? length (trim s))%nat
  | _ => false
  end.

Definition hasSpecFile (task : value) : bool :=
  match getProp task key_spec_file with
  | None | Some JNull => false
  | Some _ => true
  end.

Definition isNull (v : value) : bool :=
  match v with JNull => true | _ => false end.

(** The check of [spec_file]: a string or a non-empty array when it is given. *)
Definition checkSpecFile (name : value) (task : value) : option ValidationError :=
  match getProp task key_spec_file with
  | None | Some JNull | Some (JStr _) | Some (JArr (_ :: _)) => None
  | Some (JArr []) => Some (SpecFileEmpty name)
  | Some _ => Some (SpecFileMalformed name)
  end.

(** The checks on a task from its id on, once its name is accepted. *)
Definition checkFromId (names : list value) (ids : gset jsstring)
    (task name id : value) : ValidationError + (list value * gset jsstring) :=
  match normalizedId id with
  | None => inl NoStringForm
  | Some taskId =>
      if (length taskId =? 0)%nat then inl (quoting name (IdEmpty name))
      else if (255 <? length taskId)%nat then inl (quoting name (IdTooLong name))
      else if bool_decide (taskId ∈ ids)
      then inl (quoting name (IdRepeated taskId name))
      else if negb (hasPrompt task) && negb (hasSpecFile task)
      then inl (quoting name (PromptAndSpecMissing name))
      else
        match checkSpecFile name task with
        | Some e => inl (quoting name e)
        | None => inr (names ++ [name], {[ taskId ]} ∪ ids)
        end
  end.

(** The checks on one task, given the names and ids seen so far. *)
Definition checkTask (names : list value) (ids : gset jsstring) (task : value)
  : ValidationError + (list value * gset jsstring) :=
  if isNull task then inl NullRead
  else
    match getProp task key_name with
    | None => inl NameMissing
    | Some name =>
        if negb (truthyValue name) then inl NameMissing
        else if hasValue names name then inl (quoting name (NameRepeated name))
        else
          match getProp task key_id with
          | None => inl (quoting name (IdMissing name))
          | Some id =>
              if isNull id then inl (quoting name (IdMissing name))
              else checkFromId names ids task name id
          end
    end.

Fixpoint checkTasks (names : list value) (ids : gset jsstring) (tasks : list value)
  : option ValidationError :=
  match tasks with
  | [] => None
  | task :: rest =>
      match checkTask names ids task with
      | inl e => Some e
      | inr (names', ids') => checkTasks names' ids' rest
      end
  end.

(** [validate_config(config)]: the error it throws, or [None] when it returns. *)
Definition validate_config (config : value) : option ValidationError :=
  if isNull config then Some NullRead
  else
    match getProp config key_tasks with
    | Some (JArr tasks) => checkTasks [] ∅ tasks
    | _ => Some TasksMissing
    end.

End WithEngine.

(** [t.name === taskName] for a string [taskName]. *)
Definition nameIs (taskName : jsstring) (t : value) : bool :=
  match getProp t key_name with
  | Some (JStr n) => streq n taskName
  | _ => false
  end.

(** The assignments made to the task that was found. *)
Definition markTask (status : jsstring) (errorMessage reportPath : option jsstring)
    (members : list (jsstring * value)) : list (jsstring * value) :=
  let m1 := setMember key_status (JStr status) members in
  let m2 :=
    match errorMessage with
    | Some (c :: msg) => setMember key_error_message (JStr (c :: msg)) m1
    | _ => if negb (streq status status_error)
           then deleteMember key_error_message m1 else m1
    end in
  match reportPath with
  | Some (c :: p) => setMember key_report (JStr (c :: p)) m2
  | _ => m2
  end.

(** [update_task_status(tasks, taskName, status, errorMessage, reportPath)]:
    the task array after the call. A [null] entry met before any match makes the
    search throw, with nothing changed. *)
Fixpoint update_task_status (tasks : list value) (taskName status : jsstring)
    (errorMessage reportPath : option jsstring) : list value :=
  match tasks with
  | [] => []
  | JNull :: _ => tasks
  | JObj members :: rest =>
      if nameIs taskName (JObj members)
      then JObj (markTask status errorMessage reportPath members) :: rest
      else JObj members
           :: update_task_status rest taskName status errorMessage reportPath
  | t :: rest =>
      t :: update_task_status rest taskName status errorMessage reportPath
  end.

(** The tasks the loop of [run_all_tasks] executes: those whose status is
    ["pending"]. *)
Definition isPending (task : value) : bool :=
  match getProp task key_status with
  | Some (JStr s) => streq s status_pending
  | _ => false
  end.

(** [taskFile.prompts.filter(...)] with [path.resolve] on every entry goes
    through when [prompts] is an array of strings and raises a TypeError
    otherwise. *)
Definition promptsReadable (taskFile : value) : bool :=
  match getProp taskFile key_prompts with
  | Some (JArr entries) =>
      forallb (fun p => match p with JStr _ => true | _ => false end) entries
  | _ => false
  end.

Inductive RunStart :=
| Aborted (e : ValidationError)
| PromptsUnreadable
| Started (toExecute : list value).

(** The start of [run_all_tasks] on the parsed task file, with the report
    directory in place: validation comes first and its exception leaves the
    function, and so does a TypeError on the prompts; otherwise the loop
    hands the pending tasks to [execute_task], in order. *)
Definition run_all_tasks (E : Engine) (taskFile : value) : RunStart :=
  match validate_config E taskFile with
  | Some e => Aborted e
  | None =>
      if promptsReadable taskFile then
        match getProp taskFile key_tasks with
        | Some (JArr tasks) => Started (filter (fun t => isPending t = true) tasks)
        | _ => Started []
        end
      else PromptsUnreadable
  end.

End TaskQueue.

(** ** What a caller observes of a filtered stream *)
Module StreamViews.
Import StreamFilter.
Import Framing.

(** The values handed to the session-id callback, in order. *)
Definition sessionCallbacks (outs : list Output) : list jsstring :=
  omap (fun o => match o with OnSessionId s => Some s | _ => None end) outs.

(** The session id an object carries, when it is a non-empty string. *)
Definition sessionOf (d : Decoded) : option jsstring :=
  match d_sessionId d with
  | Some s => if truthy s then Some s else None
  | None => None
  end.

(** The session id of the object on a line of the stream. *)
Definition sessionOfLine (line : jsstring) : option jsstring :=
  decodeLine line ≫= sessionOf.

(** The last of the ids seen, or else the one held before. *)
Definition latest (seen : list jsstring) (cur : option jsstring) : option jsstring :=
  match last seen with Some s => Some s | None => cur end.

(** The text starts with a line feed. *)
Definition startsWithLF (s : jsstring) : bool :=
  match s with c :: _ => c =? 10 | [] => false end.

End StreamViews.

(** ** What a child process did, by stream *)
Module InvokerViews.
Import StreamFilter.
Import Framing.
Import Invoker.

(** The chunks of the output stream, in order. *)
Definition stdoutChunks (evs : list StreamEvent) : list jsstring :=
  omap (fun ev => match ev with StdoutData chunk => Some chunk | _ => None end) evs.

(** The chunks of the error stream, in order. *)
Definition stderrTexts (evs : list StreamEvent) : list jsstring :=
  omap (fun ev => match ev with StderrData text => Some text | _ => None end) evs.

Definition isStderrData (ev : StreamEvent) : bool :=
  match ev with StderrData _ => true | _ => false end.

Definition isStdoutEnd (ev : StreamEvent) : bool :=
  match ev with StdoutEnd => true | _ => false end.

End InvokerViews.


(** ** Views of the controller used to state its properties *)
Module ControllerViews.
Import Judge.
Import Invoker.
Import Controller.

(** The verdict of attempt [k] on a result: the judge is given the first 5000
    code units of the filtered output. *)
Definition verdictOn (judge : nat -> jsstring -> jsstring -> SemanticsResult)
    (judgeModel : jsstring) (k : nat) (r : AgentRunResult) : SemanticsResult :=
  judge k judgeModel (substring0 (stdout r) 5000).

End ControllerViews.

(** ** Views of the judge used to state its properties *)
Module JudgeViews.
Import Judge.

(** [json.reasons || [json.result]] for a response whose result is the token
    of [v]. *)
Definition reasonsOf (json : value) (v : Verdict) : value :=
  match getProp json str_reasons with
  | Some r => if truthyValue r then r else JArr [JStr (verdictToken v)]
  | None => JArr [JStr (verdictToken v)]
  end.

(** A judge process that prints [{"result":"done"}]. *)
Definition agreeingJudge (args : list jsstring) (timeout : Z) : Settled CallResult :=
  Resolved {| llm_exitCode := 0; llm_stdout := jsq "{'result':'done'}";
              llm_stderr := []; llm_durationMs := 10 |}.

(** A judge process that prints [{"result":"done","reasons":{}}]. *)
Definition terseJudge (args : list jsstring) (timeout : Z) : Settled CallResult :=
  Resolved {| llm_exitCode := 0; llm_stdout := jsq "{'result':'done','reasons':{}}";
              llm_stderr := []; llm_durationMs := 10 |}.

End JudgeViews.

(** ** call-llm: [parseArgs] and the checks at the start of [main] *)
Module CallLLM.

(** The [config] object of [parseArgs]; [None] is [null]. *)
Record Config := {
  prompt : option jsstring;
  content : option jsstring;
  format : jsstring;
  apiKey : option jsstring;
  baseUrl : option jsstring;
  model : option jsstring;
  help : bool
}.

Definition defaults : Config :=
  {| prompt := None; content := None; format := js "text"; apiKey := None;
     baseUrl := None; model := None; help := false |}.

(** [parseArgs] returns the configuration, or the process exits with a
    status. *)
Inductive Parsed :=
| Exit (code : Z)
| Returns (config : Config).

(** The options that take a value. *)
Inductive ValueOption :=
| OptPrompt | OptContent | OptFormat | OptApiKey | OptBaseUrl | OptModel.

Definition valueOption (arg : jsstring) : option ValueOption :=
  if streq arg (js "--prompt") || streq arg (js "-p") then Some OptPrompt
  else if streq arg (js "--content") || streq arg (js "-c") then Some OptContent
  else if streq arg (js "--format") || streq arg (js "-f") then Some OptFormat
  else if streq arg (js "--api-key") || streq arg (js "-k") then Some OptApiKey
  else if streq arg (js "--baseurl") || streq arg (js "-b") then Some OptBaseUrl
  else if streq arg (js "--model") || streq arg (js "-m") then Some OptModel
  else None.

Definition lowerAscii (c : N) : N :=
  if (65 <=? c) && (c <=? 90) then c + 32 else c.

(** [s.toLowerCase() === literal] for a literal written with the letters of
    ["json"] and ["text"]: no code unit but the ASCII capital lowers to one of
    these letters. *)
Definition lowersTo (s literal : jsstring) : bool :=
  streq (lowerAscii <$> s) literal.

(** The assignment an option with its value makes; [None] when the format is
    neither ["json"] nor ["text"] and the process exits with status 1. *)
Definition assign (o : ValueOption) (v : jsstring) (config : Config)
  : option Config :=
  match o with
  | OptPrompt =>
      Some {| prompt := Some v; content := content config; format := format config;
              apiKey := apiKey config; baseUrl := baseUrl config;
              model := model config; help := help config |}
  | OptContent =>
      Some {| prompt := prompt config; content := Some v; format := format config;
              apiKey := apiKey config; baseUrl := baseUrl config;
              model := model config; help := help config |}
  | OptFormat =>
      if lowersTo v (js "json") || lowersTo v (js "text") then
        Some {| prompt := prompt config; content := content config;
                format := lowerAscii <$> v;
                apiKey := apiKey config; baseUrl := baseUrl config;
                model := model config; help := help config |}
      else None
  | OptApiKey =>
      Some {| prompt := prompt config; content := content config;
              format := format config;
              apiKey := Some v; baseUrl := baseUrl config;
              model := model config; help := help config |}
  | OptBaseUrl =>
      Some {| prompt := prompt config; content := content config;
              format := format config;
              apiKey := apiKey config; baseUrl := Some v;
              model := model config; help := help config |}
  | OptModel =>
      Some {| prompt := prompt config; content := content config;
              format := format config;
              apiKey := apiKey config; baseUrl := baseUrl config;
              model := Some v; help := help config |}
  end.

(** An argument that is not an option with a value after it: the help flag,
    an unknown option (exit status 1), or a word that is skipped. *)
Definition plain (arg : jsstring) (config : Config) : option Config :=
  if streq arg (js "-h") || streq arg (js "--help") then
    Some {| prompt := prompt config; content := content config;
            format := format config; apiKey := apiKey config;
            baseUrl := baseUrl config; model := model config; help := true |}
  else if startsWith arg (js "-") then None
  else Some config.

(** The loop of [parseArgs] from the argument at hand on. *)
Fixpoint parseFrom (argv : list jsstring) (config : Config) : Parsed :=
  match argv with
  | [] => Returns config
  | arg :: rest =>
      let otherwise :=
        match plain arg config with
        | Some config' => parseFrom rest config'
        | None => Exit 1
        end in
      match rest with
      | v :: rest' =>
          match valueOption arg with
          | Some o =>
              match assign o v config with
              | Some config' => parseFrom rest' config'
              | None => Exit 1
              end
          | None => otherwise
          end
      | [] => otherwise
      end
  end.

Definition parseArgs (argv : list jsstring) : Parsed := parseFrom argv defaults.

(** How [main] starts: it exits before any request is made (after the help
    text with status 0, without content or model with status 1), or it goes on
    to call the API with the configuration. *)
Inductive Start :=
| Exits (code : Z)
| CallsAPI (config : Config).

Definition main (argv : list jsstring) : Start :=
  match parseArgs argv with
  | Exit code => Exits code
  | Returns args =>
      if help args then Exits 0
      else if negb (truthy_opt (content args)) then Exits 1
      else if negb (truthy_opt (model args)) then Exits 1
      else CallsAPI args
  end.

End CallLLM.

(** ** Views of call-llm used to state its properties *)
Module CallLLMViews.
Import Judge.
Import CallLLM.

(** What the loop of [parseArgs] may change in the configuration while it reads
    [argv]: the format becomes one of the two tokens, and a value that is set
    is one of the arguments. *)
Definition fromArgv (argv : list jsstring) (before after : Config) : Prop :=
  (format after = format before \/ format after = js "json"
   \/ format after = js "text")
  /\ (forall v, prompt after = Some v -> prompt before = Some v \/ v ∈ argv)
  /\ (forall v, content after = Some v -> content before = Some v \/ v ∈ argv)
  /\ (forall v, model after = Some v -> model before = Some v \/ v ∈ argv)
  /\ (forall v, apiKey after = Some v -> apiKey before = Some v \/ v ∈ argv)
  /\ (forall v, baseUrl after = Some v -> baseUrl before = Some v \/ v ∈ argv).

(** A judge command that is call-llm: it exits as [main] does before any
    request, and answers [{"result":"done"}] once it calls the API. *)
Definition callLLMProcess (args : list jsstring) (timeout : Z) : Settled CallResult :=
  match main args with
  | Exits code =>
      Resolved {| llm_exitCode := code; llm_stdout := []; llm_stderr := [];
                  llm_durationMs := 10 |}
  | CallsAPI _ =>
      Resolved {| llm_exitCode := 0; llm_stdout := jsq "{'result':'done'}";
                  llm_stderr := []; llm_durationMs := 10 |}
  end.

End CallLLMViews.

(** ** The task queue: [reset_tasks], [reset_error_tasks] and the loop of
    [run_all_tasks]

    The task file is the parsed one, and the file system is taken to work:
    [save_task_file] does not fail. TaskEcho is switched off. *)
Module QueueRun.
Import Judge.
Import TaskQueue.

(** [task.status === status] *)
Definition hasStatus (status : jsstring) (task : value) : bool :=
  match getProp task key_status with
  | Some (JStr s) => streq s status
  | _ => false
  end.

(** [task.status = "pending"; delete task.error_message; delete task.report] *)
Definition clearTask (members : list (jsstring * value))
  : list (jsstring * value) :=
  deleteMember key_report
    (deleteMember key_error_message
       (setMember key_status (JStr status_pending) members)).

(** The task file once the objects of its task array have been changed in
    place. *)
Definition withTasks (taskFile : value) (tasks : list value) : value :=
  match taskFile with
  | JObj members => JObj (setMember key_tasks (JArr tasks) members)
  | _ => taskFile
  end.

(** The loop of a reset over the task array, with the number of tasks reset;
    [selected] tells which tasks are reset. Validation lets only objects
    through, and the loop is not modelled ([None]) on other entries. *)
Fixpoint resetLoop (selected : value -> bool) (tasks : list value)
  : option (list value * nat) :=
  match tasks with
  | [] => Some ([], O)
  | JObj members :: rest =>
      match resetLoop selected rest with
      | Some (rest', resetCount) =>
          if selected (JObj members)
          then Some (JObj (clearTask members) :: rest', S resetCount)
          else Some (JObj members :: rest', resetCount)
      | None => None
      end
  | _ :: _ => None
  end.

Inductive ResetOutcome :=
| ResetAborted (e : ValidationError)
| ResetSaved (taskFile : value) (resetCount : nat).

(** A reset: validation first, then the loop, then the file is saved. *)
Definition resetWith (E : Engine) (selected : value -> bool) (taskFile : value)
  : option ResetOutcome :=
  match validate_config E taskFile with
  | Some e => Some (ResetAborted e)
  | None =>
      match getProp taskFile key_tasks with
      | Some (JArr tasks) =>
          (fun '(tasks', resetCount) =>
             ResetSaved (withTasks taskFile tasks') resetCount)
          <$> resetLoop selected tasks
      | _ => None
      end
  end.

(** [reset_tasks]: every task whose status is not ["pending"] is reset. *)
Definition reset_tasks (E : Engine) (taskFile : value) : option ResetOutcome :=
  resetWith E (fun task => negb (isPending task)) taskFile.

(** [reset_error_tasks]: every task whose status is ["error"] is reset. *)
Definition reset_error_tasks (E : Engine) (taskFile : value) : option ResetOutcome :=
  resetWith E (hasStatus status_error) taskFile.

(** The status [execute_task] returns: ["done"] or ["error"]. *)
Inductive ResultStatus := ResultDone | ResultError.

Definition statusToken (s : ResultStatus) : jsstring :=
  match s with ResultDone => status_done | ResultError => status_error end.

(** What [execute_task] returns to the loop; the error message is a string or
    [null] ([None]). *)
Record ExecutionResult := {
  x_status : ResultStatus;
  x_error_message : option jsstring;
  x_reportPath : option jsstring
}.

(** [{ completed, skipped, errored }] *)
Record Counts := { completed : nat; skipped : nat; errored : nat }.

(** One pass of the loop of [run_all_tasks], on the task at position [i] of
    the array as it is by then: a task that is not pending is skipped; a
    pending one is executed and marked with what [execute_task] returned, or
    with error and the message of the exception it threw. The pass is not
    modelled ([None]) when the position holds no task or the name of the task
    is not a string. *)
Definition runTask (execute : nat -> value -> Settled ExecutionResult)
    (i : nat) (st : list value * Counts) : option (list value * Counts) :=
  let '(tasks, counts) := st in
  match tasks !! i with
  | None => None
  | Some task =>
      if negb (isPending task) then
        Some (tasks, {| completed := completed counts;
                        skipped := S (skipped counts);
                        errored := errored counts |})
      else
        match getProp task key_name with
        | Some (JStr name) =>
            match execute i task with
            | Resolved result =>
                Some (update_task_status tasks name (statusToken (x_status result))
                        (x_error_message result) (x_reportPath result),
                      match x_status result with
                      | ResultError =>
                          {| completed := completed counts;
                             skipped := skipped counts;
                             errored := S (errored counts) |}
                      | ResultDone =>
                          {| completed := S (completed counts);
                             skipped := skipped counts;
                             errored := errored counts |}
                      end)
            | Rejected message =>
                Some (update_task_status tasks name status_error (Some message) None,
                      {| completed := completed counts;
                         skipped := skipped counts;
                         errored := S (errored counts) |})
            end
        | _ => None
        end
  end.

(** The passes over the positions [i], [i + 1], ... *)
Fixpoint runFrom (execute : nat -> value -> Settled ExecutionResult)
    (i count : nat) (st : list value * Counts) : option (list value * Counts) :=
  match count with
  | O => Some st
  | S count' =>
      match runTask execute i st with
      | Some st' => runFrom execute (S i) count' st'
      | None => None
      end
  end.

Inductive RunOutcome :=
| RunAborted (e : ValidationError)
| RunThrew
| RunFinished (taskFile : value) (counts : Counts).

(** [run_all_tasks] to its end: validation, the prompt files, then the loop
    over the tasks. *)
Definition run_all_tasks_loop (E : Engine)
    (execute : nat -> value -> Settled ExecutionResult) (taskFile : value)
  : option RunOutcome :=
  match run_all_tasks E taskFile with
  | Aborted e => Some (RunAborted e)
  | PromptsUnreadable => Some RunThrew
  | Started _ =>
      match getProp taskFile key_tasks with
      | Some (JArr tasks) =>
          (fun '(tasks', counts) => RunFinished (withTasks taskFile tasks') counts)
          <$> runFrom execute 0 (length tasks)
                (tasks, {| completed := 0; skipped := 0; errored := 0 |})
      | _ => None
      end
  end.

End QueueRun.

(** ** Views of the task queue used to state its properties *)
Module QueueViews.
Import Judge.
Import TaskQueue.
Import QueueRun.
Local Open Scope nat_scope.

(** A task that [validate_config] has nothing to say against on its own: a
    truthy name, an id whose trimmed string form has 1 to 255 code units, a
    non-blank string prompt or a spec_file entry, and a spec_file that is a
    string or a non-empty array when it is given. *)
Definition acceptable (E : Engine) (task : value) : Prop :=
  exists name id taskId,
    getProp task key_name = Some name /\ truthyValue name = true
    /\ getProp task key_id = Some id /\ id <> JNull
    /\ normalizedId E id = Some taskId
    /\ 1 <= length taskId <= 255
    /\ (hasPrompt task = true \/ hasSpecFile task = true)
    /\ match getProp task key_spec_file with
       | None | Some JNull | Some (JStr _) | Some (JArr (_ :: _)) => True
       | _ => False
       end.

(** The keys a status update or a reset writes. *)
Definition statusKey (k : jsstring) : Prop :=
  k = key_status \/ k = key_error_message \/ k = key_report.

(** How the loop of [run_all_tasks] marks a task with what [execute_task]
    returned or threw: status, error message and report path. *)
Definition marking (outcome : Settled ExecutionResult)
  : jsstring * option jsstring * option jsstring :=
  match outcome with
  | Resolved result =>
      (statusToken (x_status result), x_error_message result, x_reportPath result)
  | Rejected message => (status_error, Some message, None)
  end.

Definition markedBy (outcome : Settled ExecutionResult)
    (members : list (jsstring * value)) : value :=
  JObj (markTask (marking outcome).1.1 (marking outcome).1.2 (marking outcome).2
          members).

(** The counts after a pending task was executed. *)
Definition counted (outcome : Settled ExecutionResult) (counts : Counts) : Counts :=
  match outcome with
  | Resolved {| x_status := ResultDone |} =>
      {| completed := S (completed counts); skipped := skipped counts;
         errored := errored counts |}
  | _ =>
      {| completed := completed counts; skipped := skipped counts;
         errored := S (errored counts) |}
  end.

(** The task at position [i] once the loop has passed it: a task that was not
    pending is as it was, a pending one is marked with the outcome of its
    execution. *)
Definition passed (execute : nat -> value -> Settled ExecutionResult)
    (i : nat) (t u : value) : Prop :=
  (isPending t = false /\ u = t)
  \/ (isPending t = true
      /\ exists members, t = JObj members /\ u = markedBy (execute i t) members).

(** The state of the loop before the pass on position [i]. *)
Definition loopInv (execute : nat -> value -> Settled ExecutionResult)
    (tasks : list value) (i : nat) (st : list value * Counts) : Prop :=
  length st.1 = length tasks
  /\ (forall j t, i <= j -> tasks !! j = Some t -> st.1 !! j = Some t)
  /\ (forall j t u, j < i -> tasks !! j = Some t -> st.1 !! j = Some u ->
        passed execute j t u)
  /\ completed st.2 + skipped st.2 + errored st.2 = i
  /\ skipped st.2 = length (filter (fun t => isPending t = false) (take i tasks)).

(** A queue of three tasks: one done, one in error, one pending. *)
Definition sampleTasks : list value :=
  [JObj [(key_name, JStr (js "a")); (key_id, JStr (js "1"));
         (key_prompt, JStr (js "do a")); (key_status, JStr status_done)];
   JObj [(key_name, JStr (js "b")); (key_id, JStr (js "2"));
         (key_prompt, JStr (js "do b")); (key_status, JStr status_error);
         (key_error_message, JStr (js "it broke")); (key_report, JStr (js "b.md"))];
   JObj [(key_name, JStr (js "c")); (key_id, JStr (js "3"));
         (key_prompt, JStr (js "do c")); (key_status, JStr status_pending)]].

Definition sampleQueue : value :=
  JObj [(key_prompts, JArr []); (key_tasks, JArr sampleTasks)].

(** An [execute_task] that always reports done, with a report. *)
Definition alwaysDone (i : nat) (task : value) : Settled ExecutionResult :=
  Resolved {| x_status := ResultDone; x_error_message := None;
              x_reportPath := Some (js "report.md") |}.

End QueueViews.
(** * Properties

    ** JavaScript strings *)
Module JsStringFacts.

Lemma startsWith_prefix (s p : jsstring) :
  startsWith s p = true <-> p `prefix_of` s.
Proof.
  revert s. induction p as [|c p IH]; intros s; simpl.
  - split; [intros _; apply prefix_nil | done].
  - destruct s as [|d s].
    + split; [done | intros H; by apply prefix_nil_not in H].
    + rewrite andb_true_iff, N.eqb_eq, IH. split.
      * intros [-> H]. by apply prefix_cons.
      * intros H. split; [by apply prefix_cons_inv_1 in H | by apply prefix_cons_inv_2 in H].
Qed.

Lemma startsWith_app (p k : jsstring) : startsWith (p ++ k) p = true.
Proof. apply startsWith_prefix. by exists k. Qed.

Lemma startsWith_refl (s : jsstring) : startsWith s s = true.
Proof. apply startsWith_prefix. done. Qed.

Lemma startsWith_false (s p : jsstring) :
  startsWith s p = false <-> ~ p `prefix_of` s.
Proof. rewrite <- startsWith_prefix. destruct (startsWith s p); split; congruence. Qed.

Lemma streq_true (a b : jsstring) : streq a b = true <-> a = b.
Proof. unfold streq. apply bool_decide_eq_true. Qed.

Lemma truthy_length (s : jsstring) : truthy s = true <-> (0 < length s)%nat.
Proof. destruct s; simpl; split; intros; try done; lia. Qed.

End JsStringFacts.
Export JsStringFacts.

(** ** The stream filter *)
Module StreamFilterFacts.
Import Framing.

(** *** The diff of one cumulative text *)

Lemma diffAssistant_extends (last text : jsstring) :
  last `prefix_of` text ->
  emitted (diffAssistant last text).1 = drop (length last) text
  /\ (diffAssistant last text).2 = text.
Proof.
  intros [k ->]. unfold diffAssistant, slice.
  rewrite startsWith_app, drop_app_length.
  destruct k as [|c k]; simpl.
  - by rewrite app_nil_r.
  - done.
Qed.

Lemma diffAssistant_same (last : jsstring) :
  diffAssistant last last = (None, last).
Proof.
  unfold diffAssistant, slice.
  by rewrite startsWith_refl, drop_all.
Qed.

Lemma diffAssistant_unrelated (last text : jsstring) :
  ~ last `prefix_of` text ->
  diffAssistant last text = (Some text, text).
Proof.
  intros Hn. unfold diffAssistant.
  apply startsWith_false in Hn as Hs. rewrite Hs.
  destruct (streq text last) eqn:E; [|done].
  apply streq_true in E as ->. by destruct Hn.
Qed.

Lemma last_cons_default {A} (t : A) (rest : list A) (prev : A) :
  List.last (t :: rest) prev = List.last rest t.
Proof.
  revert t prev. induction rest as [|r rest IH]; intros t prev; [reflexivity|].
  change (List.last (r :: rest) prev = List.last (r :: rest) t).
  by rewrite !IH.
Qed.

(** *** The echo filter *)

Lemma stripKnownPrompts_no_match (known : list jsstring) (text : jsstring) :
  (forall q, q ∈ known -> truthy q && startsWith (trim text) (trim q) = false) ->
  stripKnownPrompts known text = text.
Proof.
  induction known as [|q known IH]; intros H; simpl; [done|].
  rewrite (H q) by apply list_elem_of_here.
  apply IH. intros q' Hq'. apply H. by apply list_elem_of_further.
Qed.

Lemma stripKnownPrompts_first_match
    (pre post : list jsstring) (p text : jsstring) :
  truthy p = true ->
  trim text = trim p ->
  (forall q, q ∈ pre -> truthy q && startsWith (trim text) (trim q) = false) ->
  stripKnownPrompts (pre ++ p :: post) text = [].
Proof.
  intros Hp Heq. induction pre as [|q pre IH]; intros H; simpl.
  - rewrite Hp, Heq, startsWith_refl. simpl.
    unfold slice. by rewrite drop_all.
  - rewrite (H q) by apply list_elem_of_here.
    apply IH. intros q' Hq'. apply H. by apply list_elem_of_further.
Qed.

(** The step the loop makes at the first prompt the trimmed text starts with. *)
Lemma stripKnownPrompts_first_prefix
    (pre post : list jsstring) (p text : jsstring) :
  truthy p = true ->
  startsWith (trim text) (trim p) = true ->
  (forall q, q ∈ pre -> truthy q && startsWith (trim text) (trim q) = false) ->
  stripKnownPrompts (pre ++ p :: post) text
  = if truthy (trim (slice (trim text) (length (trim p))))
    then stripKnownPrompts post (trim (slice (trim text) (length (trim p))))
    else [].
Proof.
  intros Hp Hs. induction pre as [|q pre IH]; intros H; simpl.
  - by rewrite Hp, Hs.
  - rewrite (H q) by apply list_elem_of_here.
    apply IH. intros q' Hq'. apply H. by apply list_elem_of_further.
Qed.

Lemma partOf_refl (s : jsstring) : partOf s s.
Proof. exists [], []. by rewrite app_nil_r. Qed.

Lemma partOf_nil (s : jsstring) : partOf [] s.
Proof. by exists [], s. Qed.

Lemma partOf_trans (a b c : jsstring) : partOf a b -> partOf b c -> partOf a c.
Proof.
  intros (l1 & r1 & ->) (l2 & r2 & ->). exists (l2 ++ l1), (r1 ++ r2).
  by rewrite <- !app_assoc.
Qed.

Lemma trimStart_part (s : jsstring) : exists before, s = before ++ trimStart s.
Proof.
  induction s as [|c s [b IH]]; simpl; [by exists []|].
  destruct (isWhiteSpace c); [|by exists []].
  exists (c :: b). simpl. by rewrite <- IH.
Qed.

Lemma trim_part (s : jsstring) : partOf (trim s) s.
Proof.
  unfold trim, trimEnd.
  destruct (trimStart_part s) as [b Hb].
  destruct (trimStart_part (reverse (trimStart s))) as [a Ha].
  exists b, (reverse a).
  rewrite <- reverse_app, <- Ha, reverse_involutive. exact Hb.
Qed.

Lemma slice_part (s : jsstring) (n : nat) : partOf (slice s n) s.
Proof.
  unfold slice. exists (take n s), []. by rewrite app_nil_r, take_drop.
Qed.

(** What the loop leaves is a contiguous part of the text. *)
Lemma stripKnownPrompts_part (known : list jsstring) (text : jsstring) :
  partOf (stripKnownPrompts known text) text.
Proof.
  revert text. induction known as [|q known IH]; intros text; simpl.
  - apply partOf_refl.
  - destruct (truthy q && startsWith (trim text) (trim q)); [|apply IH].
    assert (Hs : partOf (trim (slice (trim text) (length (trim q)))) text).
    { eapply partOf_trans; [apply trim_part|].
      eapply partOf_trans; [apply slice_part | apply trim_part]. }
    destruct (truthy _); [|apply partOf_nil].
    eapply partOf_trans; [apply IH | exact Hs].
Qed.

Lemma filterKnownPrompts_part (known : list jsstring) (text : jsstring) :
  partOf (filterKnownPrompts known text) text.
Proof.
  unfold filterKnownPrompts. destruct (textGuard text).
  - apply stripKnownPrompts_part.
  - apply partOf_refl.
Qed.

Lemma diffStage_spec (st : State) (text : jsstring) :
  textGuard text = true ->
  diffStage st text =
    ({| lastUserOutput := lastUserOutput st;
        lastAssistantOutput := (diffAssistant (lastAssistantOutput st) text).2;
        sessionId := sessionId st;
        knownUserPrompts := knownUserPrompts st |},
     match (diffAssistant (lastAssistantOutput st) text).1 with
     | Some f => [ShowAssistant f]
     | None => []
     end).
Proof.
  intros H. unfold diffStage. rewrite H.
  by destruct (diffAssistant (lastAssistantOutput st) text).
Qed.

(** Texts that fail the guard (the empty string and the literal ["null"]) never
    reach the diff: nothing is shown and the record stays. *)
Lemma diffStage_guarded (st : State) (text : jsstring) :
  text = [] \/ text = str_null -> diffStage st text = (st, []).
Proof. by intros [-> | ->]. Qed.

Lemma textGuard_false (text : jsstring) :
  textGuard text = false <-> text = [] \/ text = str_null.
Proof.
  unfold textGuard. split.
  - destruct text as [|c text]; [by left|]. simpl.
    rewrite andb_true_r. intros H. apply negb_false_iff in H.
    apply streq_true in H. by right.
  - by intros [-> | ->].
Qed.

(** The guarded diff of a text that extends the record. *)
Lemma diffStage_extends (st : State) (text : jsstring) :
  textGuard text = true ->
  lastAssistantOutput st `prefix_of` text ->
  (diffStage st text).2
  = match drop (length (lastAssistantOutput st)) text with
    | [] => []
    | c :: f => [ShowAssistant (c :: f)]
    end
  /\ lastAssistantOutput (diffStage st text).1 = text
  /\ lastUserOutput (diffStage st text).1 = lastUserOutput st
  /\ sessionId (diffStage st text).1 = sessionId st
  /\ knownUserPrompts (diffStage st text).1 = knownUserPrompts st.
Proof.
  intros G [k Hk]. rewrite (diffStage_spec st text G).
  unfold diffAssistant, slice. rewrite Hk, startsWith_app, drop_app_length.
  destruct k as [|c k]; simpl; [|done].
  by rewrite app_nil_r.
Qed.

(** The guarded diff of the record itself. *)
Lemma diffStage_same (st : State) : diffStage st (lastAssistantOutput st) = (st, []).
Proof.
  unfold diffStage. destruct (textGuard (lastAssistantOutput st)); [|done].
  rewrite diffAssistant_same. by destruct st.
Qed.

(** The guarded diff of a text that does not start with the record. *)
Lemma diffStage_unrelated (st : State) (text : jsstring) :
  textGuard text = true ->
  ~ lastAssistantOutput st `prefix_of` text ->
  (diffStage st text).2 = [ShowAssistant text]
  /\ lastAssistantOutput (diffStage st text).1 = text
  /\ lastUserOutput (diffStage st text).1 = lastUserOutput st
  /\ sessionId (diffStage st text).1 = sessionId st
  /\ knownUserPrompts (diffStage st text).1 = knownUserPrompts st.
Proof.
  intros G Hn. rewrite (diffStage_spec st text G).
  by rewrite (diffAssistant_unrelated _ _ Hn).
Qed.

Lemma shownAssistant_app (a b : list Output) :
  shownAssistant (a ++ b) = shownAssistant a ++ shownAssistant b.
Proof. apply omap_app. Qed.

(** A chain of texts that each extend the one before, handed to the handler
    whose record the first text extends: the fragments shown make up what the
    record gains, and the record ends as the last text of the chain that passes
    the guard. *)
Lemma diffAll_extending (texts : list jsstring) (st : State) (prev : jsstring) :
  lastAssistantOutput st `prefix_of` prev ->
  extending prev texts ->
  lastAssistantOutput st ++ concat (shownAssistant (diffAll st texts).2)
  = lastAssistantOutput (diffAll st texts).1
  /\ lastAssistantOutput (diffAll st texts).1
     = List.last (filter (fun t => textGuard t = true) texts) (lastAssistantOutput st)
  /\ lastAssistantOutput (diffAll st texts).1 `prefix_of` List.last texts prev
  /\ (texts <> [] -> textGuard (List.last texts prev) = true ->
      lastAssistantOutput (diffAll st texts).1 = List.last texts prev).
Proof.
  revert st prev. induction texts as [|t rest IH]; intros st prev Hp Hx.
  - simpl. rewrite app_nil_r. done.
  - destruct Hx as [Hpt Hrest].
    assert (Hst : lastAssistantOutput st `prefix_of` t) by (by etrans).
    rewrite last_cons_default. cbn [diffAll].
    destruct (textGuard t) eqn:G.
    + destruct (diffStage_extends st t G Hst) as (Ho & Hl & _).
      destruct (diffStage st t) as [st1 o1]. cbn [fst snd] in Ho, Hl.
      assert (Hp1 : lastAssistantOutput st1 `prefix_of` t) by (by rewrite Hl).
      destruct (IH st1 t Hp1 Hrest) as (I1 & I2 & I3 & I4).
      assert (Hnil : rest = [] -> lastAssistantOutput (diffAll st1 rest).1 = t)
        by (by intros ->).
      destruct (diffAll st1 rest) as [st2 o2]. cbn [fst snd] in *.
      rewrite filter_cons_True by done. rewrite last_cons_default.
      rewrite Hl in I2.
      split; [|split; [done|split; [done|]]].
      * rewrite shownAssistant_app, concat_app, app_assoc, <- I1, Hl. f_equal.
        rewrite Ho. destruct Hst as [k ->]. rewrite drop_app_length.
        destruct k; simpl; by rewrite ?app_nil_r.
      * intros _ Hg. destruct rest as [|r rest]; [by apply Hnil|].
        by apply I4.
    + assert (Hd : diffStage st t = (st, [])) by (unfold diffStage; by rewrite G).
      rewrite Hd. destruct (IH st t Hst Hrest) as (I1 & I2 & I3 & I4).
      destruct (diffAll st rest) as [st2 o2]. cbn [fst snd] in *.
      rewrite filter_cons_False by (by rewrite G).
      split; [done|]. split; [done|]. split; [done|].
      intros _ Hg. destruct rest as [|r rest]; [simpl in Hg; congruence|].
      by apply I4.
Qed.

(** *** Callbacks *)

Lemma textCallbacks_app (a b : list Output) :
  textCallbacks (a ++ b) = textCallbacks a ++ textCallbacks b.
Proof. apply omap_app. Qed.

Lemma stepSessionId_no_text (cur e : option jsstring) :
  textCallbacks (stepSessionId cur e).2 = [].
Proof.
  unfold stepSessionId. destruct e as [e|]; [|done].
  by destruct (truthy e && _).
Qed.

Lemma handleObject_no_text (st : State) (d : Decoded) :
  textCallbacks (handleObject st d).2 = [].
Proof.
  unfold handleObject.
  pose proof (stepSessionId_no_text (sessionId st) (d_sessionId d)) as H1.
  destruct (stepSessionId (sessionId st) (d_sessionId d)) as [sid o1].
  simpl in H1.
  match goal with |- context [userStage ?s ?u] =>
    assert (H2 : textCallbacks (userStage s u).2 = []);
    [| destruct (userStage s u) as [st2 o2] ] end.
  { unfold userStage. destruct (d_userText d) as [u|]; [|done].
    destruct (textGuard u); [|done].
    destruct (diffUser _ u) as [[f|] l]; done. }
  match goal with |- context [assistantStage ?s ?u] =>
    assert (H3 : textCallbacks (assistantStage s u).2 = []);
    [| destruct (assistantStage s u) as [st3 o3] ] end.
  { unfold assistantStage, diffStage. destruct (textGuard _); [|done].
    destruct (diffAssistant _ _) as [[f|] l]; done. }
  simpl in *. by rewrite !textCallbacks_app, H1, H2, H3.
Qed.

Lemma feed_no_text (st : State) (ds : list Decoded) :
  textCallbacks (feed st ds).2 = [].
Proof.
  revert st. induction ds as [|d ds IH]; intros st; simpl; [done|].
  pose proof (handleObject_no_text st d) as H1.
  destruct (handleObject st d) as [st1 o1].
  pose proof (IH st1) as H2.
  destruct (feed st1 ds) as [st2 o2]. simpl in *.
  by rewrite textCallbacks_app, H1, H2.
Qed.

Lemma feedResidual_no_text (sid : option jsstring) (ds : list Decoded) :
  textCallbacks (feedResidual sid ds).2 = [].
Proof.
  revert sid. induction ds as [|d ds IH]; intros sid; simpl; [done|].
  unfold handleResidual.
  pose proof (stepSessionId_no_text sid (d_sessionId d)) as H1.
  destruct (stepSessionId sid (d_sessionId d)) as [sid1 o1].
  pose proof (IH sid1) as H2.
  destruct (feedResidual sid1 ds) as [sid2 o2]. simpl in *.
  rewrite !textCallbacks_app, H1, H2.
  by destruct (textGuard _).
Qed.

Lemma finish_text (st : State) (residual : list Decoded) :
  textCallbacks (finish st residual)
  = if truthy (lastAssistantOutput st) then [lastAssistantOutput st] else [].
Proof.
  unfold finish.
  pose proof (feedResidual_no_text (sessionId st) residual) as H.
  destruct (feedResidual (sessionId st) residual) as [sid o]. simpl in H.
  rewrite !textCallbacks_app, H. simpl.
  destruct (truthy (lastAssistantOutput st)); simpl;
    destruct sid as [s|]; try destruct (truthy s); done.
Qed.

Lemma collectText_last (outs : list Output) :
  collectText outs = List.last (textCallbacks outs) [].
Proof.
  unfold collectText. generalize (@nil N) as acc.
  induction outs as [|o outs IH]; intros acc; simpl; [done|].
  rewrite IH. destruct o; try done.
  symmetry. apply last_cons_default.
Qed.

Lemma assistantStage_empty (st : State) : assistantStage st [] = (st, []).
Proof. done. Qed.

Lemma userStage_keeps_assistant (st : State) (u : option jsstring) :
  lastAssistantOutput (userStage st u).1 = lastAssistantOutput st.
Proof.
  unfold userStage. destruct u as [u|]; [|done].
  destruct (textGuard u); [|done]. by destruct (diffUser _ u).
Qed.

Lemma feed_no_assistant_text (st : State) (ds : list Decoded) :
  (forall d, d ∈ ds -> d_assistantText d = []) ->
  lastAssistantOutput (feed st ds).1 = lastAssistantOutput st.
Proof.
  revert st. induction ds as [|d ds IH]; intros st H; simpl; [done|].
  assert (Hd : lastAssistantOutput (handleObject st d).1 = lastAssistantOutput st).
  { unfold handleObject.
    destruct (stepSessionId (sessionId st) (d_sessionId d)) as [sid o1].
    match goal with |- context [userStage ?s ?u] =>
      pose proof (userStage_keeps_assistant s u) as Hu;
      destruct (userStage s u) as [st2 o2] end.
    rewrite (H d) by apply list_elem_of_here.
    by rewrite assistantStage_empty. }
  destruct (handleObject st d) as [st1 o1].
  assert (Hr := IH st1 (fun d' Hd' => H d' (list_elem_of_further _ _ _ Hd'))).
  destruct (feed st1 ds) as [st2 o2]. simpl in *. congruence.
Qed.

(** The record after one object is the old record or the filtered text of that
    object: it is always one cumulative text, never a concatenation. *)
Lemma handleObject_record (st : State) (d : Decoded) :
  lastAssistantOutput (handleObject st d).1 = lastAssistantOutput st
  \/ lastAssistantOutput (handleObject st d).1
     = filterKnownPrompts (knownUserPrompts (handleObject st d).1) (d_assistantText d).
Proof.
  unfold handleObject.
  destruct (stepSessionId (sessionId st) (d_sessionId d)) as [sid o1].
  match goal with |- context [userStage ?s ?u] =>
    pose proof (userStage_keeps_assistant s u) as Hu;
    destruct (userStage s u) as [st2 o2] end.
  simpl in Hu. unfold assistantStage, diffStage.
  destruct (textGuard _); [|by left].
  set (t := filterKnownPrompts _ _).
  unfold diffAssistant.
  destruct (startsWith t _).
  - destruct (0 <? _)%nat; simpl; [by right | by left].
  - destruct (negb _); simpl; [by right | by left].
Qed.

(** *** From chunks to objects *)

Lemma feed_app (st : State) (a b : list Decoded) :
  feed st (a ++ b)
  = ((feed (feed st a).1 b).1, (feed st a).2 ++ (feed (feed st a).1 b).2).
Proof.
  revert st. induction a as [|d a IH]; intros st; simpl.
  - by destruct (feed st b).
  - destruct (handleObject st d) as [st1 o1]. rewrite IH.
    destruct (feed st1 a) as [st2 o2]. simpl.
    destruct (feed st2 b) as [st3 o3]. simpl. by rewrite app_assoc.
Qed.

(** The data handler, chunk after chunk, is the object handler over the
    objects of the complete lines. *)
Lemma onChunks_feed (f : LineFilter) (chunks : list jsstring) :
  onChunks f chunks
  = ({| f_state :=
          (feed (f_state f)
             (omap decodeLine (completeLines (f_rawBuffer f) chunks))).1;
        f_rawBuffer := lastBuffer (f_rawBuffer f) chunks |},
     (feed (f_state f)
        (omap decodeLine (completeLines (f_rawBuffer f) chunks))).2).
Proof.
  revert f. induction chunks as [|chunk rest IH]; intros f.
  - by destruct f.
  - cbn [onChunks completeLines lastBuffer]. unfold onData.
    destruct (takeLines (f_rawBuffer f) chunk) as [lines buf].
    cbn [fst snd]. rewrite omap_app, feed_app.
    destruct (feed (f_state f) (omap decodeLine lines)) as [st1 o1].
    rewrite IH. cbn [fst snd f_state f_rawBuffer].
    by destruct (feed st1 (omap decodeLine (completeLines buf rest))).
Qed.

Lemma pipeThroughAssistantFilter_run (chunks : list jsstring) :
  pipeThroughAssistantFilter chunks
  = run (omap decodeLine (completeLines [] chunks))
        (residualObjects (lastBuffer [] chunks)).
Proof.
  unfold pipeThroughAssistantFilter, run, onEnd.
  rewrite onChunks_feed. simpl.
  by destruct (feed init _).
Qed.

(** The record of the filter once the chunks are handled. *)
Definition recorded (chunks : list jsstring) : jsstring :=
  lastAssistantOutput (f_state (onChunks newFilter chunks).1).

Lemma recorded_feed (chunks : list jsstring) :
  recorded chunks
  = lastAssistantOutput
      (feed init (omap decodeLine (completeLines [] chunks))).1.
Proof. unfold recorded. by rewrite onChunks_feed. Qed.

Lemma run_delivers_record (ds residual : list Decoded) :
  textCallbacks (run ds residual)
  = (if truthy (lastAssistantOutput (feed init ds).1)
     then [lastAssistantOutput (feed init ds).1] else [])
  /\ collectText (run ds residual) = lastAssistantOutput (feed init ds).1.
Proof.
  assert (H1 : textCallbacks (run ds residual)
    = (if truthy (lastAssistantOutput (feed init ds).1)
       then [lastAssistantOutput (feed init ds).1] else [])).
  { unfold run. pose proof (feed_no_text init ds) as Hf.
    destruct (feed init ds) as [st o]. simpl in *.
    by rewrite textCallbacks_app, Hf, finish_text. }
  split; [exact H1|].
  rewrite collectText_last, H1.
  by destruct (lastAssistantOutput (feed init ds).1).
Qed.

(** *** Diff, echo filter and end of stream *)

(** Four lines that carry the assistant texts ["n"], ["nu"], ["nul"] and
    ["null"]. *)
Definition spelledNull : list jsstring :=
  [ jsq "{'type':'assistant','message':{'role':'assistant','content':[{'type':'text','text':'n'}]}}"
    ++ [10];
    jsq "{'type':'assistant','message':{'role':'assistant','content':[{'type':'text','text':'nu'}]}}"
    ++ [10];
    jsq "{'type':'assistant','message':{'role':'assistant','content':[{'type':'text','text':'nul'}]}}"
    ++ [10];
    jsq "{'type':'assistant','message':{'role':'assistant','content':[{'type':'text','text':'null'}]}}"
    ++ [10] ].

(** The state of the filter whose record is ["nul"]. *)
Definition recorded_nul : State :=
  {| lastUserOutput := []; lastAssistantOutput := js "nul"; sessionId := None;
     knownUserPrompts := [] |}.

(** C1, as stated, fails. The texts ["n"], ["nu"], ["nul"], ["null"] each extend
    the one before, yet the handler withholds the literal ["null"] from the
    diff: with the record at ["nul"] it emits nothing for ["null"] and keeps the
    record, where the claim has the suffix ["l"] emitted and the record
    replaced. The fragments shown for the chain concatenate to ["nul"], not to
    its last text, and ["nul"] is what the filter run over the stream delivers at
    the end. *)
Lemma assistant_diff_counterexample :
  extending [] [js "n"; js "nu"; js "nul"; js "null"]
  /\ (lastAssistantOutput recorded_nul `prefix_of` js "null"
      /\ diffStage recorded_nul (js "null") = (recorded_nul, []))
  /\ (concat (shownAssistant (diffAll init [js "n"; js "nu"; js "nul"; js "null"]).2)
      = js "nul"
      /\ List.last [js "n"; js "nu"; js "nul"; js "null"] [] = js "null")
  /\ pipeThroughAssistantFilter spelledNull
     = [ShowAssistant (js "n"); ShowAssistant (js "u"); ShowAssistant (js "l");
        OnText (js "nul"); OnEnd].
Proof.
  split; [|split; [|split]].
  - simpl. repeat split.
    + apply prefix_nil.
    + by exists (js "u").
    + by exists (js "l").
    + by exists (js "l").
  - split; [by exists (js "l") | reflexivity].
  - split; reflexivity.
  - vm_compute. reflexivity.
Qed.

(** C1, as amended. The handler withholds from the diff a text that is empty or
    the literal ["null"]: nothing is emitted and the state is unchanged. On
    every other text: when the text extends the record, the suffix beyond the
    record is what is emitted (nothing when the suffix is empty) and the text
    becomes the record; when the text does not start with the record, it is
    emitted whole and becomes the record; nothing else of the state changes.
    The record itself, fed again, emits nothing and changes nothing. Hence for
    texts that each extend the one before, fed from the initial state, the
    fragments emitted concatenate to the final record, which is the last text of
    the chain that is neither empty nor ["null"]; this is the last text of the
    chain unless that text is ["null"]; and feeding the last text again emits
    nothing. *)
Theorem assistant_diff_delta (st : State) (text : jsstring) (texts : list jsstring) :
  (textGuard text = false <-> text = [] \/ text = str_null)
  /\ (textGuard text = false -> diffStage st text = (st, []))
  /\ (textGuard text = true ->
      lastAssistantOutput st `prefix_of` text ->
      (diffStage st text).2
      = match drop (length (lastAssistantOutput st)) text with
        | [] => []
        | c :: f => [ShowAssistant (c :: f)]
        end
      /\ lastAssistantOutput (diffStage st text).1 = text
      /\ lastUserOutput (diffStage st text).1 = lastUserOutput st
      /\ sessionId (diffStage st text).1 = sessionId st
      /\ knownUserPrompts (diffStage st text).1 = knownUserPrompts st)
  /\ diffStage st (lastAssistantOutput st) = (st, [])
  /\ (textGuard text = true ->
      ~ lastAssistantOutput st `prefix_of` text ->
      (diffStage st text).2 = [ShowAssistant text]
      /\ lastAssistantOutput (diffStage st text).1 = text
      /\ lastUserOutput (diffStage st text).1 = lastUserOutput st
      /\ sessionId (diffStage st text).1 = sessionId st
      /\ knownUserPrompts (diffStage st text).1 = knownUserPrompts st)
  /\ (extending [] texts ->
      concat (shownAssistant (diffAll init texts).2)
      = lastAssistantOutput (diffAll init texts).1
      /\ lastAssistantOutput (diffAll init texts).1
         = List.last (filter (fun t => textGuard t = true) texts) []
      /\ (List.last texts [] <> str_null ->
          concat (shownAssistant (diffAll init texts).2) = List.last texts [])
      /\ (diffStage (diffAll init texts).1 (List.last texts [])).2 = []).
Proof.
  split; [apply textGuard_false|].
  split; [intros G; unfold diffStage; by rewrite G|].
  split; [apply diffStage_extends|].
  split; [apply diffStage_same|].
  split; [apply diffStage_unrelated|].
  intros H.
  destruct (diffAll_extending texts init [] (prefix_nil _) H) as (H1 & H2 & H3 & H4).
  simpl in H1, H2.
  assert (Hlast : List.last texts [] <> str_null ->
                  lastAssistantOutput (diffAll init texts).1 = List.last texts []).
  { intros Hn. destruct texts as [|t rest]; [done|].
    destruct (textGuard (List.last (t :: rest) [])) eqn:G.
    - by apply H4.
    - apply textGuard_false in G as [G | G]; [|done].
      rewrite G in H3. rewrite G. by apply prefix_nil_inv in H3. }
  split; [exact H1|]. split; [exact H2|].
  split; [intros Hn; by rewrite H1, Hlast|].
  destruct (textGuard (List.last texts [])) eqn:G.
  - destruct texts as [|t rest]; [done|].
    assert (Hr : lastAssistantOutput (diffAll init (t :: rest)).1
                 = List.last (t :: rest) []) by (by apply H4).
    rewrite <- Hr. by rewrite diffStage_same.
  - unfold diffStage. by rewrite G.
Qed.

Lemma assistant_diff_delta_witness :
  (diffStage recorded_nul (js "nullify")).2 = [ShowAssistant (js "lify")]
  /\ (diffStage recorded_nul (js "abcd")).2 = [ShowAssistant (js "abcd")]
  /\ concat (shownAssistant (diffAll init [js "a"; js "ab"; js "abcd"]).2)
     = js "abcd".
Proof.
  destruct (assistant_diff_delta recorded_nul (js "nullify")
              [js "a"; js "ab"; js "abcd"]) as (_ & _ & H3 & _ & _ & H6).
  destruct (assistant_diff_delta recorded_nul (js "abcd") [])
    as (_ & _ & _ & _ & H5 & _).
  split; [|split].
  - apply H3; [reflexivity | by exists (js "lify")].
  - apply H5; [reflexivity|]. intros [k Hk]. discriminate Hk.
  - apply H6; [|discriminate].
    simpl. repeat split.
    + apply prefix_nil.
    + by exists (js "b").
    + by exists (js "cd").
Defined.

(** In the handler the diff runs only on texts that pass the guard. *)
Lemma assistantStage_runs_diff (st : State) (text : jsstring) :
  textGuard (filterKnownPrompts (knownUserPrompts st) text) = true ->
  lastAssistantOutput (assistantStage st text).1
  = (diffAssistant (lastAssistantOutput st)
       (filterKnownPrompts (knownUserPrompts st) text)).2.
Proof. intros H. unfold assistantStage. by rewrite diffStage_spec. Qed.

(** An object that carries the user text [u] and nothing else. *)
Definition userSays (u : jsstring) : Decoded :=
  {| d_sessionId := None; d_userText := Some u; d_assistantText := [] |}.

(** The state after the user prompt ["ab"] was seen. *)
Definition seen_ab : State :=
  {| lastUserOutput := js "ab"; lastAssistantOutput := []; sessionId := None;
     knownUserPrompts := [js "ab"] |}.

(** The state after the user prompt was seen growing from ["ab"] to ["abc"]. *)
Definition seen_ab_abc : State :=
  {| lastUserOutput := js "abc"; lastAssistantOutput := []; sessionId := None;
     knownUserPrompts := [js "ab"; js "abc"] |}.

(** A stream of two lines: the user prompt ["ab"], then the assistant text
    ["abcd"]. *)
Definition promptThenAnswer : list jsstring :=
  [ jsq "{'type':'user','message':{'role':'user','content':[{'type':'text','text':'ab'}]}}"
    ++ [10];
    jsq "{'type':'assistant','message':{'role':'assistant','content':[{'type':'text','text':'abcd'}]}}"
    ++ [10] ].




(** Two prompts removed in turn: with ["ab"] and ["abc"] seen, the text
    ["ababcx"] is diffed as ["x"]. *)
Example echo_filter_strips_in_turn :
  filterKnownPrompts (knownUserPrompts seen_ab_abc) (js "ababcx") = js "x"
  /\ (assistantStage seen_ab_abc (js "ababcx")).2 = [ShowAssistant (js "x")].
Proof. split; reflexivity. Qed.

(** C10. At stream end the text callback receives the recorded cumulative
    assistant text, once, when that record is non-empty, so the caller's
    transcript is that record; when every object of the stream yields the empty
    assistant text, the text callback is never invoked and the caller's
    transcript stays empty. *)
Theorem end_delivers_last_record (chunks : list jsstring) :
  textCallbacks (pipeThroughAssistantFilter chunks)
  = (if truthy (recorded chunks) then [recorded chunks] else [])
  /\ collectText (pipeThroughAssistantFilter chunks) = recorded chunks
  /\ ((forall line d,
         line ∈ completeLines [] chunks -> decodeLine line = Some d ->
         d_assistantText d = []) ->
      textCallbacks (pipeThroughAssistantFilter chunks) = []
      /\ collectText (pipeThroughAssistantFilter chunks) = []).
Proof.
  rewrite pipeThroughAssistantFilter_run, recorded_feed.
  set (ds := omap decodeLine (completeLines [] chunks)).
  set (residual := residualObjects (lastBuffer [] chunks)).
  destruct (run_delivers_record ds residual) as (H1 & H2).
  split; [exact H1|]. split; [exact H2|].
  intros Hempty. rewrite H2, H1.
  rewrite (feed_no_assistant_text init ds); [done|].
  intros d Hd. apply list_elem_of_omap in Hd as (line & Hl & Hd).
  by apply (Hempty line d).
Qed.

(** Two lines that carry a session id and a user text, and no assistant text. *)
Definition session_only : list jsstring :=
  [ jsq "{'session_id':'s1'}" ++ [10];
    jsq "{'type':'user','content':'hi','session_id':'s1'}" ++ [10] ].

Lemma end_delivers_last_record_witness :
  textCallbacks (pipeThroughAssistantFilter session_only) = []
  /\ collectText (pipeThroughAssistantFilter session_only) = [].
Proof.
  apply (end_delivers_last_record session_only).
  intros line d Hl Hd.
  assert (Hc : completeLines [] session_only
               = [jsq "{'session_id':'s1'}";
                  jsq "{'type':'user','content':'hi','session_id':'s1'}"])
    by (vm_compute; reflexivity).
  rewrite Hc in Hl.
  apply elem_of_cons in Hl as [-> | Hl];
    [| apply list_elem_of_singleton in Hl as ->];
    vm_compute in Hd; injection Hd as <-; reflexivity.
Defined.

(** A restarted message: the fragments shown are ["abc"] and ["xy"], the text
    delivered at the end is the record ["xy"], not their concatenation. *)
Example delivered_is_not_concatenation :
  let ds := [ {| d_sessionId := None; d_userText := None; d_assistantText := js "abc" |};
              {| d_sessionId := None; d_userText := None; d_assistantText := js "xy" |} ] in
  run ds [] = [ShowAssistant (js "abc"); ShowAssistant (js "xy"); OnText (js "xy"); OnEnd].
Proof. reflexivity. Qed.

End StreamFilterFacts.
(** ** [JSON.parse] on sample texts *)
Module JsonFacts.

Example parse_empty : JSON_parse [] = None.
Proof. reflexivity. Qed.

Example parse_blank : JSON_parse (js "  ") = None.
Proof. reflexivity. Qed.

(** [{"result":"done","reasons":["ok",1.5e2,null],"result":"auto"}] *)
Example parse_object :
  JSON_parse ([123; 34] ++ js "result" ++ [34; 58; 34] ++ js "done" ++ [34; 44; 34]
              ++ js "reasons" ++ [34] ++ js ":[" ++ [34] ++ js "ok" ++ [34]
              ++ js ", 1.5e2 ,null],  " ++ [34] ++ js "result" ++ [34; 58; 34]
              ++ js "auto" ++ [34] ++ js " } ")
  = Some (JObj [(js "result", JStr (js "auto"));
                (js "reasons",
                 JArr [JStr (js "ok");
                       JNum {| neg := false; mant := 15; exp10 := 1 |};
                       JNull])]).
Proof. vm_compute. reflexivity. Qed.

Example parse_nested : JSON_parse (js "[[[],[true]],{},-0.0]")
  = Some (JArr [JArr [JArr []; JArr [JBool true]]; JObj [];
                JNum {| neg := true; mant := 0; exp10 := -1 |}]).
Proof. vm_compute. reflexivity. Qed.

Example parse_rejects :
  JSON_parse (js "01") = None /\ JSON_parse (js "[1,]") = None
  /\ JSON_parse (js "1.") = None /\ JSON_parse (js "{a:1}") = None
  /\ JSON_parse (js "[1] x") = None /\ JSON_parse (js "nul") = None.
Proof. vm_compute. repeat split. Qed.

End JsonFacts.

(** ** Framing on sample streams *)
Module FramingFacts.
Import Framing.

(** The user event, the assistant event and an event frame of the agent's
    stream. *)
Definition userLine : jsstring :=
  jsq "{'type':'user','message':{'role':'user','content':[{'type':'text','text':'do it'}]},'session_id':'s-1'}".

Definition assistantLine : jsstring :=
  jsq "{'type':'assistant','message':{'role':'assistant','content':[{'type':'text','text':'Hel'}]},'session_id':'s-1'}".

Definition frameLine : jsstring :=
  jsq "data: {'type':'assistant','message':{'role':'assistant','content':[{'type':'text','text':'Hello'}]}}".

Example decode_user :
  decodeLine userLine
  = Some {| d_sessionId := Some (js "s-1"); d_userText := Some (js "do it");
            d_assistantText := [] |}.
Proof. vm_compute. reflexivity. Qed.

Example decode_assistant :
  decodeLine assistantLine
  = Some {| d_sessionId := Some (js "s-1"); d_userText := None;
            d_assistantText := js "Hel" |}.
Proof. vm_compute. reflexivity. Qed.

Example decode_frame :
  decodeLine frameLine
  = Some {| d_sessionId := None; d_userText := None;
            d_assistantText := js "Hello" |}.
Proof. vm_compute. reflexivity. Qed.

(** Lines that are blank, are no JSON or do not parse are skipped. *)
Example decode_skips :
  decodeLine (js "   ") = None
  /\ decodeLine (js "starting agent") = None
  /\ decodeLine (js "data: [DONE") = None
  /\ decodeLine (js "{broken") = None.
Proof. vm_compute. repeat split. Qed.

(** A text found in several places of one object is taken once. *)
Example extract_once :
  extractAssistantText
    <$> JSON_parse
          (jsq "{'type':'token','content':'a','text':'a','token':'b','choices':[{'delta':{'content':'c'}},3,null]}")
  = Some (js "acb").
Proof. vm_compute. reflexivity. Qed.

(** An object that says it comes from the user yields no assistant text. *)
Example extract_not_from_user :
  extractAssistantText
    <$> JSON_parse (jsq "{'message':{'role':'user','content':'hi'},'text':'hi'}")
  = Some [].
Proof. vm_compute. reflexivity. Qed.

(** A line cut by the chunk boundary is handled once it is complete. *)
Example stream_in_two_chunks :
  pipeThroughAssistantFilter
    [userLine ++ [10] ++ take 30 assistantLine;
     drop 30 assistantLine ++ [13; 10] ++ frameLine ++ [10]]
  = [OnSessionId (js "s-1"); ShowUser (js "do it"); ShowAssistant (js "Hel");
     ShowAssistant (js "lo"); OnText (js "Hello"); OnSessionId (js "s-1"); OnEnd].
Proof. vm_compute. reflexivity. Qed.

(** A last line without a line break is printed at the end of the stream, but
    it is not recorded: the text delivered is the one recorded before. *)
Example stream_with_partial_last_line :
  pipeThroughAssistantFilter
    [userLine ++ [10] ++ assistantLine ++ [10] ++ frameLine]
  = [OnSessionId (js "s-1"); ShowUser (js "do it"); ShowAssistant (js "Hel");
     ShowResidual (js "Hello"); OnText (js "Hel"); OnSessionId (js "s-1"); OnEnd].
Proof. vm_compute. reflexivity. Qed.

End FramingFacts.

(** ** The semantic judge *)
Module JudgeFacts.
Import Judge.

Lemma parseFailure_notes (message : jsstring) :
  result (parseFailure message) = Resume /\ notesFailure (parseFailure message).
Proof.
  split; [done|]. exists (str_parse_failed ++ message), [].
  split; [done|]. left. by exists message.
Qed.

Lemma parseLLMResult_unusable (E : Engine) (stdout : jsstring) :
  responseUnusable stdout ->
  exists message, parseLLMResult E stdout = parseFailure message.
Proof.
  unfold parseLLMResult. intros [H | [H | (json & H & Hv)]].
  - rewrite H. by eexists.
  - rewrite H. by eexists.
  - rewrite H, Hv.
    destruct (displayProp E (getProp json str_result)); destruct json; by eexists.
Qed.

Lemma reasonsLoggingThrows_parseFailure (E : Engine) (message : jsstring) :
  reasonsLoggingThrows E (reasons (parseFailure message)) = None.
Proof. done. Qed.

Lemma interpretOutcome_call_failed (E : Engine) (outcome : Settled CallResult) :
  callFailed outcome ->
  result (interpretOutcome E outcome) = Resume
  /\ notesFailure (interpretOutcome E outcome).
Proof.
  destruct outcome as [r | message]; simpl.
  - intros H.
    assert (G : negb (llm_exitCode r =? 0)%Z || truthy (llm_stderr r) = true).
    { destruct H as [H | H].
      - apply Z.eqb_neq in H. by rewrite H.
      - destruct (llm_stderr r); [done|]. apply orb_true_r. }
    rewrite G. split; [done|].
    eexists _, _. split; [reflexivity|]. right. by left.
  - intros _. split; [done|].
    eexists _, _. split; [reflexivity|]. right. right. by exists message.
Qed.

Lemma interpretOutcome_unusable (E : Engine) (r : CallResult) :
  responseUnusable (llm_stdout r) ->
  result (interpretOutcome E (Resolved r)) = Resume
  /\ notesFailure (interpretOutcome E (Resolved r)).
Proof.
  intros H. simpl.
  destruct (negb (llm_exitCode r =? 0)%Z || truthy (llm_stderr r)) eqn:G.
  - split; [done|]. eexists _, _. split; [reflexivity|]. right. by left.
  - destruct (parseLLMResult_unusable E _ H) as [message ->].
    rewrite reasonsLoggingThrows_parseFailure. apply parseFailure_notes.
Qed.

(** C4. When the call to the judge fails (it rejects on a timeout or a spawn
    error, exits non-zero, or writes to its error stream), or its response is
    empty, is not well-formed JSON, or carries a result other than done, resume
    and auto, the semantic judgement is resume, never done, and its first reason
    notes the failure; so does [parseLLMResult] on such a response. *)
Theorem judge_fails_closed
    (E : Engine) (judgePrompt : jsstring)
    (runCallLLMOnce : list jsstring -> Z -> Settled CallResult)
    (judgeModel executionSummary : jsstring) :
  (callFailed (runCallLLMOnce (judgeArgs judgePrompt judgeModel executionSummary) 60%Z)
   \/ (exists r,
         runCallLLMOnce (judgeArgs judgePrompt judgeModel executionSummary) 60%Z
         = Resolved r
         /\ responseUnusable (llm_stdout r)) ->
   result (interpretSemanticsViaLLM E judgePrompt runCallLLMOnce
             judgeModel executionSummary) = Resume
   /\ result (interpretSemanticsViaLLM E judgePrompt runCallLLMOnce
               judgeModel executionSummary) <> Done
   /\ notesFailure (interpretSemanticsViaLLM E judgePrompt runCallLLMOnce
                      judgeModel executionSummary))
  /\ (forall stdout,
        responseUnusable stdout ->
        result (parseLLMResult E stdout) = Resume
        /\ notesFailure (parseLLMResult E stdout)).
Proof.
  split.
  - unfold interpretSemanticsViaLLM. intros [H | (r & Hr & H)].
    + destruct (interpretOutcome_call_failed E _ H) as [H1 H2].
      rewrite H1. done.
    + rewrite Hr. destruct (interpretOutcome_unusable E r H) as [H1 H2].
      rewrite H1. done.
  - intros stdout H. destruct (parseLLMResult_unusable E _ H) as [message ->].
    apply parseFailure_notes.
Qed.

(** An engine with fixed error texts, for running the model on examples. *)
Definition sampleEngine : Engine :=
  {| syntaxErrorMessage := fun _ => js "Unexpected token";
     typeErrorMessage := fun _ => js "TypeError";
     numberToString := fun n => decimalN (mant n);
     sameNumber := fun a b =>
       (mant a =? mant b) && (exp10 a =? exp10 b)%Z && bool_decide (neg a = neg b);
     stringAboveZero := fun s =>
       forallb isDigit s && existsb (fun c => negb (c =? 48)%N) s |}.

(** A judge process that prints text that is no JSON. *)
Definition chattyJudge (args : list jsstring) (timeout : Z) : Settled CallResult :=
  Resolved {| llm_exitCode := 0; llm_stdout := js "I think it is done";
              llm_stderr := []; llm_durationMs := 10 |}.

Lemma judge_fails_closed_witness :
  result (interpretSemanticsViaLLM sampleEngine (js "judge") chattyJudge
            (js "m") (js "summary")) = Resume.
Proof.
  destruct (judge_fails_closed sampleEngine (js "judge") chattyJudge
              (js "m") (js "summary")) as [H _].
  apply H. right. eexists. split; [reflexivity|].
  right. left. vm_compute. reflexivity.
Defined.

(** [{"result":"done"}] is accepted, and [{"result":"done","reasons":5}] passes
    the number on as the reasons. *)
Example parseLLMResult_done :
  parseLLMResult sampleEngine
    ([123; 34] ++ str_result ++ [34; 58; 34] ++ str_done ++ [34; 125])
  = {| result := Done; reasons := JArr [JStr str_done] |}
  /\ parseLLMResult sampleEngine
       ([123; 34] ++ str_result ++ [34; 58; 34] ++ str_done ++ [34; 44; 34]
        ++ str_reasons ++ [34; 58; 53; 125])
     = {| result := Done;
          reasons := JNum {| neg := false; mant := 5; exp10 := 0 |} |}.
Proof. vm_compute. split; reflexivity. Qed.

(** A response wrapped in a fenced code block is not parsed. *)
Example parseLLMResult_fenced :
  result (parseLLMResult sampleEngine
            (js "```json" ++ [10; 123; 34] ++ str_result ++ [34; 58; 34] ++ str_done
             ++ [34; 125; 10] ++ js "```")) = Resume.
Proof. vm_compute. reflexivity. Qed.

End JudgeFacts.

(** ** The retry/resume controller *)
Module ControllerFacts.
Import Judge.
Import Invoker.
Import Controller.
Local Open Scope nat_scope.

(** An invocation that resolved with a runtime error. *)
Definition failing (r : AgentRunResult) : Prop :=
  exitCode r <> 0%Z \/ stderr r <> [].

(** An invocation that resolved cleanly. *)
Definition clean (o : Settled AgentRunResult) : Prop :=
  exists r, o = Resolved r /\ exitCode r = 0%Z /\ stderr r = [].

(** Reasons that the controller can put into its log line and its notes. *)
Definition recordable (E : Engine) (reasons : value) : Prop :=
  reasonTextThrows E reasons = false /\ is_Some (reasonsNotes reasons).

(** The session id the controller holds after the call [c] resolved with [r]. *)
Definition handleAfter (c : AgentCall) (r : AgentRunResult) : option jsstring :=
  if truthy_opt (sessionId r) then sessionId r
  else match c with
       | CallResume _ sid _ _ => Some sid
       | CallInitial _ _ _ _ => None
       end.

Definition isInvoked (ev : TraceEvent) : bool :=
  match ev with Invoked _ _ => true | Judged _ _ _ => false end.

Lemma failing_check (r : AgentRunResult) :
  failing r <-> negb (exitCode r =? 0)%Z || truthy (stderr r) = true.
Proof.
  unfold failing. rewrite orb_true_iff, negb_true_iff, Z.eqb_neq.
  destruct (stderr r); simpl; split; intros [H | H]; auto; done.
Qed.

Lemma clean_check (r : AgentRunResult) :
  exitCode r = 0%Z -> stderr r = [] ->
  negb (exitCode r =? 0)%Z || truthy (stderr r) = false.
Proof. intros -> ->. done. Qed.

Section RunFacts.
Variable E : Engine.
Variable invoke : nat -> AgentCall -> Settled AgentRunResult.
Variable judge : nat -> jsstring -> jsstring -> SemanticsResult.
Variables prompt model judgeModel : jsstring.
Variable retry : nat.
Variable timeoutMinutes : Z.
Variable positionalArgs : list jsstring.

Local Abbreviation nextCall := (nextCall prompt model timeoutMinutes positionalArgs).
Local Abbreviation afterInvocation := (afterInvocation E judge judgeModel).
Local Abbreviation iteration :=
  (iteration E invoke judge prompt model judgeModel timeoutMinutes positionalArgs).
Local Abbreviation loop :=
  (loop E invoke judge prompt model judgeModel retry timeoutMinutes positionalArgs).
Local Abbreviation runLoop :=
  (runLoop E invoke judge prompt model judgeModel retry timeoutMinutes positionalArgs).
Local Abbreviation executeTaskWithRetry :=
  (executeTaskWithRetry E invoke judge prompt model judgeModel retry
     timeoutMinutes positionalArgs).
Local Abbreviation trace :=
  (trace E invoke judge prompt model judgeModel retry timeoutMinutes positionalArgs).

(** The loop variables at the start of the body, after [attempts++]. *)
Definition bump (st : Loop) : Loop :=
  {| l_attempts := S (l_attempts st);
     l_needsContinue := l_needsContinue st;
     l_finalStatus := l_finalStatus st;
     l_errorMessage := l_errorMessage st;
     l_lastSemanticsResult := l_lastSemanticsResult st;
     l_sessionId := l_sessionId st;
     l_executions := l_executions st;
     l_trace := l_trace st |}.

(** What one pass did. *)
Inductive Pass (st : Loop) : Loop -> bool -> Prop :=
| PassNoSession :
    nextCall (bump st) = None ->
    Pass st
      {| l_attempts := S (l_attempts st);
         l_needsContinue := l_needsContinue st;
         l_finalStatus := StatusError;
         l_errorMessage := Some str_no_session;
         l_lastSemanticsResult := l_lastSemanticsResult st;
         l_sessionId := l_sessionId st;
         l_executions := l_executions st;
         l_trace := l_trace st |} false
| PassRejected call message :
    nextCall (bump st) = Some call ->
    invoke (S (l_attempts st)) call = Rejected message ->
    Pass st
      {| l_attempts := S (l_attempts st);
         l_needsContinue := l_needsContinue st;
         l_finalStatus := StatusError;
         l_errorMessage := Some message;
         l_lastSemanticsResult := l_lastSemanticsResult st;
         l_sessionId := l_sessionId st;
         l_executions :=
           l_executions st
           ++ [{| index := S (l_attempts st); e_durationMs := 0;
                  conclusion := concl_threw; e_sessionId := None;
                  notes := [JStr (clip message 500)] |}];
         l_trace := l_trace st ++ [Invoked (S (l_attempts st)) call] |} false
| PassRuntimeError call r :
    nextCall (bump st) = Some call ->
    invoke (S (l_attempts st)) call = Resolved r ->
    failing r ->
    Pass st
      {| l_attempts := S (l_attempts st);
         l_needsContinue := l_needsContinue st;
         l_finalStatus := StatusError;
         l_errorMessage := Some (substring0 (fullError r) 200);
         l_lastSemanticsResult := l_lastSemanticsResult st;
         l_sessionId := handleAfter call r;
         l_executions :=
           l_executions st
           ++ [{| index := S (l_attempts st); e_durationMs := durationMs r;
                  conclusion := concl_runtime_error; e_sessionId := None;
                  notes := [JStr (clip (fullError r) 500)] |}];
         l_trace := l_trace st ++ [Invoked (S (l_attempts st)) call] |} false
| PassJudgeThrew call r last :
    nextCall (bump st) = Some call ->
    invoke (S (l_attempts st)) call = Resolved r ->
    ~ failing r ->
    ~ recordable E
        (reasons (judge (S (l_attempts st)) judgeModel (substring0 (stdout r) 5000))) ->
    Pass st
      {| l_attempts := S (l_attempts st);
         l_needsContinue := l_needsContinue st;
         l_finalStatus := StatusError;
         l_errorMessage :=
           Some (typeErrorMessage E
                   (ReasonsMisuse
                      (reasons (judge (S (l_attempts st)) judgeModel
                                  (substring0 (stdout r) 5000)))));
         l_lastSemanticsResult := last;
         l_sessionId := handleAfter call r;
         l_executions :=
           l_executions st
           ++ [{| index := S (l_attempts st); e_durationMs := 0;
                  conclusion := concl_threw; e_sessionId := None;
                  notes :=
                    [JStr (clip
                             (typeErrorMessage E
                                (ReasonsMisuse
                                   (reasons (judge (S (l_attempts st)) judgeModel
                                               (substring0 (stdout r) 5000)))))
                             500)] |}];
         l_trace :=
           (l_trace st ++ [Invoked (S (l_attempts st)) call])
           ++ [Judged (S (l_attempts st)) judgeModel (substring0 (stdout r) 5000)] |}
      false
| PassJudged call r spread :
    nextCall (bump st) = Some call ->
    invoke (S (l_attempts st)) call = Resolved r ->
    ~ failing r ->
    reasonsNotes
      (reasons (judge (S (l_attempts st)) judgeModel (substring0 (stdout r) 5000)))
    = Some spread ->
    Pass st
      {| l_attempts := S (l_attempts st);
         l_needsContinue :=
           match result (judge (S (l_attempts st)) judgeModel
                           (substring0 (stdout r) 5000)) with
           | Done => false
           | _ => true
           end;
         l_finalStatus :=
           match result (judge (S (l_attempts st)) judgeModel
                           (substring0 (stdout r) 5000)) with
           | Done => StatusDone
           | _ => l_finalStatus st
           end;
         l_errorMessage := l_errorMessage st;
         l_lastSemanticsResult :=
           Some (judge (S (l_attempts st)) judgeModel (substring0 (stdout r) 5000));
         l_sessionId := handleAfter call r;
         l_executions :=
           l_executions st
           ++ [{| index := S (l_attempts st); e_durationMs := durationMs r;
                  conclusion :=
                    conclusionOf
                      (result (judge (S (l_attempts st)) judgeModel
                                 (substring0 (stdout r) 5000)));
                  e_sessionId := orElse (sessionId r) (handleAfter call r);
                  notes :=
                    [JStr (str_verdict_prefix
                           ++ verdictToken
                                (result (judge (S (l_attempts st)) judgeModel
                                           (substring0 (stdout r) 5000))))]
                    ++ spread
                    ++ [JStr (substring0 (stdout r) 200 ++ str_ellipsis)] |}];
         l_trace :=
           (l_trace st ++ [Invoked (S (l_attempts st)) call])
           ++ [Judged (S (l_attempts st)) judgeModel (substring0 (stdout r) 5000)] |}
      (match result (judge (S (l_attempts st)) judgeModel
                       (substring0 (stdout r) 5000)) with
       | Done => false
       | _ => true
       end).

Lemma nextSessionId_handle (st : Loop) (call : AgentCall) (r : AgentRunResult) :
  (l_attempts st = 0 -> l_sessionId st = None) ->
  nextCall (bump st) = Some call ->
  nextSessionId
    {| l_attempts := S (l_attempts st);
       l_needsContinue := l_needsContinue st;
       l_finalStatus := l_finalStatus st;
       l_errorMessage := l_errorMessage st;
       l_lastSemanticsResult := l_lastSemanticsResult st;
       l_sessionId := l_sessionId st;
       l_executions := l_executions st;
       l_trace := l_trace st ++ [Invoked (S (l_attempts st)) call] |} r
  = handleAfter call r.
Proof.
  intros H0. unfold Controller.nextCall, nextSessionId, handleAfter, bump. simpl.
  destruct (l_attempts st) as [|a] eqn:Ha; simpl.
  - intros [= <-]. rewrite (H0 eq_refl).
    by destruct (truthy_opt (sessionId r)).
  - destruct (l_sessionId st) as [sid|] eqn:Hs; [|done].
    destruct (truthy sid); [|done]. intros [= <-].
    destruct (truthy_opt (sessionId r)); [|done]. simpl.
    case_bool_decide as Heq; simpl; [by rewrite Heq | done].
Qed.

Lemma iteration_pass (st : Loop) :
  (l_attempts st = 0 -> l_sessionId st = None) ->
  Pass st (iteration st).1 (iteration st).2.
Proof.
  intros H0. unfold Controller.iteration.
  fold (bump st).
  destruct (nextCall (bump st)) as [call|] eqn:Hc.
  2:{ apply PassNoSession. exact Hc. }
  simpl. destruct (invoke (S (l_attempts st)) call) as [r | message] eqn:Hi.
  2:{ apply (PassRejected st call message Hc Hi). }
  unfold Controller.afterInvocation.
  rewrite (nextSessionId_handle st call r H0 Hc). simpl.
  destruct (negb (exitCode r =? 0)%Z || truthy (stderr r)) eqn:Hf.
  { apply (PassRuntimeError st call r Hc Hi). by apply failing_check. }
  assert (Hnf : ~ failing r).
  { intros F. apply failing_check in F. congruence. }
  destruct (reasonTextThrows E _) eqn:Ht.
  { unfold caught. simpl. apply (PassJudgeThrew st call r _ Hc Hi Hnf).
    intros [Hr _]. congruence. }
  destruct (reasonsNotes _) as [spread|] eqn:Hn.
  2:{ unfold caught. simpl. apply (PassJudgeThrew st call r _ Hc Hi Hnf).
      intros [_ [x Hx]]. congruence. }
  pose proof (PassJudged st call r spread Hc Hi Hnf Hn) as P.
  destruct (result _); exact P.
Qed.

(** The loop variables at the head of a pass that the run goes through. *)
Inductive Reach : Loop -> Prop :=
| ReachStart : Reach start
| ReachNext st :
    Reach st -> l_attempts st < retry -> (iteration st).2 = true ->
    Reach (iteration st).1.

(** What holds at the head of every pass. *)
Record Inv (st : Loop) : Prop := {
  inv_continue : l_needsContinue st = true;
  inv_status : l_finalStatus st = StatusDone;
  inv_error : l_errorMessage st = None;
  inv_executions : length (l_executions st) = l_attempts st;
  inv_invoked : length (filter isInvoked (l_trace st)) = l_attempts st;
  inv_trace : forall ev, ev ∈ l_trace st -> attemptOf ev <= l_attempts st;
  inv_first : l_attempts st = 0 -> l_sessionId st = None;
  inv_bound : l_attempts st <= retry;
  inv_history :
    l_attempts st = 0
    \/ exists call r summary,
         Invoked (l_attempts st) call ∈ l_trace st
         /\ invoke (l_attempts st) call = Resolved r
         /\ Judged (l_attempts st) judgeModel summary ∈ l_trace st
         /\ l_sessionId st = handleAfter call r
         /\ l_lastSemanticsResult st
            = Some (judge (l_attempts st) judgeModel summary)
}.

Lemma pass_attempts (st st1 : Loop) (again : bool) :
  Pass st st1 again -> l_attempts st1 = S (l_attempts st).
Proof. by destruct 1. Qed.

Lemma pass_trace (st st1 : Loop) (again : bool) :
  Pass st st1 again ->
  exists evs,
    l_trace st1 = l_trace st ++ evs
    /\ (forall ev, ev ∈ evs -> attemptOf ev = S (l_attempts st))
    /\ (forall k call, Invoked k call ∈ evs -> nextCall (bump st) = Some call).
Proof.
  destruct 1; simpl.
  - exists []. rewrite app_nil_r. split; [done|].
    split; intros *; intros Hin; by apply not_elem_of_nil in Hin.
  - eexists. split; [reflexivity|].
    split; intros *; intros Hin; apply list_elem_of_singleton in Hin;
      [by subst | injection Hin as ? ?; by subst].
  - eexists. split; [reflexivity|].
    split; intros *; intros Hin; apply list_elem_of_singleton in Hin;
      [by subst | injection Hin as ? ?; by subst].
  - eexists. rewrite <- app_assoc. split; [reflexivity|]. simpl. split.
    + intros ev Hin. apply elem_of_cons in Hin as [-> | Hin]; [done|].
      by apply list_elem_of_singleton in Hin as ->.
    + intros k c Hin. apply elem_of_cons in Hin as [Hin | Hin].
      * injection Hin as ? ?. by subst.
      * apply list_elem_of_singleton in Hin. discriminate Hin.
  - eexists. rewrite <- app_assoc. split; [reflexivity|]. simpl. split.
    + intros ev Hin. apply elem_of_cons in Hin as [-> | Hin]; [done|].
      by apply list_elem_of_singleton in Hin as ->.
    + intros k c Hin. apply elem_of_cons in Hin as [Hin | Hin].
      * injection Hin as ? ?. by subst.
      * apply list_elem_of_singleton in Hin. discriminate Hin.
Qed.

(** A pass after which the loop goes on judged a clean invocation and did not
    hear done. *)
Lemma pass_again (st st1 : Loop) :
  Pass st st1 true ->
  exists call r,
    nextCall (bump st) = Some call
    /\ invoke (S (l_attempts st)) call = Resolved r
    /\ ~ failing r
    /\ result (judge (S (l_attempts st)) judgeModel (substring0 (stdout r) 5000))
       <> Done
    /\ l_attempts st1 = S (l_attempts st)
    /\ l_needsContinue st1 = true
    /\ l_finalStatus st1 = l_finalStatus st
    /\ l_errorMessage st1 = l_errorMessage st
    /\ length (l_executions st1) = S (length (l_executions st))
    /\ l_sessionId st1 = handleAfter call r
    /\ l_lastSemanticsResult st1
       = Some (judge (S (l_attempts st)) judgeModel (substring0 (stdout r) 5000))
    /\ l_trace st1
       = (l_trace st ++ [Invoked (S (l_attempts st)) call])
         ++ [Judged (S (l_attempts st)) judgeModel (substring0 (stdout r) 5000)].
Proof.
  intros P. inversion P as [ | | | | call r spread Hc Hi Hnf Hn Hst Hagain].
  exists call, r. simpl.
  destruct (result (judge (S (l_attempts st)) judgeModel
                      (substring0 (stdout r) 5000))) eqn:Hres;
    try discriminate Hagain;
    repeat split; try done; by rewrite length_app, Nat.add_comm.
Qed.

Lemma reach_inv (st : Loop) : Reach st -> Inv st.
Proof.
  induction 1 as [|st HR IH Hlt Hagain].
  - split; simpl;
      [done | done | done | done | done
      | intros ev Hin; by apply not_elem_of_nil in Hin
      | done | lia | by left].
  - pose proof (iteration_pass st (inv_first st IH)) as P.
    rewrite Hagain in P.
    destruct (pass_again st _ P)
      as (call & r & Hc & Hi & Hnf & Hres & Ha & Hn & Hs & He & Hx & Hsid & Hlast & Ht).
    split.
    + exact Hn.
    + by rewrite Hs, (inv_status st IH).
    + by rewrite He, (inv_error st IH).
    + by rewrite Hx, Ha, (inv_executions st IH).
    + rewrite Ht, Ha, !filter_app, !length_app. simpl.
      rewrite (inv_invoked st IH). lia.
    + intros ev. rewrite Ht, Ha, !elem_of_app, !list_elem_of_singleton.
      intros [[Hin | ->] | ->]; simpl; try lia.
      apply (inv_trace st IH) in Hin. lia.
    + rewrite Ha. lia.
    + rewrite Ha. lia.
    + right. exists call, r, (substring0 (stdout r) 5000).
      rewrite Ha, Ht, !elem_of_app, !list_elem_of_singleton. auto 10.
Qed.

(** The loop variables when the loop has ended. *)
Definition final : Loop := loop retry start.

Lemma loop_reach (st : Loop) :
  Reach st -> loop (retry - l_attempts st) st = final.
Proof.
  induction 1 as [|st HR IH Hlt Hagain].
  - unfold final. simpl. by rewrite Nat.sub_0_r.
  - rewrite <- IH.
    pose proof (reach_inv st HR) as I.
    pose proof (iteration_pass st (inv_first st I)) as P.
    rewrite (pass_attempts _ _ _ P).
    replace (retry - l_attempts st) with (S (retry - S (l_attempts st))) by lia.
    simpl. rewrite (inv_continue st I).
    apply Nat.ltb_lt in Hlt as ->. simpl.
    destruct (iteration st) as [st1 again]. simpl in *. by subst again.
Qed.

(** The loop ends at the head of a pass, with the ceiling reached, or right
    after a pass that left it. *)
Lemma final_cases :
  exists st,
    Reach st
    /\ ((l_attempts st = retry /\ final = st)
        \/ (l_attempts st < retry /\ (iteration st).2 = false
            /\ final = (iteration st).1)).
Proof.
  assert (G : forall fuel st, Reach st -> fuel = retry - l_attempts st ->
    exists st', Reach st'
      /\ ((l_attempts st' = retry /\ loop fuel st = st')
          \/ (l_attempts st' < retry /\ (iteration st').2 = false
              /\ loop fuel st = (iteration st').1))).
  { induction fuel as [|fuel IH]; intros st HR Hf.
    - exists st. split; [done|]. left. split; [|done].
      pose proof (inv_bound st (reach_inv st HR)). lia.
    - pose proof (reach_inv st HR) as I. simpl.
      rewrite (inv_continue st I).
      assert (Hlt : l_attempts st < retry) by lia.
      apply Nat.ltb_lt in Hlt as Hb. rewrite Hb. simpl.
      destruct (iteration st) as [st1 again] eqn:Hit.
      destruct again.
      + assert (HR1 : Reach st1).
        { replace st1 with (iteration st).1 by by rewrite Hit.
          apply ReachNext; [done | done | by rewrite Hit]. }
        apply (IH st1 HR1).
        pose proof (iteration_pass st (inv_first st I)) as P.
        rewrite Hit in P. apply pass_attempts in P. simpl in P. lia.
      + exists st. split; [done|]. right. rewrite Hit. done. }
  destruct (G retry start ReachStart) as (st & HR & H); [simpl; lia|].
  by exists st.
Qed.

Lemma reach_trace_prefix (st : Loop) :
  Reach st -> l_trace st `prefix_of` l_trace final.
Proof.
  intros HR. rewrite <- (loop_reach st HR).
  generalize (retry - l_attempts st) as fuel.
  intros fuel. revert st HR.
  induction fuel as [|fuel IH]; intros st HR; simpl; [done|].
  destruct (l_needsContinue st && (l_attempts st <? retry)) eqn:Hcond; [|done].
  apply andb_true_iff in Hcond as [_ Hlt]. apply Nat.ltb_lt in Hlt.
  pose proof (reach_inv st HR) as I.
  pose proof (iteration_pass st (inv_first st I)) as P.
  destruct (pass_trace _ _ _ P) as (evs & Ht & _).
  destruct (iteration st) as [st1 again] eqn:Hit. simpl in *.
  destruct again.
  - etrans; [|apply IH].
    + rewrite Ht. by apply prefix_app_r.
    + replace st1 with (iteration st).1 by by rewrite Hit.
      apply ReachNext; [done | done | by rewrite Hit].
  - rewrite Ht. by apply prefix_app_r.
Qed.

(** Every invocation in the trace was issued from the head of a pass the run
    went through; the loop then went on, or ended with that pass. *)
Lemma invoked_head (k : nat) (call : AgentCall) :
  Invoked k call ∈ l_trace final ->
  exists st,
    Reach st /\ S (l_attempts st) = k /\ l_attempts st < retry
    /\ nextCall (bump st) = Some call
    /\ ((iteration st).2 = true \/ final = (iteration st).1).
Proof.
  assert (T : forall st, Reach st -> Invoked k call ∈ l_trace st ->
    exists st0, Reach st0 /\ S (l_attempts st0) = k /\ l_attempts st0 < retry
      /\ nextCall (bump st0) = Some call /\ (iteration st0).2 = true).
  { induction 1 as [|st HR IH Hlt Hagain]; intros Hin.
    - by apply not_elem_of_nil in Hin.
    - pose proof (reach_inv st HR) as I.
      pose proof (iteration_pass st (inv_first st I)) as P.
      destruct (pass_trace _ _ _ P) as (evs & Ht & Hev & Hcall).
      rewrite Ht in Hin. apply elem_of_app in Hin as [Hin | Hin]; [by apply IH|].
      exists st. repeat split; try done.
      + by rewrite <- (Hev _ Hin).
      + by apply (Hcall k). }
  intros Hin. destruct final_cases as (st & HR & [[_ Hf] | (Hlt & Hb & Hf)]).
  - rewrite Hf in Hin. destruct (T st HR Hin) as (st0 & ? & ? & ? & ? & ?).
    exists st0. auto 10.
  - pose proof (reach_inv st HR) as I.
    pose proof (iteration_pass st (inv_first st I)) as P.
    destruct (pass_trace _ _ _ P) as (evs & Ht & Hev & Hcall).
    rewrite Hf, Ht in Hin. apply elem_of_app in Hin as [Hin | Hin].
    + destruct (T st HR Hin) as (st0 & ? & ? & ? & ? & ?).
      exists st0. auto 10.
    + exists st. repeat split; try done.
      * by rewrite <- (Hev _ Hin).
      * by apply (Hcall k).
      * by right.
Qed.

(** The report and the trace in terms of the loop variables at its end. *)
Lemma report_final :
  attempts executeTaskWithRetry = l_attempts final
  /\ executions executeTaskWithRetry = l_executions final
  /\ errorMessage executeTaskWithRetry = l_errorMessage final
  /\ trace = l_trace final
  /\ finalStatus executeTaskWithRetry
     = (if l_needsContinue final && (retry <=? l_attempts final)
        then StatusPartial else l_finalStatus final)
  /\ success executeTaskWithRetry
     = match finalStatus executeTaskWithRetry with
       | StatusDone => true
       | _ => false
       end.
Proof.
  unfold Controller.executeTaskWithRetry, Controller.trace, Controller.runLoop.
  fold final.
  by destruct (l_needsContinue final && (retry <=? l_attempts final)).
Qed.

Lemma nextCall_initial (st : Loop) :
  l_attempts st = 0 ->
  nextCall (bump st) = Some (CallInitial prompt model positionalArgs timeoutMinutes).
Proof. intros H. unfold Controller.nextCall, bump. simpl. by rewrite H. Qed.

Lemma nextCall_resume (st : Loop) (call : AgentCall) :
  1 <= l_attempts st ->
  nextCall (bump st) = Some call ->
  exists sid,
    l_sessionId st = Some sid /\ truthy sid = true
    /\ call = CallResume model sid (resumePrompt (l_lastSemanticsResult st))
                timeoutMinutes.
Proof.
  intros H. unfold Controller.nextCall, bump. simpl.
  destruct (l_attempts st) as [|a]; [lia|]. simpl.
  destruct (l_sessionId st) as [sid|]; [|done].
  destruct (truthy sid) eqn:Ht; [|done].
  intros [= <-]. by exists sid.
Qed.

Lemma nextCall_resume_some (st : Loop) :
  1 <= l_attempts st -> truthy_opt (l_sessionId st) = true ->
  exists call, nextCall (bump st) = Some call.
Proof.
  intros H. unfold Controller.nextCall, bump. simpl.
  destruct (l_attempts st) as [|a]; [lia|]. simpl.
  destruct (l_sessionId st) as [sid|]; [|done]. simpl.
  intros ->. by eexists.
Qed.

Lemma handleAfter_resume (model' sid instr : jsstring) (t : Z) (r : AgentRunResult) :
  truthy sid = true ->
  truthy_opt (handleAfter (CallResume model' sid instr t) r) = true.
Proof.
  intros H. unfold handleAfter.
  by destruct (truthy_opt (sessionId r)) eqn:Hr.
Qed.

(** The loop variables at the head of a pass are fixed by its number. *)
Lemma reach_unique (st st' : Loop) :
  Reach st -> Reach st' -> l_attempts st = l_attempts st' -> st = st'.
Proof.
  intros HR. revert st'.
  induction HR as [|st HR IH Hlt Hagain]; intros st' HR' Ha.
  - destruct HR' as [|st0 HR0 Hlt0 Hag0]; [done|].
    pose proof (iteration_pass st0 (inv_first st0 (reach_inv st0 HR0))) as P.
    apply pass_attempts in P. simpl in Ha. lia.
  - pose proof (iteration_pass st (inv_first st (reach_inv st HR))) as P.
    apply pass_attempts in P.
    destruct HR' as [|st0 HR0 Hlt0 Hag0].
    + simpl in Ha. lia.
    + pose proof (iteration_pass st0 (inv_first st0 (reach_inv st0 HR0))) as P0.
      apply pass_attempts in P0.
      by rewrite (IH st0 HR0) by lia.
Qed.

(** Every pass the report counts started from the head of a pass the run went
    through. *)
Lemma attempt_head (n : nat) :
  1 <= n <= l_attempts final ->
  exists st,
    Reach st /\ S (l_attempts st) = n /\ l_attempts st < retry
    /\ ((iteration st).2 = true \/ final = (iteration st).1).
Proof.
  assert (T : forall st, Reach st -> 1 <= n <= l_attempts st ->
    exists st0, Reach st0 /\ S (l_attempts st0) = n /\ l_attempts st0 < retry
      /\ (iteration st0).2 = true).
  { induction 1 as [|st HR IH Hlt Hagain]; intros Hn.
    - simpl in Hn. lia.
    - pose proof (iteration_pass st (inv_first st (reach_inv st HR))) as P.
      apply pass_attempts in P.
      destruct (decide (n <= l_attempts st)) as [Hle | Hgt].
      + apply IH. lia.
      + exists st. repeat split; try done. lia. }
  intros Hn. destruct final_cases as (st & HR & [[Ha Hf] | (Hlt & Hb & Hf)]).
  - rewrite Hf in Hn. destruct (T st HR Hn) as (st0 & ? & ? & ? & ?).
    exists st0. auto.
  - pose proof (iteration_pass st (inv_first st (reach_inv st HR))) as P.
    apply pass_attempts in P. rewrite Hf, P in Hn.
    destruct (decide (n <= l_attempts st)) as [Hle | Hgt].
    + destruct (T st HR) as (st0 & ? & ? & ? & ?); [lia|]. exists st0. auto.
    + exists st. repeat split; [done | lia | done | by right].
Qed.

(** A pass that has a call to make makes it. *)
Lemma pass_invokes (st st1 : Loop) (again : bool) (call : AgentCall) :
  Pass st st1 again ->
  nextCall (bump st) = Some call ->
  Invoked (S (l_attempts st)) call ∈ l_trace st1.
Proof.
  intros P Hc.
  destruct P as [Hn | c m Hc' Hi | c r Hc' Hi Hf | c r last Hc' Hi Hf Hr
                | c r spread Hc' Hi Hf Hn];
    [congruence | | | |];
    rewrite Hc' in Hc; injection Hc as <-; simpl;
    rewrite ?elem_of_app, !list_elem_of_singleton; auto.
Qed.

(** *** The retry ceiling *)

Section Ceiling.
Hypothesis invocations_clean : forall n call, clean (invoke n call).
Hypothesis first_has_session :
  2 <= retry ->
  forall call r, invoke 1 call = Resolved r -> truthy_opt (sessionId r) = true.
Hypothesis judge_continues :
  forall n jm summary,
    result (judge n jm summary) <> Done
    /\ recordable E (reasons (judge n jm summary)).

Lemma reach_session (st : Loop) :
  2 <= retry -> Reach st -> 1 <= l_attempts st ->
  truthy_opt (l_sessionId st) = true.
Proof.
  intros H2. induction 1 as [|st HR IH Hlt Hagain]; [simpl; lia|]. intros _.
  pose proof (reach_inv st HR) as I.
  pose proof (iteration_pass st (inv_first st I)) as P.
  rewrite Hagain in P.
  destruct (pass_again st _ P)
    as (call & r & Hc & Hi & _ & _ & _ & _ & _ & _ & _ & Hsid & _).
  rewrite Hsid.
  destruct (l_attempts st) as [|a] eqn:Ha.
  - unfold handleAfter. rewrite (first_has_session H2 call r Hi).
    by apply (first_has_session H2 call r).
  - destruct (nextCall_resume st call) as (sid & _ & Hts & ->);
      [lia | done |].
    by apply handleAfter_resume.
Qed.

Lemma reach_goes_on (st : Loop) :
  Reach st -> l_attempts st < retry -> (iteration st).2 = true.
Proof.
  intros HR Hlt.
  pose proof (reach_inv st HR) as I.
  pose proof (iteration_pass st (inv_first st I)) as P.
  destruct P as [Hc | call message Hc Hi | call r Hc Hi Hf
                 | call r last Hc Hi Hnf Hnr | call r spread Hc Hi Hnf Hn]; simpl.
  - destruct (l_attempts st) as [|a] eqn:Ha.
    + by rewrite nextCall_initial in Hc.
    + destruct (nextCall_resume_some st) as [call Hcall]; [lia | | congruence].
      apply reach_session; [lia | done | lia].
  - destruct (invocations_clean (S (l_attempts st)) call) as (r & Hr & _).
    congruence.
  - destruct (invocations_clean (S (l_attempts st)) call) as (r' & Hr & H0 & He).
    assert (r' = r) as -> by congruence.
    destruct Hf as [Hf | Hf]; [by destruct Hf | by destruct Hf].
  - by destruct Hnr, (judge_continues (S (l_attempts st)) judgeModel
                        (substring0 (stdout r) 5000)).
  - destruct (judge_continues (S (l_attempts st)) judgeModel
                (substring0 (stdout r) 5000)) as [Hd _].
    by destruct (result _).
Qed.

Lemma ceiling_final : l_attempts final = retry /\ Inv final.
Proof.
  destruct final_cases as (st & HR & [[Ha Hf] | (Hlt & Hb & _)]).
  - rewrite Hf. split; [done | by apply reach_inv].
  - rewrite reach_goes_on in Hb; done.
Qed.

End Ceiling.

(** C2, as amended. With a retry ceiling of at least one, when every invocation
    resolves cleanly (exit status 0, empty error stream), the first invocation
    yields a session id if the ceiling is two or more, and the judge answers
    resume or auto every time with reasons the controller can record, the
    controller makes exactly as many attempts as the ceiling allows, one
    invocation and one record each, and reports partial, without success. *)
Theorem retry_ceiling_partial :
  1 <= retry ->
  (forall n call, clean (invoke n call)) ->
  (2 <= retry ->
   forall call r, invoke 1 call = Resolved r -> truthy_opt (sessionId r) = true) ->
  (forall n jm summary,
     result (judge n jm summary) <> Done
     /\ recordable E (reasons (judge n jm summary))) ->
  attempts executeTaskWithRetry = retry
  /\ length (executions executeTaskWithRetry) = retry
  /\ length (filter isInvoked trace) = retry
  /\ finalStatus executeTaskWithRetry = StatusPartial
  /\ success executeTaskWithRetry = false.
Proof.
  intros _ Hclean Hsid Hjudge.
  destruct (ceiling_final Hclean Hsid Hjudge) as [Ha I].
  destruct report_final as (Hat & Hex & _ & Htr & Hfs & Hsu).
  assert (Hp : finalStatus executeTaskWithRetry = StatusPartial).
  { rewrite Hfs, (inv_continue _ I), Ha. simpl.
    by rewrite Nat.leb_refl. }
  rewrite Hsu, Hp, Hat, Hex, Htr, (inv_executions _ I), (inv_invoked _ I), Ha.
  done.
Qed.

(** *** Runtime errors and exceptions *)

(** C3, as the code has it. When the invocation of attempt [k] resolves with
    a non-zero exit status or a non-empty error stream, the loop ends there: the
    judge is not asked on attempt [k], the report counts [k] attempts, holds [k]
    records and carries the error text, and it is without success. The status
    written in the loop is error; the check for the retry ceiling after the
    loop turns it into partial when [k] is the last attempt the ceiling
    allows. *)
Theorem runtime_error_short_circuit (k : nat) (call : AgentCall) (r : AgentRunResult) :
  Invoked k call ∈ trace ->
  invoke k call = Resolved r ->
  failing r ->
  (forall jm summary, Judged k jm summary ∉ trace)
  /\ attempts executeTaskWithRetry = k
  /\ length (executions executeTaskWithRetry) = k
  /\ errorMessage executeTaskWithRetry = Some (substring0 (fullError r) 200)
  /\ success executeTaskWithRetry = false
  /\ finalStatus executeTaskWithRetry
     = (if k <? retry then StatusError else StatusPartial).
Proof.
  intros Hin Hi Hf.
  destruct report_final as (Hat & Hex & Her & Htr & Hfs & Hsu).
  rewrite Htr in Hin.
  destruct (invoked_head k call Hin) as (st & HR & Hk & Hlt & Hc & Hend).
  pose proof (reach_inv st HR) as I.
  pose proof (iteration_pass st (inv_first st I)) as P.
  assert (Hfinal : final = (iteration st).1
                   /\ l_trace final = l_trace st ++ [Invoked k call]
                   /\ l_attempts final = k
                   /\ l_needsContinue final = true
                   /\ l_finalStatus final = StatusError
                   /\ l_errorMessage final = Some (substring0 (fullError r) 200)
                   /\ length (l_executions final) = k).
  { destruct P as [Hc' | call' message Hc' Hi' | call' r' Hc' Hi' Hf'
                   | call' r' last Hc' Hi' Hnf' Hnr | call' r' spread Hc' Hi' Hnf' Hn];
      rewrite Hc in Hc'; try discriminate Hc';
      injection Hc' as <-; rewrite Hk, Hi in Hi'; try discriminate Hi';
      injection Hi' as <-; try (by destruct Hnf').
    simpl in Hend. destruct Hend as [Hend | Hend]; [discriminate Hend|].
    rewrite Hend. simpl. rewrite Hk, (inv_continue st I), length_app.
    rewrite (inv_executions st I). simpl. repeat split; try done. lia. }
  destruct Hfinal as (_ & Ht & Ha & Hn & Hs & He & Hx).
  assert (Hst : finalStatus executeTaskWithRetry
                = (if k <? retry then StatusError else StatusPartial)).
  { rewrite Hfs, Hn, Ha, Hs. simpl.
    destruct (retry <=? k) eqn:H1; destruct (k <? retry) eqn:H2; try done.
    - apply Nat.leb_le in H1. apply Nat.ltb_lt in H2. lia.
    - apply Nat.leb_gt in H1. apply Nat.ltb_ge in H2. lia. }
  split.
  { intros jm summary. rewrite Htr, Ht, elem_of_app, list_elem_of_singleton.
    intros [Hj | Hj]; [|discriminate Hj].
    apply (inv_trace st I) in Hj. simpl in Hj. lia. }
  rewrite Hat, Hex, Her, Hsu, Hst, Ha, Hx, He.
  repeat split; try done. by destruct (k <? retry).
Qed.

(** An invocation that rejects on attempt [k] ends the loop there: no later
    attempt is made, the judge is not asked, the attempt is recorded as failed
    with the message of the rejection, and the session id is the one held before
    the attempt. *)
Lemma rejection_stops_the_loop (k : nat) (call : AgentCall) (message : jsstring) :
  Invoked k call ∈ trace ->
  invoke k call = Rejected message ->
  attempts executeTaskWithRetry = k
  /\ length (executions executeTaskWithRetry) = k
  /\ (exists earlier,
        executions executeTaskWithRetry
        = earlier ++ [{| index := k; e_durationMs := 0; conclusion := concl_threw;
                         e_sessionId := None;
                         notes := [JStr (clip message 500)] |}])
  /\ errorMessage executeTaskWithRetry = Some message
  /\ success executeTaskWithRetry = false
  /\ (k < retry -> finalStatus executeTaskWithRetry = StatusError)
  /\ (forall ev, ev ∈ trace -> attemptOf ev <= k)
  /\ (forall jm summary, Judged k jm summary ∉ trace)
  /\ l_sessionId runLoop
     = match call with
       | CallResume _ sid _ _ => Some sid
       | CallInitial _ _ _ _ => None
       end.
Proof.
  intros Hin Hi.
  destruct report_final as (Hat & Hex & Her & Htr & Hfs & Hsu).
  rewrite Htr in Hin.
  destruct (invoked_head k call Hin) as (st & HR & Hk & Hlt & Hc & Hend).
  pose proof (reach_inv st HR) as I.
  pose proof (iteration_pass st (inv_first st I)) as P.
  assert (Hsid : l_sessionId st
                 = match call with
                   | CallResume _ sid _ _ => Some sid
                   | CallInitial _ _ _ _ => None
                   end).
  { destruct (l_attempts st) as [|a] eqn:Ha.
    - rewrite nextCall_initial in Hc by done. injection Hc as <-.
      by apply (inv_first st I).
    - destruct (nextCall_resume st call) as (sid & Hs & _ & ->); [lia | done | done]. }
  destruct P as [Hc' | call' message' Hc' Hi' | call' r' Hc' Hi' Hf'
                 | call' r' last Hc' Hi' Hnf' Hnr | call' r' spread Hc' Hi' Hnf' Hn];
    rewrite Hc in Hc'; try discriminate Hc';
    injection Hc' as <-; rewrite Hk, Hi in Hi'; try discriminate Hi';
    injection Hi' as <-.
  simpl in Hend. destruct Hend as [Hend | Hend]; [discriminate Hend|].
  assert (Hrun : l_sessionId runLoop = l_sessionId final).
  { unfold Controller.runLoop. fold final.
    by destruct (l_needsContinue final && (retry <=? l_attempts final)). }
  rewrite Hat, Hex, Her, Hsu, Hfs, Htr, Hrun, Hend. simpl.
  rewrite Hk, (inv_continue st I), length_app, (inv_executions st I). simpl.
  split; [done|]. split; [lia|]. split; [by eexists|]. split; [done|].
  split; [by destruct (retry <=? k)|].
  split.
  { intros Hkr. apply Nat.leb_gt in Hkr. by rewrite Hkr. }
  split.
  { intros ev. rewrite elem_of_app, list_elem_of_singleton.
    intros [Hev | ->]; simpl; [|lia].
    apply (inv_trace st I) in Hev. lia. }
  split; [|done].
  intros jm summary. rewrite elem_of_app, list_elem_of_singleton.
  intros [Hj | Hj]; [|discriminate Hj].
  apply (inv_trace st I) in Hj. simpl in Hj. lia.
Qed.

(** *** Resume invocations *)

(** The invocation of the pass before the one numbered [n]: the session id the
    loop holds at the head of pass [n] is the one held after it. *)
Lemma previous_invocation (n : nat) (prevCall : AgentCall)
    (prevResult : AgentRunResult) :
  2 <= n <= l_attempts final ->
  Invoked (n - 1) prevCall ∈ l_trace final ->
  invoke (n - 1) prevCall = Resolved prevResult ->
  exists st,
    Reach st /\ S (l_attempts st) = n /\ l_attempts st < retry
    /\ l_sessionId st = handleAfter prevCall prevResult
    /\ ((iteration st).2 = true \/ final = (iteration st).1).
Proof.
  intros Hn Hprev Hres.
  destruct (attempt_head n) as (st & HR & Hk & Hlt & Hend); [lia|].
  pose proof (reach_inv st HR) as I.
  pose proof (reach_trace_prefix st HR) as Hpre.
  destruct (inv_history st I) as [H0 | (pc & pr & summary & Hpi & Hpr & _ & Hh & _)];
    [lia|].
  assert (Ha : l_attempts st = n - 1) by lia.
  rewrite Ha in Hpi, Hpr.
  assert (Hpc : pc = prevCall).
  { destruct (invoked_head (n - 1) pc) as (s1 & HR1 & Hk1 & _ & Hc1 & _);
      [by apply (elem_of_prefix _ _ _ Hpi)|].
    destruct (invoked_head (n - 1) prevCall Hprev) as (s2 & HR2 & Hk2 & _ & Hc2 & _).
    assert (s1 = s2) by (apply reach_unique; [done | done | lia]).
    subst s2. congruence. }
  subst pc. assert (pr = prevResult) by congruence. subst pr.
  by exists st.
Qed.

(** C6, as amended. An attempt after the first, reached while the controller
    holds a session id, issues an invocation; and every invocation of an attempt
    after the first is a resume. It is bound to the session id the controller
    holds after the attempt before it (the one that attempt returned, or else
    the one it was itself bound to), and its short instruction follows from the
    verdict of that attempt alone: apply the suggestion after auto, continue
    otherwise. Its argument vector holds the model, that session id and the
    instruction, not the original prompt. An attempt after the first that is
    reached while no session id is held is counted, but issues no invocation:
    the run ends with it, with the message that no session id was found and
    without success. *)
Theorem resume_follows_verdict (streamPartial : bool) :
  (forall n prevCall prevResult,
     2 <= n <= attempts executeTaskWithRetry ->
     Invoked (n - 1) prevCall ∈ trace ->
     invoke (n - 1) prevCall = Resolved prevResult ->
     truthy_opt (handleAfter prevCall prevResult) = true ->
     exists call, Invoked n call ∈ trace)
  /\ (forall k call,
        2 <= k ->
        Invoked k call ∈ trace ->
        exists sid prevCall prevResult summary,
          Invoked (k - 1) prevCall ∈ trace
          /\ invoke (k - 1) prevCall = Resolved prevResult
          /\ Judged (k - 1) judgeModel summary ∈ trace
          /\ handleAfter prevCall prevResult = Some sid
          /\ truthy sid = true
          /\ call = CallResume model sid
                      (match result (judge (k - 1) judgeModel summary) with
                       | Auto => str_apply_suggestion
                       | _ => str_please_continue
                       end) timeoutMinutes
          /\ argv streamPartial call
             = [arg_model; model; arg_resume_eq ++ sid; arg_print;
                arg_output_format; arg_stream_json; arg_force;
                match result (judge (k - 1) judgeModel summary) with
                | Auto => str_apply_suggestion
                | _ => str_please_continue
                end])
  /\ (forall n prevCall prevResult,
        2 <= n <= attempts executeTaskWithRetry ->
        Invoked (n - 1) prevCall ∈ trace ->
        invoke (n - 1) prevCall = Resolved prevResult ->
        truthy_opt (handleAfter prevCall prevResult) = false ->
        (forall call, Invoked n call ∉ trace)
        /\ attempts executeTaskWithRetry = n
        /\ errorMessage executeTaskWithRetry = Some str_no_session
        /\ success executeTaskWithRetry = false).
Proof.
  destruct report_final as (Hatt & _ & Herr & Htr & Hfs & Hsu).
  rewrite Hsu, Hfs, Herr, Htr, Hatt. clear Hsu Hfs Herr Htr Hatt.
  split; [|split].
  - intros n prevCall prevResult Hn Hprev Hres Hsid.
    destruct (previous_invocation n prevCall prevResult Hn Hprev Hres)
      as (st & HR & Hk & Hlt & Hh & Hend).
    pose proof (reach_inv st HR) as I.
    destruct (nextCall_resume_some st) as [call Hc]; [lia | by rewrite Hh |].
    exists call.
    pose proof (iteration_pass st (inv_first st I)) as P.
    pose proof (pass_invokes _ _ _ call P Hc) as Hin.
    replace (S (l_attempts st)) with n in Hin by lia.
    destruct Hend as [Hagain | ->]; [|done].
    apply (elem_of_prefix (l_trace (iteration st).1)); [done|].
    apply reach_trace_prefix. by apply ReachNext.
  - intros k call Hk2 Hin.
    destruct (invoked_head k call Hin) as (st & HR & Hk & Hlt & Hc & _).
    pose proof (reach_inv st HR) as I.
    destruct (nextCall_resume st call) as (sid & Hs & Hts & ->); [lia | done |].
    destruct (inv_history st I) as [H0 | (pc & pr & summary & Hpi & Hpr & Hpj & Hh & Hl)];
      [lia|].
    replace (k - 1) with (l_attempts st) by lia.
    exists sid, pc, pr, summary.
    pose proof (reach_trace_prefix st HR) as Hpre.
    split; [by apply (elem_of_prefix _ _ _ Hpi)|].
    split; [done|].
    split; [by apply (elem_of_prefix _ _ _ Hpj)|].
    split; [congruence|]. split; [done|].
    rewrite Hl. simpl. split; reflexivity.
  - intros n prevCall prevResult Hn Hprev Hres Hsid.
    destruct (previous_invocation n prevCall prevResult Hn Hprev Hres)
      as (st & HR & Hk & Hlt & Hh & Hend).
    pose proof (reach_inv st HR) as I.
    assert (Hnone : nextCall (bump st) = None).
    { unfold Controller.nextCall, bump. cbn [l_attempts l_sessionId].
      assert (Hne : (S (l_attempts st) =? 1) = false) by (apply Nat.eqb_neq; lia).
      rewrite Hne, Hh.
      destruct (handleAfter prevCall prevResult) as [sid|]; [|done].
      simpl in Hsid. by rewrite Hsid. }
    pose proof (iteration_pass st (inv_first st I)) as P.
    inversion P as [Hc Hst Hag | c m Hc Hiv Hst Hag | c r Hc Hiv Hf Hst Hag
                   | c r last Hc Hiv Hnf Hnr Hst Hag
                   | c r spread Hc Hiv Hnf Hsp Hst Hag];
      try (rewrite Hnone in Hc; discriminate Hc).
    destruct Hend as [Hagain | Hend]; [congruence|].
    rewrite Hend, <- Hst.
    cbn [l_attempts l_needsContinue l_finalStatus l_errorMessage l_trace].
    split; [|split; [done|split; [done|]]].
    + intros call Hin. apply (inv_trace st I) in Hin. simpl in Hin. lia.
    + by destruct (l_needsContinue st && (retry <=? S (l_attempts st))).
Qed.

(** The first invocation is the initial one, with the prompt; all later ones
    are resumes. *)
Lemma invoked_shape (k : nat) (call : AgentCall) :
  Invoked k call ∈ trace ->
  (k = 1 /\ call = CallInitial prompt model positionalArgs timeoutMinutes)
  \/ (2 <= k
      /\ exists sid instr, call = CallResume model sid instr timeoutMinutes).
Proof.
  intros Hin. destruct report_final as (_ & _ & _ & Htr & _ & _).
  rewrite Htr in Hin.
  destruct (invoked_head k call Hin) as (st & HR & Hk & Hlt & Hc & _).
  destruct (l_attempts st) as [|a] eqn:Ha.
  - left. rewrite nextCall_initial in Hc by done. split; [lia | congruence].
  - right. split; [lia|].
    destruct (nextCall_resume st call) as (sid & _ & _ & ->); [lia | done |].
    by eexists _, _.
Qed.

End RunFacts.

(** *** Timeouts *)

Lemma settle_timeout (streamPartial : bool) (timeoutMinutes : Z)
    (initialSid : option jsstring) (b : Behaviour) :
  b_ending b = TimerExpired ->
  settle streamPartial timeoutMinutes initialSid b
  = (Rejected (timeoutMessage timeoutMinutes), [SIGTERM]).
Proof. intros H. unfold settle. by rewrite H. Qed.

(** C5, as amended. When the timer of the invocation of attempt [k] expires,
    the child process is sent SIGTERM and the invocation rejects with the
    timeout message. The controller handles this like any exception of the
    attempt: it records the attempt as failed with that message and leaves the
    loop, so no further attempt is made even when the retry ceiling would allow
    one; the judge is not asked, the session id stays the one held before the
    attempt, the report is without success, and its status is error when [k] is
    below the ceiling. *)
Theorem timeout_ends_the_run
    (E : Engine) (streamPartial : bool)
    (behaviour : nat -> AgentCall -> Behaviour)
    (judge : nat -> jsstring -> jsstring -> SemanticsResult)
    (prompt model judgeModel : jsstring) (retry : nat) (timeoutMinutes : Z)
    (positionalArgs : list jsstring) (k : nat) (call : AgentCall) :
  Invoked k call
    ∈ trace E (invokeProcess streamPartial behaviour) judge prompt model
        judgeModel retry timeoutMinutes positionalArgs ->
  b_ending (behaviour k call) = TimerExpired ->
  signalsSent streamPartial behaviour k call = [SIGTERM]
  /\ invokeProcess streamPartial behaviour k call
     = Rejected (timeoutMessage timeoutMinutes)
  /\ attempts (executeTaskWithRetry E (invokeProcess streamPartial behaviour)
                 judge prompt model judgeModel retry timeoutMinutes positionalArgs)
     = k
  /\ (forall ev,
        ev ∈ trace E (invokeProcess streamPartial behaviour) judge prompt model
               judgeModel retry timeoutMinutes positionalArgs ->
        attemptOf ev <= k)
  /\ (forall jm summary,
        Judged k jm summary
          ∉ trace E (invokeProcess streamPartial behaviour) judge prompt model
              judgeModel retry timeoutMinutes positionalArgs)
  /\ (exists earlier,
        executions (executeTaskWithRetry E (invokeProcess streamPartial behaviour)
                      judge prompt model judgeModel retry timeoutMinutes
                      positionalArgs)
        = earlier
          ++ [{| index := k; e_durationMs := 0; conclusion := concl_threw;
                 e_sessionId := None;
                 notes := [JStr (clip (timeoutMessage timeoutMinutes) 500)] |}]
        /\ length earlier = k - 1)
  /\ errorMessage (executeTaskWithRetry E (invokeProcess streamPartial behaviour)
                     judge prompt model judgeModel retry timeoutMinutes
                     positionalArgs)
     = Some (timeoutMessage timeoutMinutes)
  /\ success (executeTaskWithRetry E (invokeProcess streamPartial behaviour)
                judge prompt model judgeModel retry timeoutMinutes positionalArgs)
     = false
  /\ (k < retry ->
      finalStatus (executeTaskWithRetry E (invokeProcess streamPartial behaviour)
                     judge prompt model judgeModel retry timeoutMinutes
                     positionalArgs)
      = StatusError)
  /\ l_sessionId (runLoop E (invokeProcess streamPartial behaviour) judge prompt
                    model judgeModel retry timeoutMinutes positionalArgs)
     = match call with
       | CallResume _ sid _ _ => Some sid
       | CallInitial _ _ _ _ => None
       end.
Proof.
  intros Hin Hend.
  assert (Hrej : invokeProcess streamPartial behaviour k call
                 = Rejected (timeoutMessage timeoutMinutes)
                 /\ signalsSent streamPartial behaviour k call = [SIGTERM]).
  { destruct (invoked_shape _ _ _ _ _ _ _ _ _ _ _ Hin)
      as [[_ ->] | (_ & sid & instr & ->)];
      unfold invokeProcess, signalsSent; by rewrite settle_timeout. }
  destruct Hrej as [Hrej Hsig].
  destruct (rejection_stops_the_loop _ _ _ _ _ _ _ _ _ _ _ _ Hin Hrej)
    as (Ha & Hlen & (earlier & Hex) & Herr & Hsu & Hst & Htr & Hj & Hsid).
  repeat split; try done.
  exists earlier. split; [done|].
  rewrite Hex, length_app in Hlen. simpl in Hlen. lia.
Qed.

(** *** Sample runs *)

Definition sampleEngine : Engine := JudgeFacts.sampleEngine.

(** An agent that always exits cleanly and reports the session id ["s1"]. *)
Definition steadyAgent (n : nat) (call : AgentCall) : Settled AgentRunResult :=
  Resolved {| exitCode := 0; stdout := js "working"; stderr := [];
              durationMs := 1000; sessionId := Some (js "s1") |}.

(** An agent that always exits cleanly and never reports a session id. *)
Definition noSessionAgent (n : nat) (call : AgentCall) : Settled AgentRunResult :=
  Resolved {| exitCode := 0; stdout := js "working"; stderr := [];
              durationMs := 1000; sessionId := None |}.

(** An agent that exits with status 1. *)
Definition brokenAgent (n : nat) (call : AgentCall) : Settled AgentRunResult :=
  Resolved {| exitCode := 1; stdout := []; stderr := js "boom";
              durationMs := 1000; sessionId := None |}.

Definition alwaysResume (n : nat) (judgeModel summary : jsstring) : SemanticsResult :=
  {| result := Resume; reasons := JArr [JStr (js "more to do")] |}.

Definition alwaysAuto (n : nat) (judgeModel summary : jsstring) : SemanticsResult :=
  {| result := Auto; reasons := JArr [JStr (js "it proposed a next step")] |}.

(** A judge that answers resume with an object for its reasons. *)
Definition objectReasons (n : nat) (judgeModel summary : jsstring) : SemanticsResult :=
  {| result := Resume; reasons := JObj [(js "why", JStr (js "more to do"))] |}.

(** The judge of the scenario: resume after the first attempt, then done. *)
Definition resumeThenDone (n : nat) (judgeModel summary : jsstring) : SemanticsResult :=
  {| result := if (n =? 1)%nat then Resume else Done;
     reasons := JArr [JStr (js "judged")] |}.

(** Children whose timer expires on every attempt. *)
Definition stuckChild (n : nat) (call : AgentCall) : Behaviour :=
  {| b_events := [StderrData (js "still thinking")]; b_ending := TimerExpired |}.

(** The scenario of the specification: resume after attempt 1, done after
    attempt 2, ceiling 3. *)
Example scenario_two_attempts :
  let report := executeTaskWithRetry sampleEngine steadyAgent resumeThenDone
                  (js "task") (js "auto") (js "judge") 3 60 [] in
  success report = true /\ attempts report = 2 /\ finalStatus report = StatusDone
  /\ length (executions report) = 2 /\ errorMessage report = None.
Proof. vm_compute. repeat split. Qed.

Lemma retry_ceiling_partial_witness :
  attempts (executeTaskWithRetry sampleEngine steadyAgent alwaysResume
              (js "task") (js "auto") (js "judge") 3 60 []) = 3
  /\ length (executions (executeTaskWithRetry sampleEngine steadyAgent alwaysResume
                           (js "task") (js "auto") (js "judge") 3 60 [])) = 3
  /\ length (filter isInvoked
               (trace sampleEngine steadyAgent alwaysResume
                  (js "task") (js "auto") (js "judge") 3 60 [])) = 3
  /\ finalStatus (executeTaskWithRetry sampleEngine steadyAgent alwaysResume
                    (js "task") (js "auto") (js "judge") 3 60 []) = StatusPartial
  /\ success (executeTaskWithRetry sampleEngine steadyAgent alwaysResume
                (js "task") (js "auto") (js "judge") 3 60 []) = false.
Proof.
  apply (retry_ceiling_partial sampleEngine steadyAgent alwaysResume
           (js "task") (js "auto") (js "judge") 3 60 []).
  - lia.
  - intros n call. eexists. repeat split; reflexivity.
  - intros _ call r [= <-]. reflexivity.
  - intros n jm summary. split; [discriminate|]. split; [reflexivity|].
    by eexists.
Defined.

(** C2, as stated, fails. With ceiling 3, clean invocations and a judge that
    always answers resume: when the first invocation reports no session id the
    run ends on attempt 2 with status error and a single invocation; and when
    the judge's reasons are an object the run ends on attempt 1 with status
    error. *)
Lemma retry_ceiling_counterexample :
  (attempts (executeTaskWithRetry sampleEngine noSessionAgent alwaysResume
               (js "task") (js "auto") (js "judge") 3 60 []) = 2
   /\ finalStatus (executeTaskWithRetry sampleEngine noSessionAgent alwaysResume
                     (js "task") (js "auto") (js "judge") 3 60 []) = StatusError
   /\ length (filter isInvoked
                (trace sampleEngine noSessionAgent alwaysResume
                   (js "task") (js "auto") (js "judge") 3 60 [])) = 1
   /\ errorMessage (executeTaskWithRetry sampleEngine noSessionAgent alwaysResume
                      (js "task") (js "auto") (js "judge") 3 60 [])
      = Some str_no_session)
  /\ (attempts (executeTaskWithRetry sampleEngine steadyAgent objectReasons
                  (js "task") (js "auto") (js "judge") 3 60 []) = 1
      /\ finalStatus (executeTaskWithRetry sampleEngine steadyAgent objectReasons
                        (js "task") (js "auto") (js "judge") 3 60 []) = StatusError).
Proof. vm_compute. repeat split. Qed.

(** With ceiling 1 and a first invocation that exits with status 1, the judge
    is not asked, one record exists and the error message is set, but the
    reported status is partial, not error. *)
Lemma runtime_error_on_last_attempt :
  (forall jm summary,
     Judged 1 jm summary
       ∉ trace sampleEngine brokenAgent alwaysResume
           (js "task") (js "auto") (js "judge") 1 60 [])
  /\ attempts (executeTaskWithRetry sampleEngine brokenAgent alwaysResume
                 (js "task") (js "auto") (js "judge") 1 60 []) = 1
  /\ length (executions (executeTaskWithRetry sampleEngine brokenAgent alwaysResume
                           (js "task") (js "auto") (js "judge") 1 60 [])) = 1
  /\ is_Some (errorMessage (executeTaskWithRetry sampleEngine brokenAgent alwaysResume
                              (js "task") (js "auto") (js "judge") 1 60 []))
  /\ success (executeTaskWithRetry sampleEngine brokenAgent alwaysResume
                (js "task") (js "auto") (js "judge") 1 60 []) = false
  /\ finalStatus (executeTaskWithRetry sampleEngine brokenAgent alwaysResume
                    (js "task") (js "auto") (js "judge") 1 60 []) = StatusPartial.
Proof.
  destruct (runtime_error_short_circuit sampleEngine brokenAgent alwaysResume
              (js "task") (js "auto") (js "judge") 1 60 [] 1
              (CallInitial (js "task") (js "auto") [] 60)
              {| exitCode := 1; stdout := []; stderr := js "boom";
                 durationMs := 1000; sessionId := None |})
    as (H1 & H2 & H3 & H4 & H5 & H6).
  - vm_compute. apply list_elem_of_here.
  - reflexivity.
  - left. discriminate.
  - repeat split; try assumption. rewrite H4. by eexists.
Defined.

(** The same run with ceiling 2 is reported with status error. *)
Example runtime_error_below_the_ceiling :
  finalStatus (executeTaskWithRetry sampleEngine brokenAgent alwaysResume
                 (js "task") (js "auto") (js "judge") 2 60 []) = StatusError
  /\ attempts (executeTaskWithRetry sampleEngine brokenAgent alwaysResume
                 (js "task") (js "auto") (js "judge") 2 60 []) = 1.
Proof. vm_compute. split; reflexivity. Qed.

(** C5, as stated, fails: with ceiling 3 the first invocation times out and the
    run ends there; no second attempt is made although two remain. *)
Lemma timeout_counterexample :
  attempts (executeTaskWithRetry sampleEngine (invokeProcess true stuckChild)
              alwaysResume (js "task") (js "auto") (js "judge") 3 60 []) = 1
  /\ trace sampleEngine (invokeProcess true stuckChild) alwaysResume
       (js "task") (js "auto") (js "judge") 3 60 []
     = [Invoked 1 (CallInitial (js "task") (js "auto") [] 60)]
  /\ finalStatus (executeTaskWithRetry sampleEngine (invokeProcess true stuckChild)
                    alwaysResume (js "task") (js "auto") (js "judge") 3 60 [])
     = StatusError.
Proof. vm_compute. repeat split. Qed.

Lemma timeout_ends_the_run_witness :
  signalsSent true stuckChild 1 (CallInitial (js "task") (js "auto") [] 60) = [SIGTERM]
  /\ attempts (executeTaskWithRetry sampleEngine (invokeProcess true stuckChild)
                 alwaysResume (js "task") (js "auto") (js "judge") 3 60 []) = 1
  /\ errorMessage (executeTaskWithRetry sampleEngine (invokeProcess true stuckChild)
                     alwaysResume (js "task") (js "auto") (js "judge") 3 60 [])
     = Some (timeoutMessage 60).
Proof.
  destruct (timeout_ends_the_run sampleEngine true stuckChild alwaysResume
              (js "task") (js "auto") (js "judge") 3 60 [] 1
              (CallInitial (js "task") (js "auto") [] 60))
    as (H1 & _ & H3 & _ & _ & _ & H7 & _).
  - vm_compute. apply list_elem_of_here.
  - reflexivity.
  - repeat split; assumption.
Defined.

(** C6, as stated, fails: when the first invocation resolves cleanly without a
    session id and the judge answers resume, the report counts a second
    attempt, yet no invocation is issued on it: the only invocation of the run
    is the initial one, and the run ends with the message that no session id
    was found. *)
Lemma resume_counterexample :
  attempts (executeTaskWithRetry sampleEngine noSessionAgent alwaysResume
              (js "task") (js "auto") (js "judge") 3 60 []) = 2
  /\ trace sampleEngine noSessionAgent alwaysResume
       (js "task") (js "auto") (js "judge") 3 60 []
     = [Invoked 1 (CallInitial (js "task") (js "auto") [] 60);
        Judged 1 (js "judge") (js "working")]
  /\ (forall call,
        Invoked 2 call
          ∉ trace sampleEngine noSessionAgent alwaysResume
              (js "task") (js "auto") (js "judge") 3 60 [])
  /\ errorMessage (executeTaskWithRetry sampleEngine noSessionAgent alwaysResume
                     (js "task") (js "auto") (js "judge") 3 60 [])
     = Some str_no_session.
Proof.
  split; [reflexivity|]. split; [reflexivity|]. split; [|reflexivity].
  intros call Hin. vm_compute in Hin.
  apply elem_of_cons in Hin as [Hin | Hin]; [discriminate Hin|].
  apply list_elem_of_singleton in Hin. discriminate Hin.
Qed.

Lemma resume_follows_verdict_witness :
  (exists call,
     Invoked 2 call
       ∈ trace sampleEngine steadyAgent alwaysAuto
           (js "task") (js "auto") (js "judge") 2 60 [])
  /\ (exists sid prevCall prevResult summary,
    Invoked (2 - 1) prevCall
      ∈ trace sampleEngine steadyAgent alwaysAuto
          (js "task") (js "auto") (js "judge") 2 60 []
    /\ steadyAgent (2 - 1) prevCall = Resolved prevResult
    /\ Judged (2 - 1) (js "judge") summary
         ∈ trace sampleEngine steadyAgent alwaysAuto
             (js "task") (js "auto") (js "judge") 2 60 []
    /\ handleAfter prevCall prevResult = Some sid
    /\ truthy sid = true
    /\ CallResume (js "auto") (js "s1") str_apply_suggestion 60
       = CallResume (js "auto") sid
           (match result (alwaysAuto (2 - 1) (js "judge") summary) with
            | Auto => str_apply_suggestion
            | _ => str_please_continue
            end) 60
    /\ argv true (CallResume (js "auto") (js "s1") str_apply_suggestion 60)
       = [arg_model; js "auto"; arg_resume_eq ++ sid; arg_print;
          arg_output_format; arg_stream_json; arg_force;
          match result (alwaysAuto (2 - 1) (js "judge") summary) with
          | Auto => str_apply_suggestion
          | _ => str_please_continue
          end])
  /\ errorMessage (executeTaskWithRetry sampleEngine noSessionAgent alwaysResume
                     (js "task") (js "auto") (js "judge") 3 60 [])
     = Some str_no_session.
Proof.
  destruct (resume_follows_verdict sampleEngine steadyAgent alwaysAuto
              (js "task") (js "auto") (js "judge") 2 60 [] true) as (H1 & H2 & _).
  destruct (resume_follows_verdict sampleEngine noSessionAgent alwaysResume
              (js "task") (js "auto") (js "judge") 3 60 [] true) as (_ & _ & H3).
  split; [|split].
  3:{ destruct (H3 2 (CallInitial (js "task") (js "auto") [] 60)
                  {| exitCode := 0; stdout := js "working"; stderr := [];
                     durationMs := 1000; sessionId := None |})
        as (_ & _ & He & _).
      - split; [lia|]. vm_compute. lia.
      - vm_compute. apply list_elem_of_here.
      - reflexivity.
      - reflexivity.
      - exact He. }
  - apply (H1 2 (CallInitial (js "task") (js "auto") [] 60)
             {| exitCode := 0; stdout := js "working"; stderr := [];
                durationMs := 1000; sessionId := Some (js "s1") |}).
    + split; [lia|]. vm_compute. lia.
    + vm_compute. apply list_elem_of_here.
    + reflexivity.
    + reflexivity.
  - apply (H2 2 (CallResume (js "auto") (js "s1") str_apply_suggestion 60)).
    + lia.
    + vm_compute. do 2 apply list_elem_of_further. apply list_elem_of_here.
Defined.

End ControllerFacts.

(** ** The task queue *)
Module TaskQueueFacts.
Import Judge.
Import TaskQueue.
Local Open Scope nat_scope.

(** *** Validation *)

(** What is wrong with the task at position [i] of [tasks]. *)
Definition defective (E : Engine) (tasks : list value) (i : nat) (task : value)
  : Prop :=
  truthyProp (getProp task key_name) = false
  \/ (exists j earlier name name',
        j < i /\ tasks !! j = Some earlier
        /\ getProp earlier key_name = Some name'
        /\ getProp task key_name = Some name
        /\ sameValueZero E name name' = true)
  \/ getProp task key_id = None
  \/ getProp task key_id = Some JNull
  \/ (exists id taskId,
        getProp task key_id = Some id
        /\ normalizedId E id = Some taskId
        /\ (taskId = [] \/ 255 < length taskId))
  \/ (exists j earlier id id' taskId,
        j < i /\ tasks !! j = Some earlier
        /\ getProp earlier key_id = Some id'
        /\ getProp task key_id = Some id
        /\ normalizedId E id = Some taskId
        /\ normalizedId E id' = Some taskId)
  \/ (hasPrompt task = false /\ hasSpecFile task = false).

(** The names and ids collected from the tasks checked so far. *)
Definition collected (E : Engine) (checked : list value)
    (names : list value) (ids : gset jsstring) : Prop :=
  (forall earlier name,
     earlier ∈ checked -> getProp earlier key_name = Some name -> name ∈ names)
  /\ (forall earlier id,
        earlier ∈ checked -> getProp earlier key_id = Some id ->
        exists taskId, normalizedId E id = Some taskId /\ taskId ∈ ids).

Lemma hasValue_elem (E : Engine) (names : list value) (name name' : value) :
  name' ∈ names -> sameValueZero E name name' = true ->
  hasValue E names name = true.
Proof.
  intros Hin Hs. unfold hasValue. apply existsb_exists.
  exists name'. split; [by apply list_elem_of_In | done].
Qed.

Lemma checkTask_defective (E : Engine) (checked rest : list value)
    (names : list value) (ids : gset jsstring) (task : value) :
  collected E checked names ids ->
  defective E (checked ++ task :: rest) (length checked) task ->
  exists e, checkTask E names ids task = inl e.
Proof.
  intros [Hnames Hids] Hdef.
  assert (Hearlier : forall j earlier,
            j < length checked -> (checked ++ task :: rest) !! j = Some earlier ->
            earlier ∈ checked).
  { intros j earlier Hj Hl. rewrite lookup_app_l in Hl by done.
    by apply list_elem_of_lookup_2 in Hl. }
  unfold checkTask.
  destruct (isNull task); [by eexists|].
  destruct (getProp task key_name) as [name|] eqn:Hn; [|by eexists].
  destruct (truthyValue name) eqn:Ht; simpl; [|by eexists].
  destruct (hasValue E names name) eqn:Hh; [by eexists|].
  destruct (getProp task key_id) as [id|] eqn:Hi; [|by eexists].
  destruct (isNull id) eqn:Hnull; [by eexists|].
  unfold checkFromId.
  destruct (normalizedId E id) as [taskId|] eqn:Hid; [|by eexists].
  destruct (length taskId =? 0) eqn:H0; [by eexists|].
  destruct (255 <? length taskId) eqn:H255; [by eexists|].
  apply Nat.eqb_neq in H0. apply Nat.ltb_ge in H255.
  unfold defective in Hdef. rewrite Hn, Hi in Hdef.
  destruct Hdef as [Hd | [Hd | [Hd | [Hd | [Hd | [Hd | Hd]]]]]].
  - simpl in Hd. congruence.
  - destruct Hd as (j & earlier & nm & nm' & Hj & Hl & Hen & Htn & Hs).
    injection Htn as <-.
    rewrite (hasValue_elem E names name nm') in Hh; [done | | done].
    apply (Hnames earlier); [by apply (Hearlier j) | done].
  - congruence.
  - injection Hd as ->. discriminate Hnull.
  - destruct Hd as (id' & taskId' & Hid' & Hnid & Hlen). injection Hid' as <-.
    rewrite Hid in Hnid. injection Hnid as <-.
    exfalso. destruct Hlen as [-> | Hlen]; [simpl in H0 |]; lia.
  - destruct Hd as (j & earlier & id1 & id' & taskId' & Hj & Hl & Hei & Hti & Hs & Hs').
    injection Hti as <-. rewrite Hid in Hs. injection Hs as <-.
    rewrite bool_decide_eq_true_2; [by eexists|].
    destruct (Hids earlier id') as (t & Ht' & Hin); [by apply (Hearlier j) | done |].
    congruence.
  - destruct Hd as [Hp Hs].
    destruct (bool_decide _); [by eexists|].
    rewrite Hp, Hs. by eexists.
Qed.

Lemma checkTask_collected (E : Engine) (checked : list value)
    (names names' : list value) (ids ids' : gset jsstring) (task : value) :
  collected E checked names ids ->
  checkTask E names ids task = inr (names', ids') ->
  collected E (checked ++ [task]) names' ids'.
Proof.
  intros [Hnames Hids]. unfold checkTask.
  destruct (isNull task); [done|].
  destruct (getProp task key_name) as [name|] eqn:Hn; [|done].
  destruct (negb (truthyValue name)); [done|].
  destruct (hasValue E names name); [done|].
  destruct (getProp task key_id) as [id|] eqn:Hi; [|done].
  destruct (isNull id); [done|].
  unfold checkFromId.
  destruct (normalizedId E id) as [taskId|] eqn:Hid; [|done].
  destruct (length taskId =? 0); [done|].
  destruct (255 <? length taskId); [done|].
  destruct (bool_decide _); [done|].
  destruct (negb (hasPrompt task) && negb (hasSpecFile task)); [done|].
  destruct (checkSpecFile name task); [done|].
  intros [= <- <-]. split.
  - intros earlier nm Hin Hnm. apply elem_of_app in Hin as [Hin | Hin].
    + apply elem_of_app. left. by apply (Hnames earlier).
    + apply list_elem_of_singleton in Hin as ->.
      rewrite Hn in Hnm. injection Hnm as <-.
      apply elem_of_app. right. by apply list_elem_of_singleton.
  - intros earlier i Hin Hgi. apply elem_of_app in Hin as [Hin | Hin].
    + destruct (Hids earlier i Hin Hgi) as (t & Ht & Hint).
      exists t. split; [done|]. apply elem_of_union. by right.
    + apply list_elem_of_singleton in Hin as ->.
      rewrite Hi in Hgi. injection Hgi as <-.
      exists taskId. split; [done|].
      apply elem_of_union. left. by apply elem_of_singleton.
Qed.

Lemma checkTasks_defective (E : Engine) (rest checked : list value)
    (names : list value) (ids : gset jsstring) :
  collected E checked names ids ->
  (exists i task,
     rest !! i = Some task
     /\ defective E (checked ++ rest) (length checked + i) task) ->
  is_Some (checkTasks E names ids rest).
Proof.
  revert checked names ids.
  induction rest as [|task rest IH]; intros checked names ids Hc (i & t & Hl & Hd).
  - by rewrite lookup_nil in Hl.
  - simpl. destruct i as [|i].
    + simpl in Hl. injection Hl as <-. rewrite Nat.add_0_r in Hd.
      destruct (checkTask_defective E checked rest names ids task Hc Hd) as [e ->].
      by eexists.
    + destruct (checkTask E names ids task) as [e | [names' ids']] eqn:Hk;
        [by eexists|].
      apply (IH (checked ++ [task])).
      * by apply (checkTask_collected E checked names names' ids ids' task).
      * exists i, t. split; [done|].
        rewrite <- app_assoc, length_app. simpl.
        by replace (length checked + 1 + i) with (length checked + S i) by lia.
Qed.


(** A queue file with one task whose id is the letter a followed by 255 spaces. *)
Definition paddedTask : value :=
  JObj [(key_name, JStr (js "t"));
        (key_id, JStr (js "a" ++ replicate 255 32%N));
        (key_prompt, JStr (js "do it"));
        (key_status, JStr status_pending)].

Definition paddedFile : value :=
  JObj [(key_prompts, JArr []); (key_tasks, JArr [paddedTask])].

(** A queue file whose second task repeats the id of the first. *)
Definition repeatedIdFile : value :=
  JObj [(key_prompts, JArr []);
        (key_tasks,
         JArr [JObj [(key_name, JStr (js "a")); (key_id, JStr (js "1"));
                     (key_prompt, JStr (js "do it"))];
               JObj [(key_name, JStr (js "b")); (key_id, JStr (js " 1 "));
                     (key_prompt, JStr (js "do that"))]])].



(** An id that is an object with a member named [toString] has no string form:
    [String(task.id)] raises a TypeError and the run ends there. *)
Example validation_no_string_form :
  run_all_tasks JudgeFacts.sampleEngine
    (JObj [(key_prompts, JArr []);
           (key_tasks,
            JArr [JObj [(key_name, JStr (js "a"));
                        (key_id, JObj [(js "toString", JNum {| neg := false; mant := 1; exp10 := 0 |})]);
                        (key_prompt, JStr (js "do it"))]])])
  = Aborted NoStringForm.
Proof. vm_compute. reflexivity. Qed.

(** A valid queue file without a [prompts] array: the run ends on a TypeError
    before any task is executed. *)
Example run_without_prompts :
  validate_config JudgeFacts.sampleEngine (JObj [(key_tasks, JArr [paddedTask])]) = None
  /\ run_all_tasks JudgeFacts.sampleEngine (JObj [(key_tasks, JArr [paddedTask])])
     = PromptsUnreadable.
Proof. vm_compute. split; reflexivity. Qed.

(** *** Status updates *)

Lemma lookup_deleteMember (k : jsstring) (members : list (jsstring * value)) :
  lookupMember k (deleteMember k members) = None.
Proof.
  unfold deleteMember. induction members as [|[k' v] members IH]; [done|].
  rewrite filter_cons. simpl.
  destruct (decide (streq k k' = false)) as [Hk | Hk]; [|done].
  simpl. by rewrite Hk.
Qed.

Lemma lookup_setMember_ne (k k' : jsstring) (v : value)
    (members : list (jsstring * value)) :
  k <> k' ->
  lookupMember k (setMember k' v members) = lookupMember k members.
Proof.
  intros Hne. induction members as [|[k1 v1] members IH]; simpl.
  - destruct (streq k k') eqn:Hk; [|done]. by apply streq_true in Hk.
  - destruct (streq k' k1) eqn:Hk1; simpl.
    + apply streq_true in Hk1 as <-.
      destruct (streq k k') eqn:Hk; [|done]. by apply streq_true in Hk.
    + destruct (streq k k1); [done | exact IH].
Qed.

Lemma lookup_setMember_eq (k : jsstring) (v : value)
    (members : list (jsstring * value)) :
  lookupMember k (setMember k v members) = Some v.
Proof.
  induction members as [|[k1 v1] members IH]; simpl.
  - by rewrite (proj2 (streq_true k k) eq_refl).
  - destruct (streq k k1) eqn:Hk1; simpl.
    + by rewrite (proj2 (streq_true k k) eq_refl).
    + by rewrite Hk1.
Qed.

(** A task marked without an error message and with a status other than
    error has no error message afterwards. *)
Lemma markTask_clears_error (status : jsstring) (errorMessage reportPath : option jsstring)
    (members : list (jsstring * value)) :
  status <> status_error ->
  truthy_opt errorMessage = false ->
  lookupMember key_error_message (markTask status errorMessage reportPath members)
  = None.
Proof.
  intros Hs He. unfold markTask.
  assert (Hne : streq status status_error = false).
  { destruct (streq status status_error) eqn:H; [|done]. by apply streq_true in H. }
  assert (Hm : lookupMember key_error_message
                 (match errorMessage with
                  | Some (c :: msg) =>
                      setMember key_error_message (JStr (c :: msg))
                        (setMember key_status (JStr status) members)
                  | _ => if negb (streq status status_error)
                         then deleteMember key_error_message
                                (setMember key_status (JStr status) members)
                         else setMember key_status (JStr status) members
                  end) = None).
  { destruct errorMessage as [[|c msg]|]; try discriminate He;
      rewrite Hne; simpl; apply lookup_deleteMember. }
  destruct reportPath as [[|c p]|]; try exact Hm.
  by rewrite lookup_setMember_ne.
Qed.

Lemma markTask_status (status : jsstring) (errorMessage reportPath : option jsstring)
    (members : list (jsstring * value)) :
  lookupMember key_name (markTask status errorMessage reportPath members)
  = lookupMember key_name members.
Proof.
  unfold markTask.
  assert (H1 : lookupMember key_name (setMember key_status (JStr status) members)
               = lookupMember key_name members)
    by by apply lookup_setMember_ne.
  assert (Hdel : forall m, lookupMember key_name (deleteMember key_error_message m)
                           = lookupMember key_name m).
  { intros m. unfold deleteMember. induction m as [|[k v] m IH]; [done|].
    rewrite filter_cons. simpl.
    destruct (decide (streq key_error_message k = false)) as [Hk | Hk]; simpl.
    - by rewrite IH.
    - destruct (streq key_error_message k) eqn:Hk'; [|done].
      apply streq_true in Hk' as <-. by rewrite IH. }
  assert (H2 : lookupMember key_name
                 (match errorMessage with
                  | Some (c :: msg) =>
                      setMember key_error_message (JStr (c :: msg))
                        (setMember key_status (JStr status) members)
                  | _ => if negb (streq status status_error)
                         then deleteMember key_error_message
                                (setMember key_status (JStr status) members)
                         else setMember key_status (JStr status) members
                  end) = lookupMember key_name members).
  { destruct errorMessage as [[|c msg]|];
      try (destruct (negb (streq status status_error)); by rewrite ?Hdel, H1).
    by rewrite lookup_setMember_ne. }
  destruct reportPath as [[|c p]|]; try exact H2.
  by rewrite lookup_setMember_ne.
Qed.

Lemma update_task_status_no_match (tasks : list value) (taskName status : jsstring)
    (errorMessage reportPath : option jsstring) :
  (forall t, t ∈ tasks -> nameIs taskName t = false) ->
  update_task_status tasks taskName status errorMessage reportPath = tasks.
Proof.
  induction tasks as [|t tasks IH]; intros H; [done|].
  assert (IH' := IH (fun u Hu => H u (list_elem_of_further _ _ _ Hu))).
  destruct t as [ | b | n | s | items | members]; simpl;
    try done; try by rewrite IH'.
  rewrite (H (JObj members)) by apply list_elem_of_here. by rewrite IH'.
Qed.

(** The search stops at the first task with the name: only that task is
    replaced, by the task as marked. *)
Lemma update_task_status_match (before after : list value)
    (members : list (jsstring * value)) (taskName status : jsstring)
    (errorMessage reportPath : option jsstring) :
  (forall t, t ∈ before -> nameIs taskName t = false /\ t <> JNull) ->
  nameIs taskName (JObj members) = true ->
  update_task_status (before ++ JObj members :: after) taskName status
    errorMessage reportPath
  = before ++ JObj (markTask status errorMessage reportPath members) :: after.
Proof.
  intros Hb Hm. induction before as [|t before IH]; simpl.
  - by rewrite Hm.
  - assert (IH' := IH (fun u Hu => Hb u (list_elem_of_further _ _ _ Hu))).
    destruct (Hb t (list_elem_of_here _ _)) as [Hn Hnull].
    destruct t as [ | b | n | s | items | members']; try done; try by rewrite IH'.
    by rewrite Hn, IH'.
Qed.

Lemma update_task_status_at_most_one (tasks : list value) (taskName status : jsstring)
    (errorMessage reportPath : option jsstring) :
  update_task_status tasks taskName status errorMessage reportPath = tasks
  \/ exists before members after,
       tasks = before ++ JObj members :: after
       /\ (forall t, t ∈ before -> nameIs taskName t = false /\ t <> JNull)
       /\ nameIs taskName (JObj members) = true
       /\ update_task_status tasks taskName status errorMessage reportPath
          = before ++ JObj (markTask status errorMessage reportPath members) :: after.
Proof.
  induction tasks as [|t tasks IH]; [by left|].
  assert (Hstep : nameIs taskName t = false -> t <> JNull ->
            update_task_status (t :: tasks) taskName status errorMessage reportPath
            = t :: update_task_status tasks taskName status errorMessage reportPath).
  { intros Hn Hnull. destruct t as [ | b | n | s | items | members]; try done.
    simpl. by rewrite Hn. }
  assert (Hcases : t = JNull \/ t <> JNull) by (destruct t; [by left | by right ..]).
  destruct Hcases as [-> | Hnull]; [by left|].
  destruct (nameIs taskName t) eqn:Hn.
  - right. destruct t as [ | b | n | s | items | members]; try discriminate Hn.
    exists [], members, tasks.
    split; [done|]. split; [|split; [done|]].
    + intros u Hu. by apply not_elem_of_nil in Hu.
    + simpl. by rewrite Hn.
  - rewrite (Hstep eq_refl Hnull).
    destruct IH as [-> | (before & members & after & -> & Hb & Hm & ->)]; [by left|].
    right. exists (t :: before), members, after.
    split; [done|]. split; [|split; [done | done]].
    intros u Hu. apply elem_of_cons in Hu as [-> | Hu]; [done | by apply Hb].
Qed.

(** C9. [update_task_status] changes at most one entry of the task array, the
    first task whose name is the given one, and leaves every other entry as it
    was; when no task has the name the array is unchanged. When the new status
    is not error and no error message is given, the task found has no
    [error_message] afterwards, so a task just marked done carries no stale
    one. *)
Theorem update_task_status_frame
    (tasks : list value) (taskName status : jsstring)
    (errorMessage reportPath : option jsstring) :
  length (update_task_status tasks taskName status errorMessage reportPath)
  = length tasks
  /\ (forall i j,
        update_task_status tasks taskName status errorMessage reportPath !! i
        <> tasks !! i ->
        update_task_status tasks taskName status errorMessage reportPath !! j
        <> tasks !! j ->
        i = j)
  /\ (forall i,
        update_task_status tasks taskName status errorMessage reportPath !! i
        <> tasks !! i ->
        exists t, tasks !! i = Some t /\ nameIs taskName t = true)
  /\ ((forall t, t ∈ tasks -> nameIs taskName t = false) ->
      update_task_status tasks taskName status errorMessage reportPath = tasks)
  /\ (forall before members after,
        tasks = before ++ JObj members :: after ->
        (forall t, t ∈ before -> nameIs taskName t = false /\ t <> JNull) ->
        nameIs taskName (JObj members) = true ->
        exists marked,
          update_task_status tasks taskName status errorMessage reportPath
          = before ++ JObj marked :: after
          /\ getProp (JObj marked) key_status = Some (JStr status)
          /\ (status <> status_error -> truthy_opt errorMessage = false ->
              getProp (JObj marked) key_error_message = None)).
Proof.
  assert (Hone : forall i,
            update_task_status tasks taskName status errorMessage reportPath !! i
            <> tasks !! i ->
            exists before members after,
              tasks = before ++ JObj members :: after
              /\ i = length before
              /\ nameIs taskName (JObj members) = true
              /\ (forall t, t ∈ before -> nameIs taskName t = false /\ t <> JNull)).
  { intros i Hi.
    destruct (update_task_status_at_most_one tasks taskName status errorMessage
                reportPath) as [Heq | (before & members & after & Ht & Hb & Hm & Hu)].
    - by rewrite Heq in Hi.
    - exists before, members, after. repeat split; try done; try by apply Hb.
      rewrite Hu, Ht in Hi.
      destruct (Nat.lt_trichotomy i (length before)) as [Hlt | [-> | Hgt]]; [| done |].
      + by rewrite !lookup_app_l in Hi by done.
      + rewrite !lookup_app_r in Hi by lia.
        destruct (i - length before) as [|n] eqn:Hn; [lia|]. done. }
  split; [|split; [|split; [|split]]].
  - destruct (update_task_status_at_most_one tasks taskName status errorMessage
                reportPath) as [-> | (before & members & after & -> & _ & _ & ->)];
      [done|]. by rewrite !length_app.
  - intros i j Hi Hj.
    destruct (Hone i Hi) as (b1 & m1 & a1 & Ht1 & -> & Hm1 & Hb1).
    destruct (Hone j Hj) as (b2 & m2 & a2 & Ht2 & -> & Hm2 & Hb2).
    destruct (Nat.lt_trichotomy (length b1) (length b2)) as [Hlt | [Heq | Hgt]];
      [exfalso | done | exfalso].
    + assert (Hin : JObj m1 ∈ b2).
      { apply (list_elem_of_lookup_2 _ (length b1)).
        assert (Hl : tasks !! length b1 = Some (JObj m1)).
        { rewrite Ht1. by rewrite lookup_app_r, Nat.sub_diag by lia. }
        rewrite Ht2, lookup_app_l in Hl by done. done. }
      destruct (Hb2 _ Hin) as [Hf _]. congruence.
    + assert (Hin : JObj m2 ∈ b1).
      { apply (list_elem_of_lookup_2 _ (length b2)).
        assert (Hl : tasks !! length b2 = Some (JObj m2)).
        { rewrite Ht2. by rewrite lookup_app_r, Nat.sub_diag by lia. }
        rewrite Ht1, lookup_app_l in Hl by done. done. }
      destruct (Hb1 _ Hin) as [Hf _]. congruence.
  - intros i Hi. destruct (Hone i Hi) as (b & m & a & -> & -> & Hm & _).
    exists (JObj m). split; [|done].
    by rewrite lookup_app_r, Nat.sub_diag by lia.
  - apply update_task_status_no_match.
  - intros before members after -> Hb Hm.
    exists (markTask status errorMessage reportPath members).
    split; [by apply update_task_status_match|]. split.
    + simpl. unfold markTask.
      assert (H1 : forall m, lookupMember key_status m = Some (JStr status) ->
                lookupMember key_status
                  (match reportPath with
                   | Some (c :: p) => setMember key_report (JStr (c :: p)) m
                   | _ => m
                   end) = Some (JStr status)).
      { intros m Hl. destruct reportPath as [[|c p]|]; try done.
        by rewrite lookup_setMember_ne. }
      apply H1.
      assert (Hdel : forall m, lookupMember key_status (deleteMember key_error_message m)
                               = lookupMember key_status m).
      { intros m. unfold deleteMember. induction m as [|[k v] m IH]; [done|].
        rewrite filter_cons. simpl.
        destruct (decide (streq key_error_message k = false)) as [Hk | Hk]; simpl.
        - by rewrite IH.
        - destruct (streq key_error_message k) eqn:Hk'; [|done].
          apply streq_true in Hk' as <-. by rewrite IH. }
      destruct errorMessage as [[|c msg]|];
        try (destruct (negb (streq status status_error));
             by rewrite ?Hdel, lookup_setMember_eq).
      by rewrite lookup_setMember_ne, lookup_setMember_eq.
    + intros Hs He. simpl. by apply markTask_clears_error.
Qed.

(** Two tasks, the second with a stale error message. *)
Definition twoTasks : list value :=
  [JObj [(key_name, JStr (js "a")); (key_status, JStr status_done)];
   JObj [(key_name, JStr (js "b")); (key_status, JStr status_error);
         (key_error_message, JStr (js "it broke"))]].

Lemma update_task_status_frame_witness :
  exists marked,
    update_task_status twoTasks (js "b") status_done None (Some (js "r.md"))
    = [JObj [(key_name, JStr (js "a")); (key_status, JStr status_done)]]
      ++ JObj marked :: []
    /\ getProp (JObj marked) key_status = Some (JStr status_done)
    /\ getProp (JObj marked) key_error_message = None.
Proof.
  destruct (update_task_status_frame twoTasks (js "b") status_done None
              (Some (js "r.md"))) as (_ & _ & _ & _ & H).
  destruct (H [JObj [(key_name, JStr (js "a")); (key_status, JStr status_done)]]
              [(key_name, JStr (js "b")); (key_status, JStr status_error);
               (key_error_message, JStr (js "it broke"))] [])
    as (marked & Hu & Hst & Herr).
  - reflexivity.
  - intros t Ht. apply list_elem_of_singleton in Ht as ->. split; [reflexivity | discriminate].
  - reflexivity.
  - exists marked. split; [exact Hu|]. split; [exact Hst|].
    apply Herr; [discriminate | reflexivity].
Defined.

End TaskQueueFacts.

(** ** The stream filter on whole streams *)
Module StreamProps.
Import StreamFilter.
Import Framing.
Import StreamViews.

(** *** Lines and chunks *)

Lemma splitLines_cons (c : N) (r cur : jsstring) :
  splitLines (c :: r) cur
  = if c =? 10 then reverse cur :: splitLines r []
    else if (c =? 13) && startsWithLF r then reverse cur :: splitLines (tail r) []
    else splitLines r (c :: cur).
Proof.
  destruct (N.eqb_spec c 10) as [-> | H10]; [reflexivity|].
  destruct (N.eqb_spec c 13) as [-> | H13].
  - destruct r as [|d r]; [reflexivity|]. simpl.
    destruct (N.eqb_spec d 10) as [-> | Hd]; [reflexivity|].
    do 5 (try destruct d as [|d]; try destruct d as [d|d|]; try reflexivity; try congruence).
  - simpl.
    do 5 (try destruct c as [|c]; try destruct c as [c|c|]; try reflexivity; try congruence).
Qed.

#[local] Arguments splitLines : simpl never.

Lemma splitLines_nil (cur : jsstring) : splitLines [] cur = [reverse cur].
Proof. reflexivity. Qed.

(* the current line only ever goes in front of the first line *)
Lemma splitLines_cur (t cur : jsstring) :
  splitLines t cur
  = (reverse cur ++ default [] (head (splitLines t []))) :: tail (splitLines t []).
Proof.
  assert (G : forall n (t cur : jsstring), (length t <= n)%nat ->
    splitLines t cur
    = (reverse cur ++ default [] (head (splitLines t []))) :: tail (splitLines t [])).
  { induction n as [|n IH]; intros t' cur' Hn; (destruct t' as [|c r];
      [rewrite !splitLines_nil; simpl; by rewrite app_nil_r|]); simpl in Hn; [lia|].
    rewrite !splitLines_cons.
    destruct (c =? 10); [simpl; by rewrite app_nil_r|].
    destruct ((c =? 13) && startsWithLF r); [simpl; by rewrite app_nil_r|].
    rewrite (IH r (c :: cur')) by lia.
    rewrite (IH r [c]) by lia.
    simpl. by rewrite reverse_cons, <- app_assoc. }
  by apply (G (length t)).
Qed.

Lemma splitLines_nonempty (t cur : jsstring) : splitLines t cur <> [].
Proof. by rewrite splitLines_cur. Qed.

Lemma splitLines_app (x y : jsstring) :
  splitLines (x ++ y) []
  = removelast (splitLines x [])
    ++ splitLines (List.last (splitLines x []) [] ++ y) [].
Proof.
  assert (G : forall n (x : jsstring), (length x <= n)%nat ->
    splitLines (x ++ y) []
    = removelast (splitLines x [])
      ++ splitLines (List.last (splitLines x []) [] ++ y) []).
  { induction n as [|n IH]; intros x' Hn; (destruct x' as [|c r]; [done|]);
      simpl in Hn; [lia|].
    change ((c :: r) ++ y) with (c :: (r ++ y)).
    rewrite (splitLines_cons c (r ++ y)), (splitLines_cons c r).
    destruct (N.eqb_spec c 10) as [-> | H10].
    { rewrite (IH r) by lia.
      pose proof (splitLines_nonempty r []) as Hne.
      destruct (splitLines r []) as [|l ls] eqn:E; [done|]. reflexivity. }
    destruct (N.eqb_spec c 13) as [-> | H13]; simpl andb.
    - destruct r as [|d r'].
      + simpl startsWithLF at 2. cbn [app tail].
        rewrite splitLines_nil. simpl.
        rewrite (splitLines_cons 13 y []). simpl.
        by destruct (startsWithLF y).
      + change ((d :: r') ++ y) with (d :: (r' ++ y)).
        simpl startsWithLF. destruct (d =? 10) eqn:Hd.
        * cbn [tail]. rewrite (IH r') by (simpl in Hn; lia).
          pose proof (splitLines_nonempty r' []) as Hne.
          destruct (splitLines r' []) as [|l ls] eqn:E; [done|]. reflexivity.
        * rewrite (splitLines_cur (d :: r' ++ y) [13]), (splitLines_cur (d :: r') [13]).
          change (d :: r' ++ y) with ((d :: r') ++ y).
          rewrite (IH (d :: r')) by lia.
          pose proof (splitLines_nonempty (d :: r') []) as Hne.
          destruct (splitLines (d :: r') []) as [|l ls] eqn:E; [done|].
          simpl reverse. destruct ls as [|l2 ls].
          -- simpl. rewrite (splitLines_cons 13). simpl.
             assert (Hl : startsWithLF (l ++ y) = false).
             { rewrite splitLines_cons, Hd in E.
               destruct ((d =? 13) && startsWithLF r').
               - injection E as _ E. by apply splitLines_nonempty in E.
               - rewrite splitLines_cur in E. injection E as <- _. simpl. exact Hd. }
             rewrite Hl. by rewrite (splitLines_cur (l ++ y) [13]).
          -- reflexivity.
    - rewrite (splitLines_cur (r ++ y) [c]), (splitLines_cur r [c]).
      rewrite (IH r) by lia.
      pose proof (splitLines_nonempty r []) as Hne.
      destruct (splitLines r []) as [|l ls] eqn:E; [done|].
      simpl reverse. destruct ls as [|l2 ls].
      + simpl. rewrite (splitLines_cons c).
        apply N.eqb_neq in H10, H13. rewrite H10, H13. simpl.
        by rewrite (splitLines_cur (l ++ y) [c]).
      + reflexivity. }
  by apply (G (length x)).
Qed.

Lemma last_app_nonempty {A} (l l' : list A) (d : A) :
  l' <> [] -> List.last (l ++ l') d = List.last l' d.
Proof.
  intros H. induction l as [|a l IH]; [done|].
  simpl. destruct (l ++ l') eqn:E; [|exact IH].
  apply app_eq_nil in E as [_ E]. done.
Qed.

Lemma chunks_lines (pre : jsstring) (chunks : list jsstring) :
  removelast (splitLines pre [])
  ++ completeLines (List.last (splitLines pre []) []) chunks
  = removelast (splitLines (pre ++ concat chunks) [])
  /\ lastBuffer (List.last (splitLines pre []) []) chunks
     = List.last (splitLines (pre ++ concat chunks) []) [].
Proof.
  revert pre. induction chunks as [|chunk rest IH]; intros pre.
  - simpl. by rewrite !app_nil_r.
  - cbn [completeLines lastBuffer concat]. unfold takeLines. cbn [fst snd].
    pose proof (splitLines_app pre chunk) as Happ.
    pose proof (splitLines_nonempty (List.last (splitLines pre []) [] ++ chunk) []) as Hne.
    destruct (IH (pre ++ chunk)) as [I1 I2].
    rewrite Happ in I1, I2.
    rewrite removelast_app in I1 by done.
    rewrite last_app_nonempty in I1, I2 by done.
    rewrite <- !app_assoc in *. by split.
Qed.

Lemma completeLines_concat (chunks : list jsstring) :
  completeLines [] chunks = removelast (splitLines (concat chunks) [])
  /\ lastBuffer [] chunks = List.last (splitLines (concat chunks) []) [].
Proof. apply (chunks_lines [] chunks). Qed.

(** X1. How the stream is cut into chunks does not matter: the filter does on
    the chunks what it does on their concatenation handed over at once. *)
Theorem chunking_is_immaterial (chunks : list jsstring) :
  pipeThroughAssistantFilter chunks = pipeThroughAssistantFilter [concat chunks].
Proof.
  rewrite !StreamFilterFacts.pipeThroughAssistantFilter_run.
  destruct (completeLines_concat chunks) as [-> ->].
  destruct (completeLines_concat [concat chunks]) as [-> ->].
  simpl. by rewrite app_nil_r.
Qed.

(** *** Session ids *)

Lemma sessionCallbacks_app (a b : list Output) :
  sessionCallbacks (a ++ b) = sessionCallbacks a ++ sessionCallbacks b.
Proof. apply omap_app. Qed.

Lemma stepSessionId_session (cur : option jsstring) (d : Decoded) :
  (stepSessionId cur (d_sessionId d)).1 = latest (omap sessionOf [d]) cur
  /\ (forall s, s ∈ sessionCallbacks (stepSessionId cur (d_sessionId d)).2 ->
      sessionOf d = Some s)
  /\ (forall o, o ∈ (stepSessionId cur (d_sessionId d)).2 -> exists s, o = OnSessionId s).
Proof.
  unfold stepSessionId, sessionOf, latest. simpl.
  destruct (d_sessionId d) as [e|]; simpl.
  2:{ repeat split; intros ? H; by apply not_elem_of_nil in H. }
  destruct (truthy e) eqn:Ht; simpl.
  2:{ repeat split; intros ? H; by apply not_elem_of_nil in H. }
  destruct (negb (truthy_opt cur) || negb (bool_decide (Some e = cur))) eqn:Hc; simpl.
  - repeat split.
    + intros s H. apply list_elem_of_singleton in H. by subst.
    + intros o H. apply list_elem_of_singleton in H. by eexists.
  - apply orb_false_iff in Hc as [_ Hc]. apply negb_false_iff in Hc.
    apply bool_decide_eq_true in Hc as <-.
    repeat split; intros ? H; by apply not_elem_of_nil in H.
Qed.

Lemma userStage_session (st : State) (u : option jsstring) :
  sessionId (userStage st u).1 = sessionId st
  /\ sessionCallbacks (userStage st u).2 = [].
Proof.
  unfold userStage. destruct u as [u|]; [|done].
  destruct (textGuard u); [|done].
  by destruct (diffUser _ u) as [[f|] l].
Qed.

Lemma assistantStage_session (st : State) (t : jsstring) :
  sessionId (assistantStage st t).1 = sessionId st
  /\ sessionCallbacks (assistantStage st t).2 = [].
Proof.
  unfold assistantStage, diffStage. destruct (textGuard _); [|done].
  by destruct (diffAssistant _ _) as [[f|] l].
Qed.

Lemma latest_app (a b : list jsstring) (cur : option jsstring) :
  latest (a ++ b) cur = latest b (latest a cur).
Proof. unfold latest. rewrite last_app. by destruct (last b). Qed.

Lemma handleObject_session (st : State) (d : Decoded) :
  sessionId (handleObject st d).1 = latest (omap sessionOf [d]) (sessionId st)
  /\ (forall s, s ∈ sessionCallbacks (handleObject st d).2 -> sessionOf d = Some s).
Proof.
  unfold handleObject.
  destruct (stepSessionId_session (sessionId st) d) as (H1 & H2 & _).
  destruct (stepSessionId (sessionId st) (d_sessionId d)) as [sid o1].
  simpl in H1, H2.
  match goal with |- context [userStage ?s ?u] =>
    destruct (userStage_session s u) as [U1 U2];
    destruct (userStage s u) as [st2 o2] end.
  match goal with |- context [assistantStage ?s ?u] =>
    destruct (assistantStage_session s u) as [A1 A2];
    destruct (assistantStage s u) as [st3 o3] end.
  simpl in *. split; [congruence|].
  intros s. rewrite !sessionCallbacks_app, U2, A2, !app_nil_r. apply H2.
Qed.

Lemma feed_session (st : State) (ds : list Decoded) :
  sessionId (feed st ds).1 = latest (omap sessionOf ds) (sessionId st)
  /\ (forall s, s ∈ sessionCallbacks (feed st ds).2 -> s ∈ omap sessionOf ds).
Proof.
  revert st. induction ds as [|d ds IH]; intros st.
  - split; [done|]. intros s H. by apply not_elem_of_nil in H.
  - simpl feed.
    destruct (handleObject_session st d) as [H1 H2].
    destruct (handleObject st d) as [st1 o1].
    destruct (IH st1) as [I1 I2].
    destruct (feed st1 ds) as [st2 o2]. cbn [fst snd] in *.
    change (d :: ds) with ([d] ++ ds). rewrite omap_app. split.
    + rewrite latest_app. by rewrite I1, H1.
    + intros s. rewrite sessionCallbacks_app, !elem_of_app.
      intros [H | H]; [left | right; by apply I2].
      apply H2 in H. cbn [omap list_omap]. rewrite H. apply list_elem_of_here.
Qed.

Lemma feedResidual_session (sid : option jsstring) (ds : list Decoded) :
  (feedResidual sid ds).1 = latest (omap sessionOf ds) sid
  /\ (forall s, s ∈ sessionCallbacks (feedResidual sid ds).2 -> s ∈ omap sessionOf ds).
Proof.
  revert sid. induction ds as [|d ds IH]; intros sid.
  - split; [done|]. intros s H. by apply not_elem_of_nil in H.
  - simpl feedResidual. unfold handleResidual.
    destruct (stepSessionId_session sid d) as (H1 & H2 & _).
    destruct (stepSessionId sid (d_sessionId d)) as [sid1 o1].
    destruct (IH sid1) as [I1 I2].
    destruct (feedResidual sid1 ds) as [sid2 o2]. cbn [fst snd] in *.
    change (d :: ds) with ([d] ++ ds). rewrite omap_app. split.
    + rewrite latest_app. by rewrite I1, H1.
    + intros s. rewrite !sessionCallbacks_app, !elem_of_app.
      intros [[H | H] | H].
      * left. apply H2 in H. cbn [omap list_omap]. rewrite H. apply list_elem_of_here.
      * destruct (textGuard _); by apply not_elem_of_nil in H.
      * right. by apply I2.
Qed.

Lemma sessionOf_truthy (ds : list Decoded) (s : jsstring) :
  s ∈ omap sessionOf ds -> truthy s = true.
Proof.
  rewrite list_elem_of_omap. intros (d & _ & H). unfold sessionOf in H.
  destruct (d_sessionId d) as [e|]; [|done].
  destruct (truthy e) eqn:Ht; [|done]. by injection H as <-.
Qed.

Lemma run_session (ds residual : list Decoded) :
  last (sessionCallbacks (run ds residual)) = last (omap sessionOf (ds ++ residual)).
Proof.
  unfold run.
  destruct (feed_session init ds) as [F1 F2].
  destruct (feed init ds) as [st o]. simpl in F1, F2.
  unfold finish.
  destruct (feedResidual_session (sessionId st) residual) as [R1 R2].
  destruct (feedResidual (sessionId st) residual) as [sid o']. simpl in R1, R2.
  assert (Hsid : sid = last (omap sessionOf (ds ++ residual))).
  { rewrite R1, F1, omap_app, last_app. unfold latest.
    destruct (last (omap sessionOf residual)); [done|].
    by destruct (last (omap sessionOf ds)). }
  rewrite !sessionCallbacks_app.
  destruct sid as [s|].
  - assert (Ht : truthy s = true).
    { apply (sessionOf_truthy (ds ++ residual)).
      symmetry in Hsid. apply last_Some in Hsid as [l' ->].
      apply elem_of_app. right. apply list_elem_of_here. }
    rewrite Ht, <- Hsid. simpl.
    destruct (truthy (lastAssistantOutput st)); simpl;
      rewrite !app_assoc; apply last_snoc.
  - rewrite <- Hsid. symmetry in Hsid. apply last_None in Hsid.
    rewrite omap_app in Hsid. apply app_eq_nil in Hsid as [Hd Hr].
    assert (E1 : sessionCallbacks o = []).
    { destruct (sessionCallbacks o) as [|x xs] eqn:E; [done|].
      specialize (F2 x (list_elem_of_here _ _)). rewrite Hd in F2.
      by apply not_elem_of_nil in F2. }
    assert (E2 : sessionCallbacks o' = []).
    { destruct (sessionCallbacks o') as [|x xs] eqn:E; [done|].
      specialize (R2 x (list_elem_of_here _ _)). rewrite Hr in R2.
      by apply not_elem_of_nil in R2. }
    rewrite E1, E2. by destruct (truthy (lastAssistantOutput st)).
Qed.

(** The last line of a text holds no line break. *)
Lemma splitLines_last_line (text : jsstring) :
  splitLines (List.last (splitLines text []) []) []
  = [List.last (splitLines text []) []].
Proof.
  pose proof (splitLines_app text []) as H. rewrite !app_nil_r in H.
  pose proof (splitLines_nonempty text []) as Hne.
  rewrite (app_removelast_last [] Hne) in H at 1.
  by apply app_inv_head in H.
Qed.

Lemma residualObjects_line (b : jsstring) :
  splitLines b [] = [b] -> residualObjects b = omap decodeLine [b].
Proof.
  intros H. unfold residualObjects. rewrite H.
  destruct (truthy (trim b)) eqn:Ht; [done|].
  simpl. unfold decodeLine. by rewrite Ht.
Qed.

Lemma omap_sessionOf (lines : list jsstring) :
  omap sessionOf (omap decodeLine lines) = omap sessionOfLine lines.
Proof.
  induction lines as [|l lines IH]; [done|].
  cbn [omap list_omap]. unfold sessionOfLine at 1.
  destruct (decodeLine l) as [d|]; simpl; [|exact IH].
  fold (omap sessionOf (omap decodeLine lines)). rewrite IH.
  by destruct (sessionOf d).
Qed.

(** The objects the filter handles over a whole stream are those of its
    lines. *)
Lemma stream_objects (chunks : list jsstring) :
  omap decodeLine (completeLines [] chunks)
  ++ residualObjects (lastBuffer [] chunks)
  = omap decodeLine (splitLines (concat chunks) []).
Proof.
  destruct (completeLines_concat chunks) as [-> ->].
  rewrite residualObjects_line by apply splitLines_last_line.
  rewrite <- omap_app.
  by rewrite <- (app_removelast_last [] (splitLines_nonempty (concat chunks) [])).
Qed.

(** X2. The last call of the session-id callback carries the session id of the
    last line of the stream that has one, and the callback is not called when
    no line has one. *)
Theorem session_id_of_the_last_line (chunks : list jsstring) :
  last (sessionCallbacks (pipeThroughAssistantFilter chunks))
  = last (omap sessionOfLine (splitLines (concat chunks) [])).
Proof.
  rewrite StreamFilterFacts.pipeThroughAssistantFilter_run, run_session.
  by rewrite stream_objects, omap_sessionOf.
Qed.

(** *** User text and assistant text *)

Lemma stringProp_truthy (v : value) (k s : jsstring) :
  stringProp v k = Some s -> truthy s = true.
Proof.
  unfold stringProp. destruct (getProp v k) as [[]|]; try done.
  destruct (truthy s0) eqn:E; [|done]. by intros [= <-].
Qed.

Lemma push_truthy (parts : list jsstring) (o : option jsstring) :
  Forall (fun p => truthy p = true) parts ->
  (forall s, o = Some s -> truthy s = true) ->
  Forall (fun p => truthy p = true) (push parts o).
Proof.
  intros H Ho. destruct o as [s|]; [|done]. simpl.
  apply Forall_app. split; [done|]. constructor; [by apply Ho | constructor].
Qed.

Lemma itemParts_truthy (parts : list jsstring) (items : list value) :
  Forall (fun p => truthy p = true) parts ->
  Forall (fun p => truthy p = true) (itemParts push parts items).
Proof.
  unfold itemParts. revert parts.
  induction items as [|item items IH]; intros parts H; [done|]. simpl.
  apply IH. destruct (isObjectLike item); [|done].
  apply push_truthy; [apply push_truthy; [done|] |]; apply stringProp_truthy.
Qed.

Lemma concat_truthy (parts : list jsstring) :
  Forall (fun p => truthy p = true) parts -> parts <> [] -> concat parts <> [].
Proof.
  intros H Hne. destruct parts as [|p parts]; [done|].
  apply Forall_cons in H as [Hp _]. simpl. by destruct p.
Qed.

(** X3. An object from which user text is extracted yields no assistant text,
    and the user text extracted is never empty. *)
Theorem user_text_is_never_assistant_text (obj : value) (u : jsstring) :
  extractUserText obj = Some u ->
  u <> [] /\ extractAssistantText obj = [].
Proof.
  unfold extractUserText, extractAssistantText.
  destruct (isObjectLike obj); [|done]. simpl.
  destruct (propIs obj key_type str_user); [|done]. simpl.
  intros H. split; [|done].
  match type of H with
  | match ?parts with [] => _ | _ :: _ => _ end = _ =>
      assert (Ht : Forall (fun p => truthy p = true) parts);
      [| destruct parts as [|p ps] eqn:E; [done|];
         injection H as <-; by apply (concat_truthy (p :: ps)) ]
  end.
  apply push_truthy; [|apply stringProp_truthy].
  destruct (truthyMember obj key_message) as [m|].
  - apply push_truthy; [|apply stringProp_truthy].
    destruct (truthyMember m key_content) as [[]|]; try done.
    by apply itemParts_truthy.
  - done.
Qed.

Lemma user_text_is_never_assistant_text_witness :
  js "hi" <> []
  /\ extractAssistantText
       (JObj [(key_type, JStr str_user); (key_content, JStr (js "hi"))]) = [].
Proof.
  apply (user_text_is_never_assistant_text
           (JObj [(key_type, JStr str_user); (key_content, JStr (js "hi"))])
           (js "hi")).
  reflexivity.
Defined.

End StreamProps.

(** ** The invoker on whole runs of a child *)
Module InvokerProps.
Import Judge.
Import StreamFilter.
Import Framing.
Import StreamViews.
Import Invoker.
Import InvokerViews.
Import StreamProps.

(** What the callbacks leave in the variables of the invocation. *)
Lemma applyCallbacks (outs : list Output) (c : Child) :
  fold_left applyCallback outs c
  = {| c_stdout := default (c_stdout c) (last (textCallbacks outs));
       c_stderr := c_stderr c;
       c_sessionId := latest (sessionCallbacks outs) (c_sessionId c);
       c_filter := c_filter c |}.
Proof.
  revert c. induction outs as [|o outs IH]; intros c; [by destruct c|].
  simpl fold_left. rewrite IH.
  change (o :: outs) with ([o] ++ outs).
  unfold textCallbacks, sessionCallbacks. rewrite !omap_app, latest_app, last_app.
  fold (textCallbacks outs). fold (sessionCallbacks outs).
  destruct o; simpl; try done; by destruct (last (textCallbacks outs)).
Qed.

Lemma onData_no_text (f : LineFilter) (chunk : jsstring) :
  textCallbacks (onData f chunk).2 = [].
Proof.
  unfold onData. destruct (takeLines (f_rawBuffer f) chunk) as [lines rest].
  pose proof (StreamFilterFacts.feed_no_text (f_state f) (omap decodeLine lines)) as H.
  by destruct (feed (f_state f) (omap decodeLine lines)).
Qed.

Lemma streamed_data (evs : list StreamEvent) (c : Child) :
  Forall (fun ev => isStdoutEnd ev = false) evs ->
  fold_left (onEvent true) evs c
  = {| c_stdout := c_stdout c;
       c_stderr := c_stderr c ++ concat (stderrTexts evs);
       c_sessionId :=
         latest (sessionCallbacks (onChunks (c_filter c) (stdoutChunks evs)).2)
           (c_sessionId c);
       c_filter := (onChunks (c_filter c) (stdoutChunks evs)).1 |}.
Proof.
  intros H. revert c. induction H as [|ev evs Hev Hevs IH]; intros c.
  - destruct c. simpl. by rewrite app_nil_r.
  - simpl fold_left. rewrite IH. destruct ev as [chunk | | text]; [| done |].
    + cbn [onEvent stdoutChunks stderrTexts omap list_omap onChunks].
      fold (stdoutChunks evs). fold (stderrTexts evs).
      pose proof (onData_no_text (c_filter c) chunk) as Ht.
      destruct (onData (c_filter c) chunk) as [f1 o1].
      rewrite applyCallbacks. cbn [fst snd] in Ht. rewrite Ht.
      destruct c as [so se sid f]. simpl.
      destruct (onChunks f1 (stdoutChunks evs)) as [f2 o2]. simpl.
      by rewrite sessionCallbacks_app, latest_app.
    + cbn [onEvent stdoutChunks stderrTexts omap list_omap].
      fold (stdoutChunks evs). fold (stderrTexts evs).
      destruct c as [so se sid f]. simpl. by rewrite app_assoc.
Qed.

Lemma only_stderr (evs : list StreamEvent) (c : Child) :
  Forall (fun ev => isStderrData ev = true) evs ->
  fold_left (onEvent true) evs c
  = {| c_stdout := c_stdout c;
       c_stderr := c_stderr c ++ concat (stderrTexts evs);
       c_sessionId := c_sessionId c;
       c_filter := c_filter c |}.
Proof.
  intros H. revert c. induction H as [|ev evs Hev Hevs IH]; intros c.
  - destruct c. simpl. by rewrite app_nil_r.
  - simpl fold_left. rewrite IH. destruct ev as [chunk | | text]; try done.
    cbn [onEvent stderrTexts omap list_omap]. fold (stderrTexts evs).
    destruct c as [so se sid f]. simpl. by rewrite app_assoc.
Qed.

Lemma stderrTexts_app (a b : list StreamEvent) :
  stderrTexts (a ++ b) = stderrTexts a ++ stderrTexts b.
Proof. apply omap_app. Qed.

Lemma streamed_sessions (chunks : list jsstring) :
  last (sessionCallbacks
          ((onChunks newFilter chunks).2 ++ onEnd (onChunks newFilter chunks).1))
  = last (omap sessionOfLine (splitLines (concat chunks) [])).
Proof.
  assert (E : (onChunks newFilter chunks).2 ++ onEnd (onChunks newFilter chunks).1
              = pipeThroughAssistantFilter chunks).
  { unfold pipeThroughAssistantFilter. by destruct (onChunks newFilter chunks). }
  rewrite E, StreamFilterFacts.pipeThroughAssistantFilter_run, run_session.
  by rewrite stream_objects, omap_sessionOf.
Qed.

(** X4. With streaming support, when the output stream ends before the child
    closes, the invocation resolves with the text the filter recorded,
    trimmed, as its transcript, with the trimmed error output, and with the
    session id of the last line of the stream that has one, or else the one it
    started with. *)
Theorem streamed_result (timeoutMinutes : Z) (initialSid : option jsstring)
    (before after : list StreamEvent) (code : option Z) (elapsedMs : Z) :
  Forall (fun ev => isStdoutEnd ev = false) before ->
  Forall (fun ev => isStderrData ev = true) after ->
  settle true timeoutMinutes initialSid
    {| b_events := before ++ StdoutEnd :: after;
       b_ending := Closed code elapsedMs |}
  = (Resolved
       {| exitCode := default 0%Z code;
          stdout := trim (StreamFilterFacts.recorded (stdoutChunks before));
          stderr := trim (concat (stderrTexts (before ++ after)));
          durationMs := elapsedMs;
          sessionId :=
            latest (omap sessionOfLine
                      (splitLines (concat (stdoutChunks before)) []))
              initialSid |}, []).
Proof.
  intros Hb Ha. unfold settle. cbn [b_events b_ending].
  rewrite fold_left_app. cbn [fold_left].
  rewrite (streamed_data before _ Hb). cbn [onEvent c_filter c_stdout c_stderr c_sessionId].
  rewrite applyCallbacks. cbn [c_filter c_stdout c_stderr c_sessionId].
  rewrite (only_stderr after _ Ha). cbn [c_filter c_stdout c_stderr c_sessionId].
  set (chunks := stdoutChunks before).
  rewrite stderrTexts_app, concat_app. cbn [app].
  assert (Hs : latest (sessionCallbacks (onEnd (onChunks newFilter chunks).1))
                 (latest (sessionCallbacks (onChunks newFilter chunks).2) initialSid)
               = latest (omap sessionOfLine (splitLines (concat chunks) [])) initialSid).
  { rewrite <- latest_app, <- sessionCallbacks_app.
    unfold latest. by rewrite streamed_sessions. }
  assert (Ht : default [] (last (textCallbacks (onEnd (onChunks newFilter chunks).1)))
               = StreamFilterFacts.recorded chunks).
  { unfold StreamFilterFacts.recorded, onEnd.
    rewrite StreamFilterFacts.finish_text.
    by destruct (lastAssistantOutput _). }
  by rewrite Hs, Ht.
Qed.

Lemma streamed_result_witness :
  settle true 60 None
    {| b_events :=
         [StdoutData (jsq "{'type':'assistant','text':'Hel") ;
          StderrData (js "warn ");
          StdoutData (jsq "lo','session_id':'s7'}" ++ [10])]
         ++ StdoutEnd :: [StderrData (js "late")];
       b_ending := Closed (Some 0%Z) 1200 |}
  = (Resolved
       {| exitCode := 0;
          stdout := js "Hello";
          stderr := js "warn late";
          durationMs := 1200;
          sessionId := Some (js "s7") |}, []).
Proof.
  rewrite (streamed_result 60 None
             [StdoutData (jsq "{'type':'assistant','text':'Hel") ;
              StderrData (js "warn ");
              StdoutData (jsq "lo','session_id':'s7'}" ++ [10])]
             [StderrData (js "late")] (Some 0%Z) 1200).
  - vm_compute. reflexivity.
  - by repeat constructor.
  - by repeat constructor.
Defined.

(** *** The session id of a resume *)

Lemma latest_truthy (seen : list jsstring) (cur : option jsstring) :
  Forall (fun s => truthy s = true) seen ->
  truthy_opt cur = true -> truthy_opt (latest seen cur) = true.
Proof.
  intros Hs Hc. unfold latest. destruct (last seen) as [s|] eqn:E; [|done].
  apply last_Some in E as [l' ->]. apply Forall_app in Hs as [_ Hs].
  by apply Forall_cons in Hs as [Hs _].
Qed.

Lemma onData_sessions (f : LineFilter) (chunk : jsstring) :
  Forall (fun s => truthy s = true) (sessionCallbacks (onData f chunk).2).
Proof.
  unfold onData. destruct (takeLines (f_rawBuffer f) chunk) as [lines rest].
  destruct (feed_session (f_state f) (omap decodeLine lines)) as [_ H].
  destruct (feed (f_state f) (omap decodeLine lines)) as [st outs].
  apply Forall_forall. intros s Hs.
  apply (H s) in Hs. by apply sessionOf_truthy in Hs.
Qed.

Lemma onEnd_sessions (f : LineFilter) :
  Forall (fun s => truthy s = true) (sessionCallbacks (onEnd f)).
Proof.
  unfold onEnd, finish.
  destruct (feedResidual_session (StreamFilter.sessionId (f_state f))
              (residualObjects (f_rawBuffer f))) as [_ H].
  destruct (feedResidual _ _) as [sid outs].
  rewrite !sessionCallbacks_app, !Forall_app. split; [|split; [|split]].
  - apply Forall_forall. intros s Hs.
    apply (H s) in Hs. by apply sessionOf_truthy in Hs.
  - by destruct (truthy (lastAssistantOutput _)).
  - destruct sid as [s|]; [|done]. destruct (truthy s) eqn:Ht; [|done].
    by repeat constructor.
  - done.
Qed.

Lemma extractSessionId_truthy (obj : value) (s : jsstring) :
  extractSessionId obj = Some s -> truthy s = true.
Proof.
  unfold extractSessionId. destruct (isObjectLike obj); [|done].
  apply stringProp_truthy.
Qed.

Lemma rawSessionId_truthy (chunk : jsstring) (cur : option jsstring) :
  truthy_opt cur = true -> truthy_opt (rawSessionId chunk cur) = true.
Proof.
  unfold rawSessionId. revert cur.
  induction (splitLines chunk []) as [|line lines IH]; intros cur Hc; [done|].
  simpl. apply IH.
  destruct (truthy (trim line) && _); [|done].
  destruct (JSON_parse (trim line)) as [obj|]; [|done].
  destruct (extractSessionId obj) as [sid|] eqn:E; [|done].
  by apply extractSessionId_truthy in E.
Qed.

Lemma onEvent_session (streamPartial : bool) (c : Child) (ev : StreamEvent) :
  truthy_opt (c_sessionId c) = true ->
  truthy_opt (c_sessionId (onEvent streamPartial c ev)) = true.
Proof.
  intros Hc. destruct ev as [chunk | | text]; simpl.
  - destruct streamPartial.
    + pose proof (onData_sessions (c_filter c) chunk) as H.
      destruct (onData (c_filter c) chunk) as [f outs].
      rewrite applyCallbacks. simpl. by apply latest_truthy.
    + simpl. by apply rawSessionId_truthy.
  - destruct streamPartial; [|done].
    rewrite applyCallbacks. simpl. apply latest_truthy; [apply onEnd_sessions | done].
  - done.
Qed.

(** X5. A resume never loses its session id: whatever the child writes, the
    result it resolves with carries a non-empty session id. *)
Theorem resume_keeps_a_session_id (streamPartial : bool) (timeoutMinutes : Z)
    (sid : jsstring) (b : Behaviour) (r : AgentRunResult) :
  truthy sid = true ->
  (settle streamPartial timeoutMinutes (Some sid) b).1 = Resolved r ->
  truthy_opt (sessionId r) = true.
Proof.
  intros Hs. unfold settle.
  assert (H : forall evs c, truthy_opt (c_sessionId c) = true ->
            truthy_opt (c_sessionId (fold_left (onEvent streamPartial) evs c)) = true).
  { induction evs as [|ev evs IH]; intros c Hc; [done|].
    simpl. apply IH. by apply onEvent_session. }
  specialize (H (b_events b)
                {| c_stdout := []; c_stderr := []; c_sessionId := Some sid;
                   c_filter := newFilter |} Hs).
  destruct (b_ending b); simpl; try done.
  by intros [= <-].
Qed.

Lemma resume_keeps_a_session_id_witness :
  truthy_opt
    (sessionId
       {| exitCode := 0; stdout := js "{}"; stderr := []; durationMs := 5;
          sessionId := Some (js "s1") |}) = true.
Proof.
  apply (resume_keeps_a_session_id false 60 (js "s1")
           {| b_events := [StdoutData (js "{}")]; b_ending := Closed None 5 |}).
  - reflexivity.
  - vm_compute. reflexivity.
Defined.

End InvokerProps.


(** ** Properties of the retry/resume controller *)
Module ControllerProps.
Import Judge.
Import Invoker.
Import Controller.
Import ControllerViews.
Import ControllerFacts.
Local Open Scope nat_scope.

Section RunProps.
Variable E : Engine.
Variable invoke : nat -> AgentCall -> Settled AgentRunResult.
Variable judge : nat -> jsstring -> jsstring -> SemanticsResult.
Variables prompt model judgeModel : jsstring.
Variable retry : nat.
Variable timeoutMinutes : Z.
Variable positionalArgs : list jsstring.

Local Abbreviation nextCall := (nextCall prompt model timeoutMinutes positionalArgs).
Local Abbreviation iteration :=
  (iteration E invoke judge prompt model judgeModel timeoutMinutes positionalArgs).
Local Abbreviation executeTaskWithRetry :=
  (executeTaskWithRetry E invoke judge prompt model judgeModel retry timeoutMinutes
     positionalArgs).
Local Abbreviation trace :=
  (trace E invoke judge prompt model judgeModel retry timeoutMinutes positionalArgs).
Local Abbreviation Pass :=
  (Pass E invoke judge prompt model judgeModel timeoutMinutes positionalArgs).
Local Abbreviation Reach :=
  (Reach E invoke judge prompt model judgeModel retry timeoutMinutes positionalArgs).
Local Abbreviation Inv := (Inv invoke judge judgeModel retry).
Local Abbreviation final :=
  (final E invoke judge prompt model judgeModel retry timeoutMinutes positionalArgs).
Local Abbreviation reach_inv :=
  (reach_inv E invoke judge prompt model judgeModel retry timeoutMinutes positionalArgs).
Local Abbreviation iteration_pass :=
  (iteration_pass E invoke judge prompt model judgeModel timeoutMinutes positionalArgs).
Local Abbreviation final_cases :=
  (final_cases E invoke judge prompt model judgeModel retry timeoutMinutes positionalArgs).
Local Abbreviation report_final :=
  (report_final E invoke judge prompt model judgeModel retry timeoutMinutes positionalArgs).
Local Abbreviation reach_trace_prefix :=
  (reach_trace_prefix E invoke judge prompt model judgeModel retry timeoutMinutes
     positionalArgs).
Local Abbreviation invoked_head :=
  (invoked_head E invoke judge prompt model judgeModel retry timeoutMinutes
     positionalArgs).
Local Abbreviation loop_reach :=
  (loop_reach E invoke judge prompt model judgeModel retry timeoutMinutes
     positionalArgs).

Local Abbreviation verdictOn := (verdictOn judge judgeModel).

(** How the loop ended: at the head of a pass with the ceiling reached, or with
    a pass that left it. *)
Lemma final_pass :
  exists st,
    Reach st
    /\ ((l_attempts st = retry /\ final = st)
        \/ (l_attempts st < retry /\ Pass st final false)).
Proof.
  destruct final_cases as (st & HR & [H | (Hlt & Hb & Hf)]).
  - exists st. auto.
  - exists st. split; [done|]. right. split; [done|].
    pose proof (iteration_pass st (inv_first _ _ _ _ st (reach_inv st HR))) as P.
    by rewrite Hb, <- Hf in P.
Qed.

Lemma reach_indices (st : Loop) :
  Reach st -> index <$> l_executions st = seq 1 (l_attempts st).
Proof.
  induction 1 as [|st HR IH Hlt Hagain]; [done|].
  pose proof (iteration_pass st (inv_first _ _ _ _ st (reach_inv st HR))) as P.
  rewrite Hagain in P.
  inversion P as [ | | | | call r spread Hc Hi Hnf Hn Hst Hag].
  cbn [l_executions l_attempts]. by rewrite fmap_app, IH, seq_S.
Qed.

Lemma count_invoked_app (a b : list TraceEvent) :
  length (filter isInvoked (a ++ b))
  = length (filter isInvoked a) + length (filter isInvoked b).
Proof. by rewrite filter_app, length_app. Qed.

(** X6. Whatever the agent and the judge do, the report is consistent: it
    counts at most [retry] attempts and, when the ceiling allows one, at least
    one; it holds one record for every invocation of the agent, numbered 1, 2,
    ... in order; the number of records is the number of attempts, except when
    the last pass found no session id to resume, which counts as an attempt but
    invokes nothing and leaves no record; [success] holds exactly when the
    status is done, then there is no error message, and a run whose status is
    error always carries one. *)
Theorem report_is_well_formed :
  attempts executeTaskWithRetry <= retry
  /\ (1 <= retry -> 1 <= attempts executeTaskWithRetry)
  /\ (length (executions executeTaskWithRetry) = attempts executeTaskWithRetry
      \/ (S (length (executions executeTaskWithRetry)) = attempts executeTaskWithRetry
          /\ errorMessage executeTaskWithRetry = Some str_no_session))
  /\ length (filter isInvoked trace) = length (executions executeTaskWithRetry)
  /\ index <$> executions executeTaskWithRetry
     = seq 1 (length (executions executeTaskWithRetry))
  /\ (success executeTaskWithRetry = true
      <-> finalStatus executeTaskWithRetry = StatusDone)
  /\ (success executeTaskWithRetry = true -> errorMessage executeTaskWithRetry = None)
  /\ (finalStatus executeTaskWithRetry = StatusError ->
      is_Some (errorMessage executeTaskWithRetry)).
Proof.
  destruct report_final as (Hat & Hex & Her & Htr & Hfs & Hsu).
  rewrite Hsu, Hfs, Hat, Hex, Her, Htr. clear Hat Hex Her Htr Hfs Hsu.
  destruct final_pass as (st & HR & [[Ha Hf] | [Hlt P]]).
  - pose proof (reach_inv st HR) as I.
    rewrite Hf, (inv_continue _ _ _ _ st I), Ha, Nat.leb_refl. simpl.
    rewrite (inv_executions _ _ _ _ st I), (inv_invoked _ _ _ _ st I), Ha.
    repeat split; try done; try lia.
    rewrite <- Ha. by apply reach_indices.
  - pose proof (reach_inv st HR) as I.
    pose proof (reach_indices st HR) as Hidx.
    pose proof (inv_continue _ _ _ _ st I) as Hc.
    pose proof (inv_executions _ _ _ _ st I) as Hx.
    pose proof (inv_invoked _ _ _ _ st I) as Hi.
    pose proof (inv_error _ _ _ _ st I) as He.
    inversion P as [Hn Hst | call message Hn Hiv Hst | call r Hn Hiv Hf Hst
                   | call r last Hn Hiv Hnf Hnr Hst
                   | call r spread Hn Hiv Hnf Hsp Hst Hag];
      cbn [l_attempts l_needsContinue l_finalStatus l_errorMessage l_executions l_trace];
      rewrite ?Hc, ?count_invoked_app, ?length_app, ?fmap_app, ?Hidx, ?Hi, ?Hx;
      cbn [length filter fmap list_fmap index isInvoked app];
      rewrite ?Nat.add_0_r, ?Nat.add_1_r, ?seq_S.
    + destruct (retry <=? S (l_attempts st)); simpl;
        repeat split; try done; try lia; try (by right); by eexists.
    + destruct (retry <=? S (l_attempts st)); simpl;
        repeat split; try done; try lia; try (by left); by eexists.
    + destruct (retry <=? S (l_attempts st)); simpl;
        repeat split; try done; try lia; try (by left); by eexists.
    + destruct (retry <=? S (l_attempts st)); simpl;
        repeat split; try done; try lia; try (by left); by eexists.
    + destruct (result (judge (S (l_attempts st)) judgeModel
                          (substring0 (stdout r) 5000))); try discriminate Hag.
      simpl. rewrite He.
      repeat split; try done; try lia; by left.
Qed.

Lemma not_failing (r : AgentRunResult) :
  ~ failing r <-> exitCode r = 0%Z /\ stderr r = [].
Proof.
  unfold failing. split.
  - intros H. split.
    + destruct (decide (exitCode r = 0%Z)) as [|Hn]; [done|]. destruct H. by left.
    + destruct (stderr r) as [|c s] eqn:Es; [done|]. destruct H. by right.
  - intros [H1 H2] [H | H]; done.
Qed.

(** What the pass does when the invocation resolved cleanly and the reasons of
    the judge cannot be recorded. *)
Lemma iteration_reasons_throw (st : Loop) (call : AgentCall) (r : AgentRunResult) :
  (l_attempts st = 0 -> l_sessionId st = None) ->
  nextCall (bump st) = Some call ->
  invoke (S (l_attempts st)) call = Resolved r ->
  ~ failing r ->
  ~ recordable E (reasons (verdictOn (S (l_attempts st)) r)) ->
  (iteration st).2 = false
  /\ l_attempts (iteration st).1 = S (l_attempts st)
  /\ l_needsContinue (iteration st).1 = l_needsContinue st
  /\ l_finalStatus (iteration st).1 = StatusError
  /\ l_errorMessage (iteration st).1
     = Some (typeErrorMessage E
               (ReasonsMisuse (reasons (verdictOn (S (l_attempts st)) r))))
  /\ length (l_executions (iteration st).1) = S (length (l_executions st))
  /\ l_trace (iteration st).1
     = (l_trace st ++ [Invoked (S (l_attempts st)) call])
       ++ [Judged (S (l_attempts st)) judgeModel (substring0 (stdout r) 5000)].
Proof.
  intros H0 Hc Hi Hnf Hnr.
  pose proof (iteration_pass st H0) as P.
  inversion P as [Hn Hst Hag | c m Hn Hiv Hst Hag | c r' Hn Hiv Hf Hst Hag
                 | c r' last Hn Hiv Hnf' Hnr' Hst Hag
                 | c r' spread Hn Hiv Hnf' Hsp Hst Hag];
    rewrite Hc in Hn; try discriminate Hn; injection Hn as <-;
    rewrite Hi in Hiv; try discriminate Hiv; injection Hiv as <-;
    try (by destruct Hnf).
  - cbn [l_attempts l_needsContinue l_finalStatus l_errorMessage l_executions l_trace].
    rewrite length_app, Nat.add_1_r. done.
  - exfalso. apply Hnr. split; [|by eexists].
    destruct (reasonTextThrows E (reasons (verdictOn (S (l_attempts st)) r))) eqn:Ht;
      [|done].
    exfalso.
    assert (Hx : exists e, l_executions (iteration st).1 = l_executions st ++ [e]
                           /\ conclusion e = concl_threw).
    { unfold Controller.iteration. fold (bump st). rewrite Hc. cbn [l_attempts bump].
      rewrite Hi. unfold Controller.afterInvocation.
      apply not_failing in Hnf as [He Hs]. rewrite He, Hs. cbn [negb orb truthy Z.eqb].
      cbn [l_attempts]. unfold verdictOn in Ht. rewrite Ht.
      eexists. split; reflexivity. }
    destruct Hx as (e & Hx & He). rewrite <- Hst in Hx. cbn [l_executions] in Hx.
    apply app_inj_tail in Hx as [_ <-]. cbn [conclusion] in He.
    destruct (result _); discriminate He.
Qed.

(** What the pass does when the invocation resolved cleanly and the reasons of
    the judge can be recorded. *)
Lemma iteration_judged (st : Loop) (call : AgentCall) (r : AgentRunResult) :
  (l_attempts st = 0 -> l_sessionId st = None) ->
  nextCall (bump st) = Some call ->
  invoke (S (l_attempts st)) call = Resolved r ->
  ~ failing r ->
  recordable E (reasons (verdictOn (S (l_attempts st)) r)) ->
  (iteration st).2
  = match result (verdictOn (S (l_attempts st)) r) with Done => false | _ => true end
  /\ l_attempts (iteration st).1 = S (l_attempts st)
  /\ l_needsContinue (iteration st).1
     = match result (verdictOn (S (l_attempts st)) r) with Done => false | _ => true end
  /\ l_finalStatus (iteration st).1
     = match result (verdictOn (S (l_attempts st)) r) with
       | Done => StatusDone
       | _ => l_finalStatus st
       end
  /\ l_errorMessage (iteration st).1 = l_errorMessage st
  /\ l_sessionId (iteration st).1 = handleAfter call r
  /\ (exists e,
        l_executions (iteration st).1 = l_executions st ++ [e]
        /\ index e = S (l_attempts st)
        /\ e_durationMs e = durationMs r
        /\ conclusion e = conclusionOf (result (verdictOn (S (l_attempts st)) r)))
  /\ l_trace (iteration st).1
     = (l_trace st ++ [Invoked (S (l_attempts st)) call])
       ++ [Judged (S (l_attempts st)) judgeModel (substring0 (stdout r) 5000)].
Proof.
  intros H0 Hc Hi Hnf Hr.
  pose proof (iteration_pass st H0) as P.
  inversion P as [Hn Hst Hag | c m Hn Hiv Hst Hag | c r' Hn Hiv Hf Hst Hag
                 | c r' last Hn Hiv Hnf' Hnr' Hst Hag
                 | c r' spread Hn Hiv Hnf' Hsp Hst Hag];
    rewrite Hc in Hn; try discriminate Hn; injection Hn as <-;
    rewrite Hi in Hiv; try discriminate Hiv; injection Hiv as <-;
    try (by destruct Hnf); try (by destruct Hnr').
  cbn [l_attempts l_needsContinue l_finalStatus l_errorMessage l_executions l_trace
       l_sessionId].
  repeat split; try done. eexists. split; [reflexivity|]. done.
Qed.

(** The status of the report, from the loop variables at the end of the loop. *)
Lemma status_after (k : nat) :
  l_attempts final = k -> k <= retry ->
  finalStatus executeTaskWithRetry
  = if l_needsContinue final && negb (k <? retry) then StatusPartial
    else l_finalStatus final.
Proof.
  intros Ha Hk. destruct report_final as (_ & _ & _ & _ & -> & _). rewrite Ha.
  destruct (retry <=? k) eqn:H1; destruct (k <? retry) eqn:H2; try done.
  - apply Nat.leb_le in H1. apply Nat.ltb_lt in H2. lia.
  - apply Nat.leb_gt in H1. apply Nat.ltb_ge in H2. lia.
Qed.

(** Every call in the trace was made in a pass the run went through. *)
Lemma event_head (ev : TraceEvent) :
  ev ∈ l_trace final ->
  exists st evs,
    Reach st /\ l_attempts st < retry
    /\ l_trace (iteration st).1 = l_trace st ++ evs
    /\ ev ∈ evs
    /\ l_trace (iteration st).1 `prefix_of` l_trace final.
Proof.
  assert (T : forall st, Reach st -> ev ∈ l_trace st ->
    exists st0 evs, Reach st0 /\ l_attempts st0 < retry
      /\ l_trace (iteration st0).1 = l_trace st0 ++ evs /\ ev ∈ evs
      /\ l_trace (iteration st0).1 `prefix_of` l_trace final).
  { induction 1 as [|st HR IH Hlt Hagain]; intros Hin.
    - by apply not_elem_of_nil in Hin.
    - pose proof (reach_inv st HR) as I.
      pose proof (iteration_pass st (inv_first _ _ _ _ st I)) as P.
      destruct (pass_trace _ _ _ _ _ _ _ _ _ _ _ P) as (evs & Ht & _).
      rewrite Ht in Hin. apply elem_of_app in Hin as [Hin | Hin]; [by apply IH|].
      exists st, evs. repeat split; try done.
      apply reach_trace_prefix.
      by apply (ReachNext E invoke judge prompt model judgeModel retry timeoutMinutes
                  positionalArgs st). }
  intros Hin. destruct final_cases as (st & HR & [[_ Hf] | (Hlt & Hb & Hf)]).
  - rewrite Hf in Hin. by apply (T st).
  - pose proof (reach_inv st HR) as I.
    pose proof (iteration_pass st (inv_first _ _ _ _ st I)) as P.
    destruct (pass_trace _ _ _ _ _ _ _ _ _ _ _ P) as (evs & Ht & _).
    rewrite Hf, Ht in Hin. apply elem_of_app in Hin as [Hin | Hin]; [by apply (T st)|].
    exists st, evs. repeat split; try done. by rewrite Hf.
Qed.

(** The end of the run after the pass of attempt [k] left the loop. *)
Lemma invoked_pass (k : nat) (call : AgentCall) :
  Invoked k call ∈ trace ->
  exists st,
    Reach st /\ S (l_attempts st) = k /\ k <= retry
    /\ nextCall (bump st) = Some call
    /\ ((iteration st).2 = false -> final = (iteration st).1).
Proof.
  intros Hin. destruct report_final as (_ & _ & _ & Htr & _ & _).
  rewrite Htr in Hin.
  destruct (invoked_head k call Hin) as (st & HR & Hk & Hlt & Hc & Hend).
  exists st. repeat split; try done; [lia|].
  intros Hb. destruct Hend as [Hend | Hend]; [congruence | done].
Qed.

(** X7. When the invocation of attempt [k] resolved cleanly and the judge
    answers done with reasons the controller can record, the run ends there with
    success: the report counts [k] attempts and [k] records, the last record is
    the one of attempt [k] with the conclusion for done and the duration of the
    invocation, there is no error message, and the judging of attempt [k] is the
    last call the run makes. *)
Theorem done_verdict_ends_the_run (k : nat) (call : AgentCall) (r : AgentRunResult) :
  Invoked k call ∈ trace ->
  invoke k call = Resolved r ->
  ~ failing r ->
  recordable E (reasons (verdictOn k r)) ->
  result (verdictOn k r) = Done ->
  attempts executeTaskWithRetry = k
  /\ success executeTaskWithRetry = true
  /\ finalStatus executeTaskWithRetry = StatusDone
  /\ errorMessage executeTaskWithRetry = None
  /\ length (executions executeTaskWithRetry) = k
  /\ (exists earlier e,
        executions executeTaskWithRetry = earlier ++ [e]
        /\ index e = k /\ e_durationMs e = durationMs r /\ conclusion e = concl_done)
  /\ (exists before,
        trace = before ++ [Invoked k call;
                           Judged k judgeModel (substring0 (stdout r) 5000)]).
Proof.
  intros Hin Hi Hnf Hr Hd.
  destruct (invoked_pass k call Hin) as (st & HR & Hk & Hle & Hc & Hend).
  pose proof (reach_inv st HR) as I. subst k.
  destruct (iteration_judged st call r (inv_first _ _ _ _ st I) Hc Hi Hnf Hr)
    as (Hb & Ha & Hn & Hs & He & _ & (e & Hx & Hix & Hdu & Hco) & Ht).
  rewrite Hd in Hb, Hn, Hs, Hco. specialize (Hend Hb).
  pose proof (status_after (S (l_attempts st))) as Hst.
  rewrite Hend, Hn in Hst. specialize (Hst Ha Hle). cbn [andb] in Hst.
  destruct report_final as (Hat & Hex & Her & Htr & _ & Hsu).
  rewrite Hsu, Hst, Hs, Hat, Hex, Her, Htr, Hend, Ha, He, Hx, Ht.
  rewrite length_app, (inv_executions _ _ _ _ st I), (inv_error _ _ _ _ st I).
  repeat split; try done.
  - cbn [length]. lia.
  - by exists (l_executions st), e.
  - exists (l_trace st). by rewrite <- app_assoc.
Qed.

(** X8. A run is reported as a success only if its last attempt invoked the
    agent, the invocation resolved with exit status 0 and an empty error stream,
    and the judge answered done on it with reasons the controller could
    record. *)
Theorem success_needs_a_done_verdict :
  success executeTaskWithRetry = true ->
  exists call r,
    Invoked (attempts executeTaskWithRetry) call ∈ trace
    /\ invoke (attempts executeTaskWithRetry) call = Resolved r
    /\ exitCode r = 0%Z /\ stderr r = []
    /\ recordable E (reasons (verdictOn (attempts executeTaskWithRetry) r))
    /\ result (verdictOn (attempts executeTaskWithRetry) r) = Done.
Proof.
  destruct report_final as (Hat & _ & _ & Htr & Hfs & Hsu).
  rewrite Hsu, Hfs, Hat, Htr. clear Hat Htr Hfs Hsu.
  destruct final_cases as (st & HR & [[Ha Hf] | (Hlt & Hb & Hf)]).
  - pose proof (reach_inv st HR) as I.
    by rewrite Hf, (inv_continue _ _ _ _ st I), Ha, Nat.leb_refl.
  - pose proof (reach_inv st HR) as I.
    pose proof (inv_first _ _ _ _ st I) as H0.
    pose proof (iteration_pass st H0) as P.
    rewrite Hf.
    inversion P as [Hn Hst Hag | c m Hn Hiv Hst Hag | c r Hn Hiv Hff Hst Hag
                   | c r last Hn Hiv Hnf Hnr Hst Hag
                   | c r spread Hn Hiv Hnf Hsp Hst Hag];
      cbn [l_attempts l_needsContinue l_finalStatus l_trace];
      try (by destruct (_ && _)).
    destruct (decide (recordable E (reasons (verdictOn (S (l_attempts st)) r))))
      as [Hr | Hnr].
    + destruct (result (judge (S (l_attempts st)) judgeModel
                          (substring0 (stdout r) 5000))) eqn:Hres;
        [| rewrite Hb in Hag; discriminate Hag | rewrite Hb in Hag; discriminate Hag].
      intros _. exists c, r. apply not_failing in Hnf as [? ?].
      repeat split; try done; try apply Hr.
      rewrite elem_of_app, elem_of_app, list_elem_of_singleton. left. by right.
    + destruct (iteration_reasons_throw st c r H0 Hn Hiv Hnf Hnr)
        as (_ & _ & _ & Hs & _).
      rewrite <- Hst in Hs. cbn [l_finalStatus] in Hs. rewrite Hs.
      by destruct (_ && _).
Qed.

(** X9. The judge is asked only about an attempt whose invocation resolved
    with exit status 0 and an empty error stream; it is asked with the judge
    model of the run and with the first 5000 code units of the output of that
    invocation. *)
Theorem judge_follows_a_clean_invocation (k : nat) (jm summary : jsstring) :
  Judged k jm summary ∈ trace ->
  jm = judgeModel
  /\ length summary <= 5000
  /\ exists call r,
       Invoked k call ∈ trace
       /\ invoke k call = Resolved r
       /\ exitCode r = 0%Z /\ stderr r = []
       /\ summary = substring0 (stdout r) 5000.
Proof.
  destruct report_final as (_ & _ & _ & -> & _ & _).
  intros Hin.
  destruct (event_head _ Hin) as (st & evs & HR & Hlt & Ht & Hev & Hpre).
  pose proof (reach_inv st HR) as I.
  pose proof (iteration_pass st (inv_first _ _ _ _ st I)) as P.
  assert (G : forall call r,
    invoke (S (l_attempts st)) call = Resolved r -> ~ failing r ->
    l_trace (iteration st).1
    = (l_trace st ++ [Invoked (S (l_attempts st)) call])
      ++ [Judged (S (l_attempts st)) judgeModel (substring0 (stdout r) 5000)] ->
    jm = judgeModel /\ length summary <= 5000
    /\ exists call r,
         Invoked k call ∈ l_trace final /\ invoke k call = Resolved r
         /\ exitCode r = 0%Z /\ stderr r = []
         /\ summary = substring0 (stdout r) 5000).
  { intros call r Hi Hnf Ht'. rewrite Ht, <- app_assoc in Ht'.
    apply app_inv_head in Ht'. subst evs.
    apply elem_of_cons in Hev as [Hev | Hev]; [discriminate Hev|].
    apply list_elem_of_singleton in Hev. injection Hev as -> -> ->.
    apply not_failing in Hnf as [? ?].
    split; [done|]. split.
    { unfold substring0. rewrite length_take. lia. }
    exists call, r. repeat split; try done.
    apply (elem_of_prefix (l_trace (iteration st).1)); [|done].
    rewrite Ht. rewrite elem_of_app. right. by left. }
  inversion P as [Hn Hst Hag | c m Hn Hiv Hst Hag | c r Hn Hiv Hff Hst Hag
                 | c r last Hn Hiv Hnf Hnr Hst Hag
                 | c r spread Hn Hiv Hnf Hsp Hst Hag];
    try (rewrite <- Hst in Ht; cbn [l_trace] in Ht).
  - rewrite <- (app_nil_r (l_trace st)) in Ht at 1.
    apply app_inv_head in Ht. subst evs. by apply not_elem_of_nil in Hev.
  - apply app_inv_head in Ht. subst evs.
    apply list_elem_of_singleton in Hev. discriminate Hev.
  - apply app_inv_head in Ht. subst evs.
    apply list_elem_of_singleton in Hev. discriminate Hev.
  - apply (G c r Hiv Hnf). by rewrite <- Hst.
  - apply (G c r Hiv Hnf). by rewrite <- Hst.
Qed.

(** The loop variables after the pass of attempt [k] caught the TypeError on the
    reasons of the judge. *)
Lemma reasons_throw_final (k : nat) (call : AgentCall) (r : AgentRunResult) :
  Invoked k call ∈ trace ->
  invoke k call = Resolved r ->
  ~ failing r ->
  ~ recordable E (reasons (verdictOn k r)) ->
  k <= retry
  /\ l_attempts final = k
  /\ l_needsContinue final = true
  /\ l_finalStatus final = StatusError
  /\ l_errorMessage final
     = Some (typeErrorMessage E (ReasonsMisuse (reasons (verdictOn k r))))
  /\ length (l_executions final) = k
  /\ (exists before,
        l_trace final
        = before ++ [Invoked k call;
                     Judged k judgeModel (substring0 (stdout r) 5000)]).
Proof.
  intros Hin Hi Hnf Hnr.
  destruct (invoked_pass k call Hin) as (st & HR & Hk & Hle & Hc & Hend).
  pose proof (reach_inv st HR) as I. subst k.
  destruct (iteration_reasons_throw st call r (inv_first _ _ _ _ st I) Hc Hi Hnf Hnr)
    as (Hb & Ha & Hn & Hs & He & Hx & Ht).
  rewrite (Hend Hb), Ha, Hn, Hs, He, Hx, Ht.
  rewrite (inv_executions _ _ _ _ st I), (inv_continue _ _ _ _ st I).
  repeat split; try done.
  exists (l_trace st). by rewrite <- app_assoc.
Qed.

(** X10. When the judge returns reasons the controller cannot put into its
    log line or spread into its notes, the TypeError is caught and the run ends
    with attempt [k], whatever the verdict was: without success, with the
    message of the TypeError, with [k] records, and with status error, or
    partial when [k] is the last attempt the ceiling allows. *)
Theorem unrecordable_reasons_end_the_run (k : nat) (call : AgentCall)
    (r : AgentRunResult) :
  Invoked k call ∈ trace ->
  invoke k call = Resolved r ->
  ~ failing r ->
  ~ recordable E (reasons (verdictOn k r)) ->
  attempts executeTaskWithRetry = k
  /\ success executeTaskWithRetry = false
  /\ finalStatus executeTaskWithRetry
     = (if k <? retry then StatusError else StatusPartial)
  /\ errorMessage executeTaskWithRetry
     = Some (typeErrorMessage E (ReasonsMisuse (reasons (verdictOn k r))))
  /\ length (executions executeTaskWithRetry) = k
  /\ (exists before,
        trace = before ++ [Invoked k call;
                           Judged k judgeModel (substring0 (stdout r) 5000)]).
Proof.
  intros Hin Hi Hnf Hnr.
  destruct (reasons_throw_final k call r Hin Hi Hnf Hnr)
    as (Hle & Ha & Hn & Hs & He & Hx & Ht).
  pose proof (status_after k Ha Hle) as Hst. rewrite Hn, Hs in Hst.
  destruct report_final as (Hat & Hex & Her & Htr & _ & Hsu).
  rewrite Hsu, Hst, Hat, Hex, Her, Htr, Ha, He, Hx.
  repeat split; try done; by destruct (k <? retry).
Qed.

(** X11. When the first invocation resolved cleanly without a session id and
    the judge did not answer done, the second pass cannot resume: the run ends
    with two attempts counted but one record and one invocation, without
    success, with the message that no session id was found, and with status
    error, or partial when the ceiling is 2. *)
Theorem missing_session_id_ends_the_run (r : AgentRunResult) :
  2 <= retry ->
  invoke 1 (CallInitial prompt model positionalArgs timeoutMinutes) = Resolved r ->
  ~ failing r ->
  recordable E (reasons (verdictOn 1 r)) ->
  result (verdictOn 1 r) <> Done ->
  truthy_opt (sessionId r) = false ->
  attempts executeTaskWithRetry = 2
  /\ length (executions executeTaskWithRetry) = 1
  /\ success executeTaskWithRetry = false
  /\ finalStatus executeTaskWithRetry
     = (if 2 <? retry then StatusError else StatusPartial)
  /\ errorMessage executeTaskWithRetry = Some str_no_session
  /\ trace = [Invoked 1 (CallInitial prompt model positionalArgs timeoutMinutes);
              Judged 1 judgeModel (substring0 (stdout r) 5000)].
Proof.
  intros H2 Hi Hnf Hr Hnd Hsid.
  set (call := CallInitial prompt model positionalArgs timeoutMinutes) in *.
  assert (HR0 : Reach start) by constructor.
  assert (H0 : l_attempts start = 0 -> l_sessionId start = None) by done.
  assert (Hc : nextCall (bump start) = Some call) by done.
  destruct (iteration_judged start call r H0 Hc Hi Hnf Hr)
    as (Hb & Ha & Hn & Hs & He & Hse & (e & Hx & _) & Ht).
  assert (Hagain : (iteration start).2 = true).
  { rewrite Hb. cbn [l_attempts start]. by destruct (result (verdictOn 1 r)). }
  assert (HR1 : Reach (iteration start).1).
  { apply (ReachNext E invoke judge prompt model judgeModel retry timeoutMinutes
             positionalArgs start); [done | simpl; lia | done]. }
  set (st1 := (iteration start).1) in *.
  pose proof (reach_inv st1 HR1) as I.
  assert (Hnone : nextCall (bump st1) = None).
  { unfold Controller.nextCall, bump. cbn [l_attempts l_sessionId]. rewrite Ha, Hse.
    cbn [l_attempts start Nat.eqb]. unfold handleAfter, call. by rewrite Hsid. }
  pose proof (iteration_pass st1 (inv_first _ _ _ _ st1 I)) as P.
  inversion P as [Hn' Hst Hag | c m Hn' Hiv Hst Hag | c r' Hn' Hiv Hff Hst Hag
                 | c r' last Hn' Hiv Hnf' Hnr Hst Hag
                 | c r' spread Hn' Hiv Hnf' Hsp Hst Hag];
    try (rewrite Hnone in Hn'; discriminate Hn').
  assert (Hf : final = (iteration st1).1).
  { rewrite <- (loop_reach st1 HR1). rewrite Ha. cbn [l_attempts start].
    replace (retry - 1) with (S (retry - 2)) by lia.
    cbn [Controller.loop]. rewrite (inv_continue _ _ _ _ st1 I), Ha.
    cbn [l_attempts start].
    assert (Hlt : (1 <? retry) = true) by (apply Nat.ltb_lt; lia).
    rewrite Hlt. cbn [andb].
    destruct (iteration st1) as [st2 again]. cbn [fst snd] in *. by subst again. }
  pose proof (status_after 2) as Hstat.
  destruct report_final as (Hat & Hex & Her & Htr & _ & Hsu).
  rewrite Hsu, Hstat, Hat, Hex, Her, Htr, Hf, <- Hst;
    cbn [l_attempts l_needsContinue l_finalStatus l_errorMessage l_executions l_trace];
    rewrite ?Ha, ?Hx, ?Ht, ?(inv_continue _ _ _ _ st1 I); try done; try lia.
  - cbn [andb start l_attempts l_executions l_trace app length].
    repeat split; try done; by destruct (2 <? retry).
  - rewrite Hf, <- Hst. cbn [l_attempts]. by rewrite Ha.
Qed.

End RunProps.

(** The result of every invocation of [steadyAgent]. *)
Definition steadyResult : AgentRunResult :=
  {| exitCode := 0; stdout := js "working"; stderr := [];
     durationMs := 1000; sessionId := Some (js "s1") |}.

(** The result of every invocation of [noSessionAgent]. *)
Definition noSessionResult : AgentRunResult :=
  {| exitCode := 0; stdout := js "working"; stderr := [];
     durationMs := 1000; sessionId := None |}.

Lemma done_verdict_ends_the_run_witness :
  attempts (executeTaskWithRetry sampleEngine steadyAgent resumeThenDone
              (js "task") (js "auto") (js "judge") 3 60 []) = 2
  /\ success (executeTaskWithRetry sampleEngine steadyAgent resumeThenDone
                (js "task") (js "auto") (js "judge") 3 60 []) = true
  /\ length (executions (executeTaskWithRetry sampleEngine steadyAgent resumeThenDone
                           (js "task") (js "auto") (js "judge") 3 60 [])) = 2.
Proof.
  destruct (done_verdict_ends_the_run sampleEngine steadyAgent resumeThenDone
              (js "task") (js "auto") (js "judge") 3 60 [] 2
              (CallResume (js "auto") (js "s1") str_please_continue 60)
              steadyResult)
    as (H1 & H2 & _ & _ & H5 & _).
  - vm_compute. do 2 apply list_elem_of_further. apply list_elem_of_here.
  - reflexivity.
  - intros [H | H]; [apply H; reflexivity | apply H; reflexivity].
  - split; [reflexivity | by eexists].
  - reflexivity.
  - done.
Defined.

Lemma success_needs_a_done_verdict_witness :
  exists call r,
    call = CallResume (js "auto") (js "s1") str_please_continue 60
    /\ steadyAgent 2 call = Resolved r
    /\ result (resumeThenDone 2 (js "judge") (substring0 (stdout r) 5000)) = Done.
Proof.
  destruct (success_needs_a_done_verdict sampleEngine steadyAgent resumeThenDone
              (js "task") (js "auto") (js "judge") 3 60 [])
    as (call & r & Hin & Hi & _ & _ & _ & Hd).
  - reflexivity.
  - exists call, r. vm_compute in Hin.
    apply elem_of_cons in Hin as [Hin | Hin]; [discriminate Hin|].
    apply elem_of_cons in Hin as [Hin | Hin]; [discriminate Hin|].
    apply elem_of_cons in Hin as [Hin | Hin].
    { injection Hin as ->. split; [reflexivity|]. split; [exact Hi | exact Hd]. }
    apply elem_of_cons in Hin as [Hin | Hin]; [discriminate Hin|].
    by apply not_elem_of_nil in Hin.
Defined.

Lemma judge_follows_a_clean_invocation_witness :
  exists call r,
    steadyAgent 2 call = Resolved r
    /\ js "working" = substring0 (stdout r) 5000.
Proof.
  destruct (judge_follows_a_clean_invocation sampleEngine steadyAgent resumeThenDone
              (js "task") (js "auto") (js "judge") 3 60 [] 2 (js "judge")
              (js "working"))
    as (_ & _ & call & r & _ & Hi & _ & _ & Hs).
  - vm_compute. do 3 apply list_elem_of_further. apply list_elem_of_here.
  - by exists call, r.
Defined.

Lemma unrecordable_reasons_end_the_run_witness :
  attempts (executeTaskWithRetry sampleEngine steadyAgent objectReasons
              (js "task") (js "auto") (js "judge") 3 60 []) = 1
  /\ success (executeTaskWithRetry sampleEngine steadyAgent objectReasons
                (js "task") (js "auto") (js "judge") 3 60 []) = false
  /\ finalStatus (executeTaskWithRetry sampleEngine steadyAgent objectReasons
                    (js "task") (js "auto") (js "judge") 3 60 []) = StatusError.
Proof.
  destruct (unrecordable_reasons_end_the_run sampleEngine steadyAgent objectReasons
              (js "task") (js "auto") (js "judge") 3 60 [] 1
              (CallInitial (js "task") (js "auto") [] 60) steadyResult)
    as (H1 & H2 & H3 & _).
  - vm_compute. apply list_elem_of_here.
  - reflexivity.
  - intros [H | H]; [apply H; reflexivity | apply H; reflexivity].
  - intros [_ [x Hx]]. discriminate Hx.
  - done.
Defined.

Lemma missing_session_id_ends_the_run_witness :
  attempts (executeTaskWithRetry sampleEngine noSessionAgent alwaysResume
              (js "task") (js "auto") (js "judge") 3 60 []) = 2
  /\ length (executions (executeTaskWithRetry sampleEngine noSessionAgent alwaysResume
                           (js "task") (js "auto") (js "judge") 3 60 [])) = 1
  /\ finalStatus (executeTaskWithRetry sampleEngine noSessionAgent alwaysResume
                    (js "task") (js "auto") (js "judge") 3 60 []) = StatusError.
Proof.
  destruct (missing_session_id_ends_the_run sampleEngine noSessionAgent alwaysResume
              (js "task") (js "auto") (js "judge") 3 60 [] noSessionResult)
    as (H1 & H2 & _ & H4 & _).
  - lia.
  - reflexivity.
  - intros [H | H]; [apply H; reflexivity | apply H; reflexivity].
  - split; [reflexivity | by eexists].
  - discriminate.
  - reflexivity.
  - done.
Defined.

End ControllerProps.

(** ** Properties of the semantic judge *)
Module JudgeProps.
Import Judge.
Import JudgeFacts.
Import JudgeViews.

Lemma verdictOf_token (json : value) (v : Verdict) :
  verdictOf json = Some v <-> getProp json str_result = Some (JStr (verdictToken v)).
Proof.
  unfold verdictOf. split.
  - destruct (getProp json str_result) as [[| | |s| |]|]; try done.
    destruct (streq s str_done) eqn:H1.
    { apply streq_true in H1 as ->. by intros [= <-]. }
    destruct (streq s str_resume) eqn:H2.
    { apply streq_true in H2 as ->. by intros [= <-]. }
    destruct (streq s str_auto) eqn:H3; [|done].
    apply streq_true in H3 as ->. by intros [= <-].
  - intros ->. by destruct v.
Qed.

Lemma parseLLMResult_accepts (E : Engine) (stdout : jsstring) (json : value)
    (v : Verdict) :
  JSON_parse (trim stdout) = Some json ->
  verdictOf json = Some v ->
  parseLLMResult E stdout = {| result := v; reasons := reasonsOf json v |}.
Proof.
  intros Hp Hv. unfold parseLLMResult. rewrite Hp.
  destruct json; try done; by rewrite Hv.
Qed.

Lemma parseLLMResult_not_resume (E : Engine) (stdout : jsstring) :
  result (parseLLMResult E stdout) <> Resume ->
  exists json,
    JSON_parse (trim stdout) = Some json
    /\ verdictOf json = Some (result (parseLLMResult E stdout)).
Proof.
  unfold parseLLMResult.
  destruct (JSON_parse (trim stdout)) as [json|]; [|done].
  intros H. exists json. split; [done|].
  destruct json; try done;
    (destruct (verdictOf _) as [v|] eqn:Hv;
     [done | by destruct (displayProp _ _)]).
Qed.

(** X12. A verdict other than resume is never made up: the call to the judge
    resolved with exit status 0 and an empty error stream, its output parsed as
    JSON, the verdict is the token its [result] member holds, and the reasons
    are its [reasons] member, or the token alone when that member is missing or
    falsy. *)
Theorem verdict_comes_from_the_response
    (E : Engine) (judgePrompt : jsstring)
    (runCallLLMOnce : list jsstring -> Z -> Settled CallResult)
    (judgeModel executionSummary : jsstring) :
  result (interpretSemanticsViaLLM E judgePrompt runCallLLMOnce
            judgeModel executionSummary) <> Resume ->
  exists r json,
    runCallLLMOnce (judgeArgs judgePrompt judgeModel executionSummary) 60%Z
    = Resolved r
    /\ llm_exitCode r = 0%Z /\ llm_stderr r = []
    /\ JSON_parse (trim (llm_stdout r)) = Some json
    /\ getProp json str_result
       = Some (JStr (verdictToken
                       (result (interpretSemanticsViaLLM E judgePrompt runCallLLMOnce
                                  judgeModel executionSummary))))
    /\ reasons (interpretSemanticsViaLLM E judgePrompt runCallLLMOnce
                  judgeModel executionSummary)
       = reasonsOf json
           (result (interpretSemanticsViaLLM E judgePrompt runCallLLMOnce
                      judgeModel executionSummary)).
Proof.
  unfold interpretSemanticsViaLLM.
  destruct (runCallLLMOnce _ _) as [r | message]; [|done].
  unfold interpretOutcome.
  destruct (negb (llm_exitCode r =? 0)%Z || truthy (llm_stderr r)) eqn:Hc; [done|].
  apply orb_false_iff in Hc as [He Hs].
  apply negb_false_iff, Z.eqb_eq in He.
  assert (Hs' : llm_stderr r = []) by (by destruct (llm_stderr r)).
  destruct (reasonsLoggingThrows E _) as [site|] eqn:Hl; [done|].
  intros Hn. destruct (parseLLMResult_not_resume E _ Hn) as (json & Hp & Hv).
  exists r, json. repeat split; try done.
  - by apply verdictOf_token.
  - by rewrite (parseLLMResult_accepts E _ json _ Hp Hv) at 1.
Qed.

(** What the judge returns on a response whose reasons are an object without a
    positive length. *)
Lemma interpretOutcome_object_reasons (E : Engine) (c : CallResult) (json : value)
    (v : Verdict) (members : list (jsstring * value)) :
  llm_exitCode c = 0%Z -> llm_stderr c = [] ->
  JSON_parse (trim (llm_stdout c)) = Some json ->
  verdictOf json = Some v ->
  getProp json str_reasons = Some (JObj members) ->
  greaterThanZero E (lookupMember str_length members) = Some false ->
  interpretOutcome E (Resolved c) = {| result := v; reasons := JObj members |}.
Proof.
  intros He Hs Hp Hv Hr Hl. unfold interpretOutcome.
  rewrite He, Hs. cbn [Z.eqb negb orb truthy].
  rewrite (parseLLMResult_accepts E _ json v Hp Hv).
  unfold reasonsOf. rewrite Hr. cbn [truthyValue reasons reasonsLoggingThrows].
  by rewrite Hl.
Qed.

Lemma verdict_comes_from_the_response_witness :
  exists json,
    JSON_parse (jsq "{'result':'done'}") = Some json
    /\ getProp json str_result = Some (JStr str_done).
Proof.
  destruct (verdict_comes_from_the_response sampleEngine (js "judge") agreeingJudge
              (js "m") (js "summary")) as (r & json & Hr & _ & _ & Hp & Hg & _).
  - vm_compute. discriminate.
  - injection Hr as <-. exists json. split; [exact Hp | exact Hg].
Defined.

End JudgeProps.

(** ** The controller run against the judge process *)
Module JudgedRuns.
Import Judge.
Import JudgeFacts.
Import JudgeViews.
Import JudgeProps.
Import Invoker.
Import Controller.
Import ControllerViews.
Import ControllerFacts.
Import ControllerProps.
Local Open Scope nat_scope.

(** X13. A done verdict whose reasons are a JSON object is lost. When the
    invocation of attempt [k] resolved cleanly and the judge process answers
    with result done and with reasons that are an object without a positive
    length, the judge hands the verdict done to the controller, the controller
    raises a TypeError on spreading the reasons, and the run ends with attempt
    [k] without success and with the message of that TypeError. *)
Theorem done_verdict_with_object_reasons_is_lost
    (E : Engine) (invoke : nat -> AgentCall -> Settled AgentRunResult)
    (judgePrompt : jsstring)
    (runCallLLMOnce : nat -> list jsstring -> Z -> Settled CallResult)
    (prompt model judgeModel : jsstring) (retry : nat) (timeoutMinutes : Z)
    (positionalArgs : list jsstring)
    (k : nat) (call : AgentCall) (r : AgentRunResult) (c : CallResult)
    (json : value) (members : list (jsstring * value)) :
  let judge := fun n jm summary =>
    interpretSemanticsViaLLM E judgePrompt (runCallLLMOnce n) jm summary in
  Invoked k call
    ∈ trace E invoke judge prompt model judgeModel retry timeoutMinutes positionalArgs ->
  invoke k call = Resolved r ->
  ~ failing r ->
  runCallLLMOnce k
    (judgeArgs judgePrompt judgeModel (substring0 (stdout r) 5000)) 60%Z
  = Resolved c ->
  llm_exitCode c = 0%Z -> llm_stderr c = [] ->
  JSON_parse (trim (llm_stdout c)) = Some json ->
  getProp json str_result = Some (JStr str_done) ->
  getProp json str_reasons = Some (JObj members) ->
  greaterThanZero E (lookupMember str_length members) = Some false ->
  result (judge k judgeModel (substring0 (stdout r) 5000)) = Done
  /\ success (executeTaskWithRetry E invoke judge prompt model judgeModel retry
                timeoutMinutes positionalArgs) = false
  /\ attempts (executeTaskWithRetry E invoke judge prompt model judgeModel retry
                 timeoutMinutes positionalArgs) = k
  /\ errorMessage (executeTaskWithRetry E invoke judge prompt model judgeModel retry
                     timeoutMinutes positionalArgs)
     = Some (typeErrorMessage E (ReasonsMisuse (JObj members))).
Proof.
  intros judge Hin Hi Hnf Hc He Hs Hp Hres Hrea Hlen.
  assert (Hv : verdictOf json = Some Done) by (by apply verdictOf_token).
  assert (Hj : judge k judgeModel (substring0 (stdout r) 5000)
               = {| result := Done; reasons := JObj members |}).
  { unfold judge, interpretSemanticsViaLLM. rewrite Hc.
    by apply (interpretOutcome_object_reasons E c json). }
  assert (Hnr : ~ recordable E (reasons (verdictOn judge judgeModel k r))).
  { unfold verdictOn. rewrite Hj. intros [_ [x Hx]]. discriminate Hx. }
  destruct (reasons_throw_final E invoke judge prompt model judgeModel retry
              timeoutMinutes positionalArgs k call r Hin Hi Hnf Hnr)
    as (Hle & Ha & Hn & Hst & Her & _).
  destruct (report_final E invoke judge prompt model judgeModel retry timeoutMinutes
              positionalArgs) as (Hat & _ & Herr & _ & Hfs & Hsu).
  rewrite Hsu, Hfs, Hat, Herr, Hst, Her, Ha, Hj. unfold verdictOn. rewrite Hj.
  repeat split; try done.
  by destruct (l_needsContinue _ && (retry <=? k)).
Qed.

Lemma done_verdict_with_object_reasons_is_lost_witness :
  success (executeTaskWithRetry sampleEngine steadyAgent
             (fun n jm summary =>
                interpretSemanticsViaLLM sampleEngine (js "judge") terseJudge
                  jm summary)
             (js "task") (js "auto") (js "m") 3 60 []) = false
  /\ attempts (executeTaskWithRetry sampleEngine steadyAgent
                 (fun n jm summary =>
                    interpretSemanticsViaLLM sampleEngine (js "judge") terseJudge
                      jm summary)
                 (js "task") (js "auto") (js "m") 3 60 []) = 1.
Proof.
  destruct (done_verdict_with_object_reasons_is_lost sampleEngine steadyAgent
              (js "judge") (fun _ => terseJudge)
              (js "task") (js "auto") (js "m") 3 60 [] 1
              (CallInitial (js "task") (js "auto") [] 60) steadyResult
              {| llm_exitCode := 0; llm_stdout := jsq "{'result':'done','reasons':{}}";
                 llm_stderr := []; llm_durationMs := 10 |}
              (JObj [(str_result, JStr str_done); (str_reasons, JObj [])]) [])
    as (_ & H2 & H3 & _).
  - vm_compute. apply list_elem_of_here.
  - reflexivity.
  - intros [H | H]; [apply H; reflexivity | apply H; reflexivity].
  - reflexivity.
  - reflexivity.
  - reflexivity.
  - vm_compute. reflexivity.
  - reflexivity.
  - reflexivity.
  - reflexivity.
  - split; [exact H2 | exact H3].
Defined.

End JudgedRuns.

(** ** Properties of call-llm and of the judge's call to it *)
Module CallLLMProps.
Import Judge.
Import JudgeFacts.
Import CallLLM.
Import CallLLMViews.
Local Open Scope nat_scope.


Lemma lowersTo_eq (v literal : jsstring) :
  lowersTo v literal = true -> lowerAscii <$> v = literal.
Proof. unfold lowersTo. apply streq_true. Qed.

Lemma fromArgv_refl (argv : list jsstring) (c : Config) : fromArgv argv c c.
Proof. unfold fromArgv. naive_solver. Qed.

Lemma fromArgv_step (skipped argv : list jsstring) (a b c : Config) :
  fromArgv skipped a b -> fromArgv argv b c -> fromArgv (skipped ++ argv) a c.
Proof.
  unfold fromArgv. intros (F1 & P1 & C1 & M1 & K1 & B1) (F2 & P2 & C2 & M2 & K2 & B2).
  split; [|repeat split]; intros; try setoid_rewrite elem_of_app.
  - destruct F2 as [-> | F2]; [done | by right].
  - destruct (P2 v) as [H' | H']; [done | | by right; right].
    destruct (P1 v H'); auto.
  - destruct (C2 v) as [H' | H']; [done | | by right; right].
    destruct (C1 v H'); auto.
  - destruct (M2 v) as [H' | H']; [done | | by right; right].
    destruct (M1 v H'); auto.
  - destruct (K2 v) as [H' | H']; [done | | by right; right].
    destruct (K1 v H'); auto.
  - destruct (B2 v) as [H' | H']; [done | | by right; right].
    destruct (B1 v H'); auto.
Qed.

Lemma assign_fromArgv (o : ValueOption) (v : jsstring) (c c' : Config) (arg : jsstring) :
  assign o v c = Some c' -> fromArgv [arg; v] c c'.
Proof.
  unfold fromArgv. destruct o; simpl.
  6: { intros [= <-]. simpl. repeat split; intros; auto.
       right. injection H as <-. set_solver. }
  3: { destruct (lowersTo v (js "json")) eqn:H1.
       { intros [= <-]. simpl. rewrite (lowersTo_eq _ _ H1). naive_solver. }
       destruct (lowersTo v (js "text")) eqn:H2; [|done].
       intros [= <-]. simpl. rewrite (lowersTo_eq _ _ H2). naive_solver. }
  all: intros [= <-]; simpl; repeat split; intros; auto;
    right; injection H as <-; set_solver.
Qed.

Lemma plain_fromArgv (arg : jsstring) (c c' : Config) :
  plain arg c = Some c' -> fromArgv [arg] c c'.
Proof.
  unfold plain.
  destruct (_ || _).
  { intros [= <-]. unfold fromArgv. simpl. naive_solver. }
  destruct (startsWith _ _); [done|]. intros [= <-]. apply fromArgv_refl.
Qed.

Lemma parseFrom_fromArgv (argv : list jsstring) (c c' : Config) :
  parseFrom argv c = Returns c' -> fromArgv argv c c'.
Proof.
  assert (G : forall n argv c, length argv <= n ->
                parseFrom argv c = Returns c' -> fromArgv argv c c').
  { clear argv c. induction n as [|n IH]; intros argv c Hn.
    - destruct argv; [|simpl in Hn; lia]. intros [= <-]. apply fromArgv_refl.
    - destruct argv as [|arg rest]; [intros [= <-]; apply fromArgv_refl|].
      simpl in Hn.
      assert (Hplain :
        match plain arg c with
        | Some config' => parseFrom rest config'
        | None => Exit 1
        end = Returns c' -> fromArgv (arg :: rest) c c').
      { destruct (plain arg c) as [c1|] eqn:Hp; [|done]. intros H.
        apply (fromArgv_step [arg] rest c c1 c').
        - by apply plain_fromArgv.
        - apply IH; [lia | done]. }
      cbn [parseFrom]. destruct rest as [|v rest']; [exact Hplain|].
      destruct (valueOption arg) as [o|]; [|exact Hplain].
      destruct (assign o v c) as [c1|] eqn:Ha; [|done]. intros H.
      apply (fromArgv_step [arg; v] rest' c c1 c').
      + by apply (assign_fromArgv o).
      + apply IH; [simpl in Hn; lia | done]. }
  by apply (G (length argv)).
Qed.

(** X15. When [parseArgs] of call-llm returns, the format is json or text, and
    the prompt, the content, the model, the API key and the base URL are each
    unset or one of the arguments of the command line. *)
Theorem parseArgs_reads_the_command_line (argv : list jsstring) (config : Config) :
  parseArgs argv = Returns config ->
  (format config = js "json" \/ format config = js "text")
  /\ (forall v, prompt config = Some v -> v ∈ argv)
  /\ (forall v, content config = Some v -> v ∈ argv)
  /\ (forall v, model config = Some v -> v ∈ argv)
  /\ (forall v, apiKey config = Some v -> v ∈ argv)
  /\ (forall v, baseUrl config = Some v -> v ∈ argv).
Proof.
  intros H. apply parseFrom_fromArgv in H.
  destruct H as (F & P & C & M & K & B). cbn [defaults format prompt content model
    apiKey baseUrl] in *.
  split; [destruct F as [F | F]; [right; exact F | exact F]|].
  repeat split; intros v Hv;
    match goal with
    | H : forall v, _ = Some v -> _ |- _ =>
        destruct (H v Hv) as [? | ?]; [discriminate | assumption]
    end.
Qed.

(** X16. A transcript that is empty cannot be judged. When the judge command
    is call-llm, so that a call that resolves carries the exit status of its
    [main], an empty transcript (or an empty model name) makes call-llm exit
    with status 1 before any request, and the semantic judgement is resume, with
    a first reason that notes the failure. *)
Theorem empty_transcript_is_judged_resume
    (E : Engine) (judgePrompt : jsstring)
    (runCallLLMOnce : list jsstring -> Z -> Settled CallResult)
    (judgeModel summary : jsstring) :
  (forall args timeout code r,
     main args = Exits code ->
     runCallLLMOnce args timeout = Resolved r -> llm_exitCode r = code) ->
  summary = [] \/ judgeModel = [] ->
  result (interpretSemanticsViaLLM E judgePrompt runCallLLMOnce judgeModel summary)
  = Resume
  /\ notesFailure
       (interpretSemanticsViaLLM E judgePrompt runCallLLMOnce judgeModel summary).
Proof.
  intros Hrun Hempty. unfold interpretSemanticsViaLLM.
  apply interpretOutcome_call_failed.
  assert (Hm : main (judgeArgs judgePrompt judgeModel summary) = Exits 1).
  { destruct Hempty as [-> | ->]; [reflexivity|].
    unfold main.
    change (parseArgs (judgeArgs judgePrompt [] summary))
      with (Returns {| prompt := Some judgePrompt;
                       content := Some (substring0 summary 5000);
                       format := js "json"; apiKey := None; baseUrl := None;
                       model := Some []; help := false |}).
    cbn [help content model truthy_opt truthy]. by destruct (truthy _). }
  destruct (runCallLLMOnce _ _) as [r | message] eqn:Hr; [|done].
  simpl. left. by rewrite (Hrun _ _ _ _ Hm Hr).
Qed.

Lemma parseArgs_reads_the_command_line_witness :
  exists config,
    parseArgs [js "-m"; js "gpt-4"; js "-f"; js "JSON"; js "-c"; js "hello"]
    = Returns config
    /\ format config = js "json".
Proof.
  destruct (parseArgs_reads_the_command_line
              [js "-m"; js "gpt-4"; js "-f"; js "JSON"; js "-c"; js "hello"]
              {| prompt := None; content := Some (js "hello"); format := js "json";
                 apiKey := None; baseUrl := None; model := Some (js "gpt-4");
                 help := false |})
    as (_ & _ & _ & _ & _ & _).
  - reflexivity.
  - eexists. split; reflexivity.
Defined.

Lemma empty_transcript_is_judged_resume_witness :
  result (interpretSemanticsViaLLM sampleEngine (js "judge") callLLMProcess
            (js "m") []) = Resume.
Proof.
  destruct (empty_transcript_is_judged_resume sampleEngine (js "judge")
              callLLMProcess (js "m") []) as [H _].
  - intros args timeout code r Hm Hr. unfold callLLMProcess in Hr.
    rewrite Hm in Hr. by injection Hr as <-.
  - by left.
  - exact H.
Defined.

End CallLLMProps.

(** ** Properties of the task queue *)
Module QueueProps.
Import Judge.
Import TaskQueue.
Import TaskQueueFacts.
Import QueueViews.
Local Open Scope nat_scope.

Lemma hasValue_false (E : Engine) (names : list value) (name name' : value) :
  hasValue E names name = false -> name' ∈ names ->
  sameValueZero E name name' = false.
Proof.
  unfold hasValue. intros H Hin.
  destruct (sameValueZero E name name') eqn:Hs; [|done].
  assert (existsb (sameValueZero E name) names = true); [|congruence].
  apply existsb_exists. exists name'. split; [by apply list_elem_of_In | done].
Qed.

(** What a task that passes the checks has, and what it adds to the names and
    ids seen. *)
Lemma checkTask_accepts (E : Engine) (names names' : list value)
    (ids ids' : gset jsstring) (task : value) :
  checkTask E names ids task = inr (names', ids') ->
  acceptable E task
  /\ exists name id taskId,
       getProp task key_name = Some name
       /\ getProp task key_id = Some id
       /\ normalizedId E id = Some taskId
       /\ hasValue E names name = false
       /\ taskId ∉ ids.
Proof.
  unfold checkTask.
  destruct (isNull task); [done|].
  destruct (getProp task key_name) as [name|] eqn:Hn; [|done].
  destruct (truthyValue name) eqn:Ht; [|done]. cbn [negb].
  destruct (hasValue E names name) eqn:Hh; [done|].
  destruct (getProp task key_id) as [id|] eqn:Hi; [|done].
  destruct (isNull id) eqn:Hnull; [done|].
  unfold checkFromId.
  destruct (normalizedId E id) as [taskId|] eqn:Hid; [|done].
  destruct (length taskId =? 0) eqn:H0; [done|].
  destruct (255 <? length taskId) eqn:H255; [done|].
  apply Nat.eqb_neq in H0. apply Nat.ltb_ge in H255.
  destruct (bool_decide (taskId ∈ ids)) eqn:Hin; [done|].
  apply bool_decide_eq_false in Hin.
  destruct (negb (hasPrompt task) && negb (hasSpecFile task)) eqn:Hps; [done|].
  unfold checkSpecFile.
  intros H. split.
  - exists name, id, taskId. repeat split; try done; try lia.
    + intros ->. discriminate Hnull.
    + destruct (hasPrompt task); [by left|]. destruct (hasSpecFile task); [by right|].
      discriminate Hps.
    + destruct (getProp task key_spec_file) as [[| | | |[|x l]|]|]; done.
  - by exists name, id, taskId.
Qed.

Lemma checkTasks_sound (E : Engine) (rest checked : list value)
    (names : list value) (ids : gset jsstring) :
  collected E checked names ids ->
  checkTasks E names ids rest = None ->
  (forall task, task ∈ rest -> acceptable E task)
  /\ (forall i j ti tj,
        i < j -> length checked <= j ->
        (checked ++ rest) !! i = Some ti -> (checked ++ rest) !! j = Some tj ->
        (forall ni nj,
           getProp ti key_name = Some ni -> getProp tj key_name = Some nj ->
           sameValueZero E nj ni = false)
        /\ (forall idi idj,
              getProp ti key_id = Some idi -> getProp tj key_id = Some idj ->
              normalizedId E idi <> normalizedId E idj)).
Proof.
  revert checked names ids.
  induction rest as [|task rest IH]; intros checked names ids Hc Hk.
  - split; [intros t Ht; by apply not_elem_of_nil in Ht|].
    intros i j ti tj Hij Hj _ Hl. rewrite app_nil_r in Hl.
    apply lookup_lt_Some in Hl. lia.
  - simpl in Hk.
    destruct (checkTask E names ids task) as [e | [names' ids']] eqn:Hck; [done|].
    pose proof (checkTask_collected E checked names names' ids ids' task Hc Hck) as Hc'.
    destruct (checkTask_accepts E names names' ids ids' task Hck)
      as (Hacc & name & id & taskId & Hn & Hi & Hid & Hh & Hnin).
    destruct (IH (checked ++ [task]) names' ids' Hc' Hk) as [Hall Hdist].
    split.
    + intros t Ht. apply elem_of_cons in Ht as [-> | Ht]; [done | by apply Hall].
    + intros i j ti tj Hij Hj Hli Hlj.
      destruct (decide (j = length checked)) as [-> | Hne].
      * rewrite lookup_app_l in Hli by done.
        rewrite list_lookup_middle in Hlj by done. injection Hlj as <-.
        apply list_elem_of_lookup_2 in Hli.
        destruct Hc as [Hnames Hids]. split.
        -- intros ni nj Hni Hnj. rewrite Hn in Hnj. injection Hnj as <-.
           apply (hasValue_false E names); [done|]. by apply (Hnames ti).
        -- intros idi idj Hidi Hidj. rewrite Hi in Hidj. injection Hidj as <-.
           destruct (Hids ti idi Hli Hidi) as (t' & Ht' & Hin').
           rewrite Ht', Hid. intros [= ->]. done.
      * apply (Hdist i j ti tj Hij).
        -- rewrite length_app. simpl. lia.
        -- by rewrite <- app_assoc.
        -- by rewrite <- app_assoc.
Qed.

(** X17. A task file that passes [validate_config] has a task array in which
    every task has a truthy name, an id whose trimmed string form has 1 to 255
    code units, a non-blank string prompt or a spec_file entry, and a spec_file
    that is a string or a non-empty array when it is given; no two tasks have
    the same name, and no two tasks have ids with the same trimmed string
    form. *)
Theorem validation_is_sound (E : Engine) (taskFile : value) :
  validate_config E taskFile = None ->
  exists tasks,
    getProp taskFile key_tasks = Some (JArr tasks)
    /\ (forall task, task ∈ tasks -> acceptable E task)
    /\ (forall i j ti tj,
          i < j -> tasks !! i = Some ti -> tasks !! j = Some tj ->
          (forall ni nj,
             getProp ti key_name = Some ni -> getProp tj key_name = Some nj ->
             sameValueZero E nj ni = false)
          /\ (forall idi idj,
                getProp ti key_id = Some idi -> getProp tj key_id = Some idj ->
                normalizedId E idi <> normalizedId E idj)).
Proof.
  unfold validate_config. destruct (isNull taskFile); [done|].
  destruct (getProp taskFile key_tasks) as [[| | | |tasks|]|]; try done.
  intros Hk. exists tasks. split; [done|].
  destruct (checkTasks_sound E tasks [] [] ∅) as [Hall Hdist]; [|done|].
  { split; intros earlier x Hin; by apply not_elem_of_nil in Hin. }
  split; [done|]. intros i j ti tj Hij Hi Hj.
  apply (Hdist i j ti tj Hij); [simpl; lia | done | done].
Qed.

Lemma validation_is_sound_witness :
  exists tasks,
    getProp sampleQueue key_tasks = Some (JArr tasks)
    /\ (forall task, task ∈ tasks -> acceptable JudgeFacts.sampleEngine task).
Proof.
  destruct (validation_is_sound JudgeFacts.sampleEngine sampleQueue)
    as (tasks & H1 & H2 & _).
  - vm_compute. reflexivity.
  - by exists tasks.
Defined.

End QueueProps.

(** ** Properties of status updates, resets and the run over the queue *)
Module QueueRunProps.
Import Judge.
Import TaskQueue.
Import TaskQueueFacts.
Import QueueViews.
Import QueueProps.
Import QueueRun.
Local Open Scope nat_scope.

Lemma validation_sound_tasks (E : Engine) (taskFile : value) :
  validate_config E taskFile = None ->
  exists tasks,
    getProp taskFile key_tasks = Some (JArr tasks)
    /\ (forall task, task ∈ tasks -> acceptable E task).
Proof.
  unfold validate_config. destruct (isNull taskFile); [done|].
  destruct (getProp taskFile key_tasks) as [[| | | |tasks|]|]; try done.
  intros Hk. exists tasks. split; [done|].
  destruct (checkTasks_sound E tasks [] [] ∅) as [Hall _]; [|done|done].
  split; intros earlier x Hin; by apply not_elem_of_nil in Hin.
Qed.

Lemma lookup_deleteMember_ne (k k' : jsstring) (members : list (jsstring * value)) :
  k <> k' ->
  lookupMember k (deleteMember k' members) = lookupMember k members.
Proof.
  intros Hne. unfold deleteMember. induction members as [|[k1 v] m IH]; [done|].
  rewrite filter_cons. simpl.
  destruct (decide (streq k' k1 = false)) as [Hk | Hk]; simpl.
  - by rewrite IH.
  - destruct (streq k' k1) eqn:Hk'; [|done].
    apply streq_true in Hk' as <-.
    destruct (streq k k') eqn:Hkk; [by apply streq_true in Hkk|]. exact IH.
Qed.

Lemma lookup_markTask_other (k status : jsstring)
    (errorMessage reportPath : option jsstring) (members : list (jsstring * value)) :
  ~ statusKey k ->
  lookupMember k (markTask status errorMessage reportPath members)
  = lookupMember k members.
Proof.
  intros Hk. unfold statusKey in Hk.
  assert (H1 : k <> key_status) by tauto.
  assert (H2 : k <> key_error_message) by tauto.
  assert (H3 : k <> key_report) by tauto.
  unfold markTask.
  destruct reportPath as [[|c p]|]; destruct errorMessage as [[|c' msg]|];
    try destruct (negb (streq status status_error));
    by rewrite ?lookup_setMember_ne, ?lookup_deleteMember_ne, ?lookup_setMember_ne
      by done.
Qed.

Lemma lookup_clearTask_other (k : jsstring) (members : list (jsstring * value)) :
  ~ statusKey k ->
  lookupMember k (clearTask members) = lookupMember k members.
Proof.
  intros Hk. unfold statusKey in Hk. unfold clearTask.
  rewrite !lookup_deleteMember_ne, lookup_setMember_ne by tauto. done.
Qed.

Lemma lookup_clearTask (members : list (jsstring * value)) :
  lookupMember key_status (clearTask members) = Some (JStr status_pending)
  /\ lookupMember key_error_message (clearTask members) = None
  /\ lookupMember key_report (clearTask members) = None.
Proof.
  unfold clearTask. split; [|split].
  - rewrite !lookup_deleteMember_ne by done. apply lookup_setMember_eq.
  - rewrite lookup_deleteMember_ne by done. apply lookup_deleteMember.
  - apply lookup_deleteMember.
Qed.

(** The checks on a task read its name, id, prompt and spec_file only. *)
Lemma checkTask_same_props (E : Engine) (names : list value) (ids : gset jsstring)
    (members members' : list (jsstring * value)) :
  (forall k, ~ statusKey k -> lookupMember k members' = lookupMember k members) ->
  checkTask E names ids (JObj members') = checkTask E names ids (JObj members).
Proof.
  intros H.
  assert (Hn : lookupMember key_name members' = lookupMember key_name members).
  { apply H. unfold statusKey. intros [? | [? | ?]]; discriminate. }
  assert (Hi : lookupMember key_id members' = lookupMember key_id members).
  { apply H. unfold statusKey. intros [? | [? | ?]]; discriminate. }
  assert (Hp : lookupMember key_prompt members' = lookupMember key_prompt members).
  { apply H. unfold statusKey. intros [? | [? | ?]]; discriminate. }
  assert (Hs : lookupMember key_spec_file members'
               = lookupMember key_spec_file members).
  { apply H. unfold statusKey. intros [? | [? | ?]]; discriminate. }
  unfold checkTask, checkFromId, hasPrompt, hasSpecFile, checkSpecFile, getProp.
  cbn [isNull]. by rewrite Hn, Hi, Hp, Hs.
Qed.

Lemma checkTasks_update (E : Engine) (tasks : list value) (taskName status : jsstring)
    (errorMessage reportPath : option jsstring)
    (names : list value) (ids : gset jsstring) :
  checkTasks E names ids
    (update_task_status tasks taskName status errorMessage reportPath)
  = checkTasks E names ids tasks.
Proof.
  revert names ids. induction tasks as [|t tasks IH]; intros names ids; [done|].
  destruct t as [| b | n | s | items | members]; cbn [update_task_status]; try done;
    try (cbn [checkTasks]; destruct (checkTask E names ids _) as [e | [n' i']];
         [done | apply IH]).
  destruct (nameIs taskName (JObj members)).
  - cbn [checkTasks].
    rewrite (checkTask_same_props E names ids members
               (markTask status errorMessage reportPath members)); [done|].
    intros k Hk. by apply lookup_markTask_other.
  - cbn [checkTasks]. destruct (checkTask E names ids _) as [e | [n' i']];
      [done | apply IH].
Qed.

Lemma getProp_withTasks (taskFile : value) (tasks tasks' : list value) :
  getProp taskFile key_tasks = Some (JArr tasks) ->
  getProp (withTasks taskFile tasks') key_tasks = Some (JArr tasks')
  /\ isNull (withTasks taskFile tasks') = false
  /\ (forall k, k <> key_tasks ->
        getProp (withTasks taskFile tasks') k = getProp taskFile k).
Proof.
  destruct taskFile as [| | | | |members]; try done. intros _. simpl.
  split; [apply lookup_setMember_eq|]. split; [done|].
  intros k Hk. by apply lookup_setMember_ne.
Qed.

(** X18. A status update never changes what validation says about the task
    file: [validate_config] on the file after [update_task_status] throws what
    it threw before, or returns as before; and the update leaves every member
    of every task other than status, error_message and report as it was. *)
Theorem status_updates_keep_validation (E : Engine) (taskFile : value)
    (tasks : list value) (taskName status : jsstring)
    (errorMessage reportPath : option jsstring) :
  getProp taskFile key_tasks = Some (JArr tasks) ->
  validate_config E
    (withTasks taskFile
       (update_task_status tasks taskName status errorMessage reportPath))
  = validate_config E taskFile
  /\ (forall i t t' k,
        tasks !! i = Some t ->
        update_task_status tasks taskName status errorMessage reportPath !! i
        = Some t' ->
        ~ statusKey k -> getProp t' k = getProp t k).
Proof.
  intros Ht. split.
  - destruct (getProp_withTasks taskFile tasks
                (update_task_status tasks taskName status errorMessage reportPath) Ht)
      as (Hg & Hn & _).
    unfold validate_config. rewrite Hn, Hg, Ht, checkTasks_update.
    by destruct taskFile.
  - intros i t t' k Hi Hi' Hk.
    destruct (update_task_status_at_most_one tasks taskName status errorMessage
                reportPath) as [Heq | (before & members & after & Hts & Hb & Hm & Hu)].
    + rewrite Heq in Hi'. congruence.
    + rewrite Hu in Hi'. rewrite Hts in Hi.
      destruct (Nat.lt_trichotomy i (length before)) as [Hlt | [-> | Hgt]].
      * rewrite lookup_app_l in Hi, Hi' by done. congruence.
      * rewrite list_lookup_middle in Hi, Hi' by done.
        injection Hi as <-. injection Hi' as <-. simpl.
        by apply lookup_markTask_other.
      * rewrite lookup_app_r in Hi, Hi' by lia.
        destruct (i - length before) as [|n] eqn:Hn; [lia|]. simpl in Hi, Hi'.
        congruence.
Qed.

Lemma filter_all {A} (P : A -> Prop) `{!forall x, Decision (P x)} (l : list A) :
  Forall P l -> filter P l = l.
Proof.
  induction 1 as [|x l Hx Hl IH]; [done|].
  rewrite filter_cons_True by done. by rewrite IH.
Qed.

Lemma acceptable_object (E : Engine) (task : value) :
  acceptable E task -> exists members, task = JObj members.
Proof.
  intros (name & id & taskId & Hn & _). destruct task; try discriminate Hn.
  by eexists.
Qed.

Lemma isPending_clearTask (members : list (jsstring * value)) :
  isPending (JObj (clearTask members)) = true.
Proof.
  unfold isPending, getProp. destruct (lookup_clearTask members) as (-> & _).
  by apply streq_true.
Qed.

(** The loop of a reset goes through on objects, position by position. *)
Lemma resetLoop_objects (selected : value -> bool) (tasks : list value) :
  (forall t, t ∈ tasks -> exists members, t = JObj members) ->
  exists tasks',
    resetLoop selected tasks
    = Some (tasks', length (filter (fun t => selected t = true) tasks))
    /\ length tasks' = length tasks
    /\ (forall i t t',
          tasks !! i = Some t -> tasks' !! i = Some t' ->
          exists members,
            t = JObj members
            /\ t' = if selected t then JObj (clearTask members) else t).
Proof.
  induction tasks as [|t tasks IH]; intros H.
  - exists []. repeat split; try done.
  - destruct (H t) as [members ->]; [apply list_elem_of_here|].
    destruct IH as (tasks' & Hr & Hl & Hi).
    { intros u Hu. apply H. by apply list_elem_of_further. }
    cbn [resetLoop]. rewrite Hr. rewrite filter_cons.
    destruct (selected (JObj members)) eqn:Hs.
    + rewrite decide_True by done.
      exists (JObj (clearTask members) :: tasks'). split; [done|].
      split; [simpl; by rewrite Hl|].
      intros [|i] u u' Hu Hu'; simpl in Hu, Hu'.
      * injection Hu as <-. injection Hu' as <-. exists members.
        split; [done|]. by destruct (selected (JObj members)).
      * by apply (Hi i).
    + rewrite decide_False by done.
      exists (JObj members :: tasks'). split; [done|].
      split; [simpl; by rewrite Hl|].
      intros [|i] u u' Hu Hu'; simpl in Hu, Hu'.
      * injection Hu as <-. injection Hu' as <-. exists members.
        split; [done|]. by destruct (selected (JObj members)).
      * by apply (Hi i).
Qed.

Lemma checkTasks_reset (E : Engine) (selected : value -> bool)
    (tasks tasks' : list value) (n : nat) (names : list value) (ids : gset jsstring) :
  resetLoop selected tasks = Some (tasks', n) ->
  checkTasks E names ids tasks' = checkTasks E names ids tasks.
Proof.
  revert tasks' n names ids.
  induction tasks as [|t tasks IH]; intros tasks' n names ids.
  - by intros [= <- <-].
  - destruct t as [| b | m | s | items | members]; try done.
    cbn [resetLoop].
    destruct (resetLoop selected tasks) as [[rest' c]|] eqn:Hr; [|done].
    destruct (selected (JObj members)); intros [= <- <-]; cbn [checkTasks].
    + rewrite (checkTask_same_props E names ids members (clearTask members))
        by (intros k Hk; by apply lookup_clearTask_other).
      destruct (checkTask E names ids (JObj members)) as [e | [n' i']]; [done|].
      by apply (IH rest' c).
    + destruct (checkTask E names ids (JObj members)) as [e | [n' i']]; [done|].
      by apply (IH rest' c).
Qed.

Lemma promptsReadable_withTasks (taskFile : value) (tasks tasks' : list value) :
  getProp taskFile key_tasks = Some (JArr tasks) ->
  promptsReadable (withTasks taskFile tasks') = promptsReadable taskFile.
Proof.
  intros Ht. destruct (getProp_withTasks taskFile tasks tasks' Ht) as (_ & _ & H).
  unfold promptsReadable. by rewrite H.
Qed.

(** What a reset does to a task file that passes validation. *)
Lemma resetWith_valid (E : Engine) (selected : value -> bool) (taskFile : value) :
  validate_config E taskFile = None ->
  exists tasks tasks',
    getProp taskFile key_tasks = Some (JArr tasks)
    /\ resetWith E selected taskFile
       = Some (ResetSaved (withTasks taskFile tasks')
                 (length (filter (fun t => selected t = true) tasks)))
    /\ length tasks' = length tasks
    /\ (forall i t t',
          tasks !! i = Some t -> tasks' !! i = Some t' ->
          exists members,
            t = JObj members
            /\ t' = if selected t then JObj (clearTask members) else t)
    /\ validate_config E (withTasks taskFile tasks') = None
    /\ (promptsReadable taskFile = true ->
        run_all_tasks E (withTasks taskFile tasks')
        = Started (filter (fun t => isPending t = true) tasks')).
Proof.
  intros Hv.
  destruct (validation_sound_tasks E taskFile Hv) as (tasks & Ht & Hacc).
  destruct (resetLoop_objects selected tasks) as (tasks' & Hr & Hl & Hi).
  { intros t Hin. by apply (acceptable_object E), Hacc. }
  exists tasks, tasks'.
  destruct (getProp_withTasks taskFile tasks tasks' Ht) as (Hg & Hn & _).
  assert (Hv' : validate_config E (withTasks taskFile tasks') = None).
  { unfold validate_config in Hv |- *. rewrite Hn, Hg.
    rewrite (checkTasks_reset E selected tasks tasks' _ [] ∅ Hr).
    rewrite Ht in Hv. by destruct taskFile. }
  split; [done|]. split.
  { unfold resetWith. by rewrite Hv, Ht, Hr. }
  split; [done|]. split; [done|]. split; [done|].
  intros Hp. unfold run_all_tasks.
  by rewrite Hv', (promptsReadable_withTasks taskFile tasks tasks' Ht), Hp, Hg.
Qed.



Lemma lookup_markTask_status (status : jsstring)
    (errorMessage reportPath : option jsstring) (members : list (jsstring * value)) :
  lookupMember key_status (markTask status errorMessage reportPath members)
  = Some (JStr status).
Proof.
  unfold markTask.
  destruct reportPath as [[|c p]|]; destruct errorMessage as [[|c' msg]|];
    try destruct (negb (streq status status_error));
    rewrite ?lookup_setMember_ne, ?lookup_deleteMember_ne, ?lookup_setMember_ne
      by done;
    apply lookup_setMember_eq.
Qed.

Lemma markedBy_not_pending (outcome : Settled ExecutionResult)
    (members : list (jsstring * value)) :
  isPending (markedBy outcome members) = false.
Proof.
  unfold isPending, markedBy, getProp. rewrite lookup_markTask_status.
  by destruct outcome as [[[|] e r] | m].
Qed.

(** A pass on a pending task whose name is a string and is the name of no task
    before it. *)
Lemma runTask_pending (execute : nat -> value -> Settled ExecutionResult)
    (i : nat) (before after : list value) (members : list (jsstring * value))
    (name : jsstring) (counts : Counts) :
  length before = i ->
  isPending (JObj members) = true ->
  lookupMember key_name members = Some (JStr name) ->
  (forall t, t ∈ before -> nameIs name t = false /\ t <> JNull) ->
  runTask execute i (before ++ JObj members :: after, counts)
  = Some (before ++ markedBy (execute i (JObj members)) members :: after,
          counted (execute i (JObj members)) counts).
Proof.
  intros Hi Hp Hn Hb. unfold runTask.
  rewrite list_lookup_middle by done. rewrite Hp. cbn [negb getProp]. rewrite Hn.
  assert (Hm : nameIs name (JObj members) = true).
  { unfold nameIs, getProp. rewrite Hn. by apply streq_true. }
  destruct (execute i (JObj members)) as [[[|] e r] | m];
    by rewrite (update_task_status_match before after members name _ _ _ Hb Hm).
Qed.

Lemma runTask_skipped (execute : nat -> value -> Settled ExecutionResult)
    (i : nat) (tasks : list value) (t : value) (counts : Counts) :
  tasks !! i = Some t -> isPending t = false ->
  runTask execute i (tasks, counts)
  = Some (tasks, {| completed := completed counts; skipped := S (skipped counts);
                    errored := errored counts |}).
Proof. intros Hi Hp. unfold runTask. by rewrite Hi, Hp. Qed.

Section Loop.
Variable E : Engine.
Variable execute : nat -> value -> Settled ExecutionResult.
Variable tasks : list value.
Hypothesis Hobj : forall t, t ∈ tasks -> exists members, t = JObj members.
Hypothesis Hnames : forall t,
  t ∈ tasks -> isPending t = true -> exists name, getProp t key_name = Some (JStr name).
Hypothesis Hdist : forall i j ti tj ni nj,
  i < j -> tasks !! i = Some ti -> tasks !! j = Some tj ->
  getProp ti key_name = Some ni -> getProp tj key_name = Some nj ->
  sameValueZero E nj ni = false.

Lemma passed_name (i : nat) (t u : value) :
  (exists members, t = JObj members) ->
  passed execute i t u -> getProp u key_name = getProp t key_name /\ u <> JNull.
Proof.
  intros [m Hm] [[Hp ->] | (Hp & members & -> & ->)].
  - by subst t.
  - split; [|done]. unfold markedBy, getProp. apply lookup_markTask_other.
    unfold statusKey. intros [? | [? | ?]]; discriminate.
Qed.

Lemma loop_step (i : nat) (st : list value * Counts) (t : value) :
  loopInv execute tasks i st -> tasks !! i = Some t ->
  exists st', runTask execute i st = Some st' /\ loopInv execute tasks (S i) st'.
Proof.
  destruct st as [cur counts]. intros (Hlen & Hrest & Hdone & Hsum & Hskip) Ht.
  cbn [fst snd] in *.
  assert (Hcur : cur !! i = Some t) by (by apply Hrest).
  assert (Hlt : i < length tasks) by (by apply lookup_lt_Some in Ht).
  assert (Hin : t ∈ tasks) by (by apply list_elem_of_lookup_2 in Ht).
  destruct (isPending t) eqn:Hp.
  - destruct (Hobj t Hin) as [members ->].
    destruct (Hnames _ Hin Hp) as [name Hn].
    assert (Hbefore : forall u, u ∈ take i cur -> nameIs name u = false /\ u <> JNull).
    { intros u Hu. apply elem_of_take in Hu as (j & Hj & Hji).
      destruct (lookup_lt_is_Some_2 tasks j) as [tj Htj]; [lia|].
      destruct (passed_name j tj u) as [Hnm Hnull].
      - apply Hobj. by apply list_elem_of_lookup_2 in Htj.
      - by apply (Hdone j).
      - split; [|done]. unfold nameIs. rewrite Hnm.
        destruct (getProp tj key_name) as [[| | |n| |]|] eqn:Hg; try done.
        pose proof (Hdist j i tj (JObj members) (JStr n) (JStr name) Hji Htj Ht Hg Hn)
          as Hs.
        simpl in Hs. destruct (streq n name) eqn:Hq; [|done].
        apply streq_true in Hq as ->. by rewrite (proj2 (streq_true name name)) in Hs. }
    exists (<[i := markedBy (execute i (JObj members)) members]> cur,
            counted (execute i (JObj members)) counts).
    split.
    + rewrite insert_take_drop by lia.
      rewrite <- (take_drop_middle cur i (JObj members) Hcur) at 1.
      apply (runTask_pending execute i _ _ members name counts);
        [rewrite length_take; lia | done | exact Hn | exact Hbefore].
    + unfold loopInv. cbn [fst snd]. split; [by rewrite length_insert|]. split.
      { intros j u Hj Hu. rewrite list_lookup_insert_ne by lia. apply Hrest; [lia|done]. }
      split.
      { intros j u u' Hj Hu Hu'.
        destruct (decide (j = i)) as [-> | Hne].
        - rewrite list_lookup_insert_eq in Hu' by lia. injection Hu' as <-.
          rewrite Ht in Hu. injection Hu as <-.
          right. split; [done|]. by exists members.
        - rewrite list_lookup_insert_ne in Hu' by done. apply (Hdone j); [lia|done|done]. }
      rewrite (take_S_r tasks i _ Ht), filter_app, length_app.
      rewrite filter_cons_False, filter_nil by (by rewrite Hp). simpl.
      rewrite Nat.add_0_r.
      destruct (execute i (JObj members)) as [[[|] e r] | m]; simpl; split; lia.
  - exists (cur, {| completed := completed counts; skipped := S (skipped counts);
                    errored := errored counts |}).
    split; [by apply (runTask_skipped execute i cur t)|].
    unfold loopInv. cbn [fst snd]. split; [done|]. split.
    { intros j u Hj Hu. apply Hrest; [lia|done]. }
    split.
    { intros j u u' Hj Hu Hu'.
      destruct (decide (j = i)) as [-> | Hne].
      - left. split; congruence.
      - apply (Hdone j); [lia|done|done]. }
    rewrite (take_S_r tasks i _ Ht), filter_app, length_app.
    rewrite filter_cons_True, filter_nil by done. simpl. split; lia.
Qed.

Lemma runFrom_inv (count i : nat) (st : list value * Counts) :
  i + count = length tasks -> loopInv execute tasks i st ->
  exists st', runFrom execute i count st = Some st' /\ loopInv execute tasks (length tasks) st'.
Proof.
  revert i st. induction count as [|count IH]; intros i st Hi Hinv.
  - exists st. split; [done|]. by replace (length tasks) with i by lia.
  - destruct (lookup_lt_is_Some_2 tasks i) as [t Ht]; [lia|].
    destruct (loop_step i st t Hinv Ht) as (st1 & Hr & Hinv1).
    destruct (IH (S i) st1) as (st2 & Hr2 & Hinv2); [lia | done |].
    exists st2. split; [|done]. cbn [runFrom]. by rewrite Hr.
Qed.

Lemma loopInv_start :
  loopInv execute tasks 0 (tasks, {| completed := 0; skipped := 0; errored := 0 |}).
Proof.
  unfold loopInv. cbn [fst snd]. repeat split; try done. intros j t u Hj. lia.
Qed.

End Loop.

Lemma runTask_checkTasks (E : Engine)
    (execute : nat -> value -> Settled ExecutionResult) (i : nat)
    (st st' : list value * Counts) (names : list value) (ids : gset jsstring) :
  runTask execute i st = Some st' ->
  checkTasks E names ids st'.1 = checkTasks E names ids st.1.
Proof.
  destruct st as [cur counts]. unfold runTask.
  destruct (cur !! i) as [t|]; [|done].
  destruct (negb (isPending t)); [by intros [= <-]|].
  destruct (getProp t key_name) as [[| | |name| |]|]; try done.
  destruct (execute i t) as [r | m]; intros [= <-]; apply checkTasks_update.
Qed.

Lemma runFrom_checkTasks (E : Engine)
    (execute : nat -> value -> Settled ExecutionResult) (count i : nat)
    (st st' : list value * Counts) (names : list value) (ids : gset jsstring) :
  runFrom execute i count st = Some st' ->
  checkTasks E names ids st'.1 = checkTasks E names ids st.1.
Proof.
  revert i st. induction count as [|count IH]; intros i st; cbn [runFrom].
  - by intros [= <-].
  - destruct (runTask execute i st) as [st1|] eqn:Hr; [|done]. intros H.
    rewrite (IH _ _ H). by apply (runTask_checkTasks E execute i).
Qed.


Lemma status_updates_keep_validation_witness :
  validate_config JudgeFacts.sampleEngine
    (withTasks sampleQueue
       (update_task_status sampleTasks (js "c") status_done None
          (Some (js "c.md"))))
  = validate_config JudgeFacts.sampleEngine sampleQueue.
Proof.
  destruct (status_updates_keep_validation JudgeFacts.sampleEngine sampleQueue
              sampleTasks (js "c") status_done None (Some (js "c.md")))
    as [H _].
  - reflexivity.
  - exact H.
Defined.




End QueueRunProps.